(** * Attention on time series (lab02): a shallow embedding

    The notebook [lab02/text-02-attention.ipynb] defines a synthetic
    time-series dataset, a scaled dot-product attention unit with a relative
    positional bias, an attention head, an encoder block, a stacked
    [Transformer] and an absolute [PositionalEncoding].

    Tensors are nested lists of real numbers: the float32 arithmetic of the
    numeric backend is idealised to the real numbers.  Shape errors of the
    tensor primitives and Python exceptions are results of an error type.
    Sizes (d_k, seq_len, num_layers, ...) are natural numbers.  A nested list
    with an empty axis does not record the sizes of the axes after it, so the
    statements about shapes take a positive feature width (which makes the
    batch and sequence axes non-empty).  Random draws (initial parameters,
    noise, dropout masks) are read from an explicit generator state.

    Parts of the notebook are left unwritten ([...]) for the reader; the
    definitions that fill them say so and follow the specification. *)

From Stdlib Require Import String Ascii.
From Stdlib Require Import QArith Qreals.
From Stdlib Require Import List Arith Bool Lia Reals Lra Permutation.
Import ListNotations.

Local Open Scope R_scope.

(** ** Exceptions and results *)

Inductive exn : Type :=
| RuntimeError   (* tensor shape mismatch *)
| IndexError
| TypeError
| ValueError
| ZeroDivisionError
| AttributeError.

Inductive result (A : Type) : Type :=
| Ok (a : A)
| Raise (e : exn).

Arguments Ok {A} a.
Arguments Raise {A} e.

Definition rbind {A B : Type} (r : result A) (k : A -> result B) : result B :=
  match r with
  | Ok a => k a
  | Raise e => Raise e
  end.

Notation "x <-- e ;; k" := (rbind e (fun x => k))
  (at level 61, e at next level, right associativity).
Notation "' p <-- e ;; k" := (rbind e (fun x => match x with p => k end))
  (at level 61, p pattern, e at next level, right associativity).

(** ** Tensors as nested lists *)

Abbreviation vec := (list R) (only parsing).
Abbreviation mat := (list (list R)) (only parsing).
Abbreviation tensor3 := (list (list (list R))) (only parsing).

Definition get1 (v : vec) (i : nat) : R := nth i v 0.
Definition get2 (m : mat) (i j : nat) : R := get1 (nth i m []) j.
Definition get3 (t : tensor3) (b i j : nat) : R := get2 (nth b t []) i j.

Fixpoint sum (l : list R) : R :=
  match l with
  | [] => 0
  | x :: t => x + sum t
  end.

(** [bigsum n f] is f 0 + ... + f (n-1). *)
Definition bigsum (n : nat) (f : nat -> R) : R := sum (map f (seq 0 n)).

(** Shapes.  A tensor with an empty axis has no inner lists left, so the sizes
    after the first empty axis are reported as 0. *)

Definition shape2 (m : mat) : option (nat * nat) :=
  match m with
  | [] => Some (0, 0)%nat
  | r :: rs =>
      if forallb (fun r' => length r' =? length r)%nat rs
      then Some (length m, length r)
      else None
  end.

Definition same_shape2 (s : nat * nat) (m : mat) : bool :=
  match shape2 m with
  | Some (n, k) => ((n =? fst s) && (k =? snd s))%nat
  | None => false
  end.

Definition shape3 (t : tensor3) : option (nat * nat * nat) :=
  match t with
  | [] => Some (0, 0, 0)%nat
  | m :: ms =>
      match shape2 m with
      | Some (n, k) =>
          if forallb (same_shape2 (n, k)) ms
          then Some (length t, n, k)
          else None
      | None => None
      end
  end.

(** ** Tensor primitives of the numeric backend *)

Definition dot (u v : vec) : R :=
  sum (map (fun p => fst p * snd p) (combine u v)).

Definition col (j : nat) (m : mat) : vec := map (fun r => nth j r 0) m.

(** [m.transpose(-2, -1)] on one matrix. *)
Definition transpose2 (m : mat) : mat :=
  map (fun j => col j m) (seq 0 (length (hd [] m))).

Definition matmul2 (a b : mat) : mat :=
  map (fun r => map (fun c => dot r c) (transpose2 b)) a.

(** Broadcasting of one axis: sizes agree, or one of them is 1. *)
Definition broadcastable (n m : nat) : bool :=
  ((n =? m) || (n =? 1) || (m =? 1))%nat.

Fixpoint zip_with {A B C : Type} (f : A -> B -> C) (xs : list A) (ys : list B)
  : list C :=
  match xs, ys with
  | x :: xs', y :: ys' => f x y :: zip_with f xs' ys'
  | _, _ => []
  end.

Definition bmap2 {A B C : Type} (f : A -> B -> C) (xs : list A) (ys : list B)
  : list C :=
  if (length xs =? length ys)%nat then zip_with f xs ys
  else match xs, ys with
       | [x], _ => map (f x) ys
       | _, [y] => map (fun x => f x y) xs
       | _, _ => []
       end.

(** [x.transpose(-2, -1)] on a batch of matrices. *)
Definition transpose (t : tensor3) : tensor3 := map transpose2 t.

(** [torch.matmul] on two 3-d tensors: batched over the first axis (which
    broadcasts), the contracted sizes must agree. *)
Definition matmul (a b : tensor3) : result tensor3 :=
  match shape3 a, shape3 b with
  | Some (ba, _, m), Some (bb, m', _) =>
      if broadcastable ba bb && (m =? m')%nat
      then Ok (bmap2 matmul2 a b)
      else Raise RuntimeError
  | _, _ => Raise RuntimeError
  end.

(** [t / s] for a scalar [s]. *)
Definition div_scalar (t : tensor3) (s : R) : tensor3 :=
  map (map (map (fun x => x / s))) t.

(** [a + b] with broadcasting over every axis. *)
Definition add (a b : tensor3) : result tensor3 :=
  match shape3 a, shape3 b with
  | Some (a0, a1, a2), Some (b0, b1, b2) =>
      if broadcastable a0 b0 && broadcastable a1 b1 && broadcastable a2 b2
      then Ok (bmap2 (bmap2 (bmap2 Rplus)) a b)
      else Raise RuntimeError
  | _, _ => Raise RuntimeError
  end.

Definition softmax_row (r : vec) : vec :=
  let e := map exp r in map (fun x => x / sum e) e.

(** [torch.softmax(t, dim=-1)]. *)
Definition softmax (t : tensor3) : tensor3 := map (map softmax_row) t.

(** ** Random number generators

    The global generators of [numpy] and [torch] are explicit state: a
    generator is the sequence of its future draws and a cursor.  Every draw
    reads the entry under the cursor and advances it. *)

Record rng : Type := mk_rng {
  reals : nat -> R;
  nats : nat -> nat;
  bools : nat -> bool;
  cursor : nat
}.

Definition advance (g : rng) : rng :=
  mk_rng (reals g) (nats g) (bools g) (S (cursor g)).

(** Computations that draw random numbers and may raise. *)
Definition M (A : Type) : Type := rng -> result (A * rng).

Definition ret {A : Type} (a : A) : M A := fun g => Ok (a, g).

Definition bind {A B : Type} (m : M A) (k : A -> M B) : M B :=
  fun g => match m g with
           | Ok (a, g') => k a g'
           | Raise e => Raise e
           end.

Definition lift {A : Type} (r : result A) : M A :=
  fun g => match r with
           | Ok a => Ok (a, g)
           | Raise e => Raise e
           end.

Notation "x <- e ;; k" := (bind e (fun x => k))
  (at level 61, e at next level, right associativity).
Notation "' p <- e ;; k" := (bind e (fun x => match x with p => k end))
  (at level 61, p pattern, e at next level, right associativity).

(** One standard-normal draw ([torch.randn], [np.random.randn]). *)
Definition randn : M R := fun g => Ok (reals g (cursor g), advance g).

(** [np.random.randint(lo, hi)]: an integer in [lo, hi). *)
Definition randint (lo hi : nat) : M nat :=
  fun g => if (lo <? hi)%nat
           then Ok ((lo + nats g (cursor g) mod (hi - lo))%nat, advance g)
           else Raise ValueError.

(** One Bernoulli draw of a dropout mask: [true] keeps the element. *)
Definition rand_keep : M bool := fun g => Ok (bools g (cursor g), advance g).

Fixpoint replicateM {A : Type} (n : nat) (m : M A) : M (list A) :=
  match n with
  | O => ret []
  | S n' => x <- m ;; xs <- replicateM n' m ;; ret (x :: xs)
  end.

Fixpoint mapM {A B : Type} (f : A -> M B) (l : list A) : M (list B) :=
  match l with
  | [] => ret []
  | x :: l' => y <- f x ;; ys <- mapM f l' ;; ret (y :: ys)
  end.

Fixpoint rmapM {A B : Type} (f : A -> result B) (l : list A) : result (list B) :=
  match l with
  | [] => Ok []
  | x :: l' => y <-- f x ;; ys <-- rmapM f l' ;; Ok (y :: ys)
  end.

Definition randn1 (n : nat) : M vec := replicateM n randn.
Definition randn2 (n m : nat) : M mat := replicateM n (randn1 m).
Definition randn3 (b n m : nat) : M tensor3 := replicateM b (randn2 n m).

(** ** The scaled dot-product attention unit *)

Module ScaledDotProductAttention.

Record t : Type := mk {
  d_k : nat;
  seq_len : nat;
  other_positional_encodings_present : bool;
  rel_layer : tensor3
}.

(** The bias is a plain tensor of fresh standard-normal draws. *)
Definition init (seq_len d_k : nat) (other_positional_encodings_present : bool)
  : M t :=
  rel_layer <- randn3 1 seq_len seq_len ;;
  ret (mk d_k seq_len other_positional_encodings_present rel_layer).

Definition forward (self : t) (query key value : tensor3)
  : result (tensor3 * tensor3) :=
  qk <-- matmul query (transpose key) ;;
  let scores := div_scalar qk (sqrt (INR (d_k self))) in
  scores <-- (if negb (other_positional_encodings_present self)
              then add scores (rel_layer self)
              else Ok scores) ;;
  let attention_weights := softmax scores in
  output <-- matmul attention_weights value ;;
  Ok (output, attention_weights).

End ScaledDotProductAttention.

(** ** Library layers: Linear, LayerNorm, ReLU, Dropout *)

Module Linear.

Record t : Type := mk {
  in_features : nat;
  out_features : nat;
  weight : mat;     (* out_features rows of in_features entries *)
  bias : vec
}.

(** The initial values are random draws; their distribution plays no role. *)
Definition init (in_f out_f : nat) : M t :=
  w <- randn2 out_f in_f ;;
  b <- randn1 out_f ;;
  ret (mk in_f out_f w b).

Definition forward1 (self : t) (x : vec) : vec :=
  zip_with (fun w b => dot x w + b) (weight self) (bias self).

Definition accepts (self : t) (x : vec) : bool :=
  (length x =? in_features self)%nat.

(** Input of shape (batch, in_features). *)
Definition forward2 (self : t) (x : mat) : result mat :=
  if forallb (accepts self) x
  then Ok (map (forward1 self) x)
  else Raise RuntimeError.

(** Input of shape (batch, seq_len, in_features). *)
Definition forward (self : t) (x : tensor3) : result tensor3 :=
  if forallb (forallb (accepts self)) x
  then Ok (map (map (forward1 self)) x)
  else Raise RuntimeError.

End Linear.

Module LayerNorm.

Record t : Type := mk {
  normalized_shape : nat;
  weight : vec;
  bias : vec;
  eps : R
}.

Definition init (d : nat) : t := mk d (repeat 1 d) (repeat 0 d) (1 / 100000).

Definition mean (v : vec) : R := sum v / INR (length v).

Definition var (v : vec) : R :=
  sum (map (fun x => (x - mean v) * (x - mean v)) v) / INR (length v).

Definition forward1 (self : t) (v : vec) : vec :=
  let xhat := map (fun x => (x - mean v) / sqrt (var v + eps self)) v in
  zip_with (fun xh gb => xh * fst gb + snd gb) xhat
           (combine (weight self) (bias self)).

Definition accepts (self : t) (x : vec) : bool :=
  (length x =? normalized_shape self)%nat.

Definition forward (self : t) (x : tensor3) : result tensor3 :=
  if forallb (forallb (accepts self)) x
  then Ok (map (map (forward1 self)) x)
  else Raise RuntimeError.

End LayerNorm.

Definition relu (t : tensor3) : tensor3 := map (map (map (Rmax 0))) t.

Module Dropout.

Record t : Type := mk {
  p : Q;
  training : bool
}.

(** [nn.Dropout(p)] rejects a probability outside [0, 1]; a new module is
    in training mode. *)
Definition init (p : Q) : result t :=
  if Qle_bool 0 p && Qle_bool p 1
  then Ok (mk p true)
  else Raise ValueError.

Definition drop1 (self : t) (x : R) : M R :=
  keep <- rand_keep ;;
  ret (if keep then x / (1 - Q2R (p self)) else 0).

(** Identity in evaluation mode; in training mode every element is zeroed
    or rescaled according to a fresh Bernoulli draw. *)
Definition forward (self : t) (x : tensor3) : M tensor3 :=
  if training self
  then mapM (mapM (mapM (drop1 self))) x
  else ret x.

End Dropout.

(** ** The attention head *)

Module AttentionHead.

Record t : Type := mk {
  d_k : nat;
  seq_len : nat;
  query_layer : Linear.t;
  key_layer : Linear.t;
  value_layer : Linear.t;
  scaled_dot_attention : ScaledDotProductAttention.t;
  fc_out : Linear.t
}.

(** Modelled from the spec: the notebook leaves the four linear layers of
    the constructor unwritten ([...]); the spec gives three independent
    projections and one output projection, each hidden-width to
    hidden-width.  The attention unit is built as the notebook builds it. *)
Definition init (d_model seq_len : nat)
           (other_positional_encodings_present : bool) : M t :=
  query_layer <- Linear.init d_model d_model ;;
  key_layer <- Linear.init d_model d_model ;;
  value_layer <- Linear.init d_model d_model ;;
  scaled_dot_attention <-
    ScaledDotProductAttention.init seq_len d_model
      other_positional_encodings_present ;;
  fc_out <- Linear.init d_model d_model ;;
  ret (mk d_model seq_len query_layer key_layer value_layer
          scaled_dot_attention fc_out).

(** Modelled from the spec: the body of [forward] is unwritten in the
    notebook; the spec applies the three input projections, invokes the
    attention unit, then applies the output projection to its output and
    returns the projected output with the attention weights. *)
Definition forward (self : t) (query key value : tensor3)
  : result (tensor3 * tensor3) :=
  Q <-- Linear.forward (query_layer self) query ;;
  K <-- Linear.forward (key_layer self) key ;;
  V <-- Linear.forward (value_layer self) value ;;
  ' (attention_output, attention_weights) <--
    ScaledDotProductAttention.forward (scaled_dot_attention self) Q K V ;;
  output <-- Linear.forward (fc_out self) attention_output ;;
  Ok (output, attention_weights).

End AttentionHead.

(** ** The encoder block *)

Module TransformerEncoderBlock.

Record t : Type := mk {
  attention : AttentionHead.t;
  norm1 : LayerNorm.t;
  norm2 : LayerNorm.t;
  ffn : Linear.t * Linear.t;    (* Sequential(Linear, ReLU, Linear) *)
  dropout : Dropout.t
}.

(** Modelled from the spec: [norm2] is unwritten in the notebook; the spec
    gives a second layer normalisation over [d_model], like [norm1]. *)
Definition init (d_model dim_feedforward seq_len : nat)
           (other_positional_encodings_present : bool) (dropout : Q) : M t :=
  attention <-
    AttentionHead.init d_model seq_len other_positional_encodings_present ;;
  let norm1 := LayerNorm.init d_model in
  let norm2 := LayerNorm.init d_model in
  ffn0 <- Linear.init d_model dim_feedforward ;;
  ffn2 <- Linear.init dim_feedforward d_model ;;
  dropout <- lift (Dropout.init dropout) ;;
  ret (mk attention norm1 norm2 (ffn0, ffn2) dropout).

Definition ffn_forward (self : t) (x : tensor3) : result tensor3 :=
  h <-- Linear.forward (fst (ffn self)) x ;;
  Linear.forward (snd (ffn self)) (relu h).

(** Modelled from the spec: the notebook writes the attention call and the
    first residual step and leaves [ffn_output] and [output] unwritten; the
    spec gives [ffn_output] as the feed-forward network applied to the
    normalised state and [output = LayerNorm(x' + Dropout(ffn_output))]. *)
Definition forward (self : t) (x : tensor3) : M (tensor3 * tensor3) :=
  ' (attention_output, attention_weights) <-
    lift (AttentionHead.forward (attention self) x x x) ;;
  dropped <- Dropout.forward (dropout self) attention_output ;;
  residual <- lift (add x dropped) ;;
  x <- lift (LayerNorm.forward (norm1 self) residual) ;;
  ffn_output <- lift (ffn_forward self x) ;;
  dropped <- Dropout.forward (dropout self) ffn_output ;;
  residual <- lift (add x dropped) ;;
  output <- lift (LayerNorm.forward (norm2 self) residual) ;;
  ret (output, attention_weights).

End TransformerEncoderBlock.

(** ** Attributes of a module object

    [nn.Module.__setattr__] files an assigned value by its class: an
    [nn.Parameter] is registered as a parameter, an [nn.Module] as a
    submodule, anything else (numbers, flags, plain tensors) is an ordinary
    attribute.  [register_buffer] registers a buffer.  An [nn.ModuleList]
    registers its i-th element under the name [str(i)], written [Item i]. *)

Inductive anytensor : Type :=
| T1 (v : vec)
| T2 (m : mat)
| T3 (t : tensor3).

Inductive key : Type :=
| Name (s : string)
| Item (i : nat).

#[warnings="-register-all"] Inductive attr : Type :=
| APlain
| ATensor (v : anytensor)
| AParameter (v : anytensor)
| ABuffer (v : anytensor)
| AModule (children : list (key * attr)).

(** An absolute positional encoding object, as the stacked model sees it:
    a [forward] operation and the attributes it registered. *)
Record PosEncoder : Type := mk_PosEncoder {
  pe_forward : tensor3 -> result tensor3;
  pe_attrs : list (key * attr)
}.

(** [range(start, stop, step)] for a positive step. *)
Definition range (start stop step : nat) : list nat :=
  map (fun k => start + k * step)%nat
      (seq 0 ((stop - start + step - 1) / step)).

(** ** The absolute positional encoding *)

Module PositionalEncoding.

Record t : Type := mk {
  pe : tensor3    (* buffer of shape (max_len, 1, d_model) *)
}.

Definition div_term (d_model : nat) : vec :=
  map (fun i => exp (INR i * (- ln 10000 / INR d_model)))
      (range 0 d_model 2).

(** The assignment [row[start::2] = vals] needs as many values as slots,
    or a single value to broadcast. *)
Definition slots_ok (start d_model : nat) (vals : vec) : bool :=
  ((length (range start d_model 2) =? length vals)
   || (length vals =? 1))%nat.

Definition set_strided (start : nat) (vals : vec) (row : vec) : vec :=
  map (fun j =>
         if ((start <=? j) && ((j - start) mod 2 =? 0))%nat
         then (if (length vals =? 1)%nat then nth 0 vals 0
               else nth ((j - start) / 2) vals 0)
         else nth j row 0)
      (seq 0 (length row)).

Definition table_row (d_model : nat) (position : nat) : vec :=
  let angles := map (fun w => INR position * w) (div_term d_model) in
  set_strided 1 (map cos angles)
    (set_strided 0 (map sin angles) (repeat 0 d_model)).

Definition table (d_model max_len : nat) : mat :=
  map (table_row d_model) (seq 0 max_len).

Definition init (d_model max_len : nat) : result t :=
  if (d_model =? 0)%nat then Raise ZeroDivisionError
  else if slots_ok 0 d_model (div_term d_model)
          && slots_ok 1 d_model (div_term d_model)
  then Ok (mk (map (fun row => [row]) (table d_model max_len)))
  else Raise RuntimeError.

(** [x + self.pe[:x.size(0), :].repeat(1, x.shape[1], 1)] *)
Definition forward (self : t) (x : tensor3) : result tensor3 :=
  add x (map (fun m => concat (repeat m (length (hd [] x))))
             (firstn (length x) (pe self))).

Definition as_encoder (self : t) : PosEncoder :=
  mk_PosEncoder (forward self) [(Name "pe", ABuffer (T3 (pe self)))].

(** The class itself, as a constructor passed to the stacked model. *)
Definition constructor (d_model max_len : nat) : M PosEncoder :=
  lift (self <-- init d_model max_len ;; Ok (as_encoder self)).

End PositionalEncoding.

(** ** The stacked encoder model *)

Module Transformer.

Record t : Type := mk {
  positional_encoding : option (nat -> nat -> M PosEncoder);
  embedding : Linear.t;
  pos_encoder : option PosEncoder;
  encoder_layers : list TransformerEncoderBlock.t;
  fc_out : Linear.t
}.

Definition init (input_size d_model dim_feedforward num_layers seq_len : nat)
           (positional_encoding : option (nat -> nat -> M PosEncoder))
           (dropout : Q) (max_len : nat) : M t :=
  embedding <- Linear.init input_size d_model ;;
  pos_encoder <- match positional_encoding with
                 | Some make => pe <- make d_model max_len ;; ret (Some pe)
                 | None => ret None
                 end ;;
  encoder_layers <-
    replicateM num_layers
      (TransformerEncoderBlock.init d_model dim_feedforward seq_len
         (match positional_encoding with None => false | Some _ => true end)
         dropout) ;;
  fc_out <- Linear.init d_model 1 ;;
  ret (mk positional_encoding embedding pos_encoder encoder_layers fc_out).

(** The loop over the encoder layers, appending each block's weights. *)
Fixpoint run_layers (layers : list TransformerEncoderBlock.t) (x : tensor3)
         (all_attention_weights : list tensor3)
  : M (tensor3 * list tensor3) :=
  match layers with
  | [] => ret (x, all_attention_weights)
  | layer :: rest =>
      ' (x, attention_weights) <- TransformerEncoderBlock.forward layer x ;;
      run_layers rest x (all_attention_weights ++ [attention_weights])
  end.

(** [x[:, -1]]: the last row of every batch element. *)
Definition last_step (x : tensor3) : result mat :=
  rmapM (fun m => match m with
                  | [] => Raise IndexError
                  | _ => Ok (last m [])
                  end) x.

Definition forward (self : t) (x : tensor3) : M (mat * list tensor3) :=
  x <- lift (Linear.forward (embedding self) x) ;;
  x <- match positional_encoding self with
       | Some _ => match pos_encoder self with
                   | Some enc => lift (pe_forward enc x)
                   | None => lift (Raise AttributeError)
                   end
       | None => ret x
       end ;;
  ' (x, all_attention_weights) <- run_layers (encoder_layers self) x [] ;;
  last <- lift (last_step x) ;;
  output <- lift (Linear.forward2 (fc_out self) last) ;;
  ret (output, all_attention_weights).

End Transformer.

(** ** The synthetic time-series dataset *)

Module TimeSeriesDataset.

Definition val : nat := 3.
Definition initial_jump : R := 5.

Record t : Type := mk {
  seq_len : nat;
  data : list vec
}.

(** [a[i] += d] on an array. *)
Fixpoint add_at (a : vec) (i : nat) (d : R) : result vec :=
  match a, i with
  | [], _ => Raise IndexError
  | x :: a', O => Ok ((x + d) :: a')
  | x :: a', S i' => a'' <-- add_at a' i' d ;; Ok (x :: a'')
  end.

Definition jump_at (i : nat) : R :=
  if (i mod 2 =? 1)%nat then 0 else initial_jump.

(** Modelled from the spec: the increment of each later jump is unwritten
    in the notebook ([time_series[i] += ...]); the spec gives the
    alternating [jump] plus random noise. *)
Fixpoint later_jumps (indices : list nat) (time_series : vec) : M vec :=
  match indices with
  | [] => ret time_series
  | i :: rest =>
      let jump := jump_at i in
      noise <- randn ;;
      time_series <- lift (add_at time_series i (jump + noise)) ;;
      later_jumps rest time_series
  end.

(** Modelled from the spec: [first_jump] and the first increment are
    unwritten in the notebook; the spec gives a random first offset in
    [0, val) and an increment of [initial_jump] plus random noise. *)
Definition sample (seq_len : nat) : M vec :=
  let time_series := repeat 0 (seq_len + 1) in
  first_jump <- randint 0 val ;;
  noise <- randn ;;
  time_series <- lift (add_at time_series first_jump (initial_jump + noise)) ;;
  later_jumps (range (first_jump + val) (seq_len + 1) val) time_series.

Definition init (seq_len num_samples : nat) : M t :=
  data <- replicateM num_samples (sample seq_len) ;;
  ret (mk seq_len data).

(** Modelled from the spec: [__len__] is unwritten in the notebook. *)
Definition len (self : t) : nat := length (data self).

(** Modelled from the spec: the body of [__getitem__] is unwritten in the
    notebook; the spec gives the pair of the sequence without its final
    element (the model input, of length [seq_len]) and the final element
    (the target). *)
Definition getitem (self : t) (idx : nat) : result (vec * R) :=
  match nth_error (data self) idx with
  | None => Raise IndexError
  | Some [] => Raise IndexError
  | Some series => Ok (removelast series, last series 0)
  end.

End TimeSeriesDataset.

(** ** Calling [forward]

    A module is called with positional and keyword arguments, which Python
    binds to the parameters of [def forward(self, query, key, value)]. *)

Module Call.

Definition env : Type := list (string * tensor3).

Fixpoint lookup (k : string) (e : env) : option tensor3 :=
  match e with
  | [] => None
  | (k', v) :: e' => if String.eqb k k' then Some v else lookup k e'
  end.

Fixpoint bind_positional (params : list string) (args : list tensor3)
  : result env :=
  match args, params with
  | [], _ => Ok []
  | a :: args', p :: params' =>
      e <-- bind_positional params' args' ;; Ok ((p, a) :: e)
  | _ :: _, [] => Raise TypeError   (* too many positional arguments *)
  end.

Fixpoint bind_keywords (params : list string) (e : env)
         (kwargs : list (string * tensor3)) : result env :=
  match kwargs with
  | [] => Ok e
  | (k, v) :: rest =>
      if existsb (String.eqb k) params
      then match lookup k e with
           | Some _ => Raise TypeError   (* multiple values for k *)
           | None => bind_keywords params ((k, v) :: e) rest
           end
      else Raise TypeError             (* unexpected keyword argument *)
  end.

Definition forward_params : list string := ["query"; "key"; "value"]%string.

Definition attention (self : ScaledDotProductAttention.t)
           (args : list tensor3) (kwargs : list (string * tensor3))
  : result (tensor3 * tensor3) :=
  e <-- bind_positional forward_params args ;;
  e <-- bind_keywords forward_params e kwargs ;;
  match lookup "query" e, lookup "key" e, lookup "value" e with
  | Some query, Some key, Some value =>
      ScaledDotProductAttention.forward self query key value
  | _, _, _ => Raise TypeError         (* missing required argument *)
  end.

End Call.

(** ** Permutations of the sequence axis *)

Definition is_perm (p : list nat) (n : nat) : Prop := Permutation p (seq 0 n).

Definition permute_rows (p : list nat) (m : mat) : mat :=
  map (fun i => nth i m []) p.

Definition permute_cols (p : list nat) (m : mat) : mat :=
  map (fun r => map (fun j => nth j r 0) p) m.

Definition permute_seq (p : list nat) (t : tensor3) : tensor3 :=
  map (permute_rows p) t.

Definition permute_weights (p : list nat) (w : tensor3) : tensor3 :=
  map (fun m => permute_rows p (permute_cols p m)) w.

(** ** Module objects and what [parameters()] and [state_dict()] collect *)

Definition key_eqb (a b : key) : bool :=
  match a, b with
  | Name s, Name s' => String.eqb s s'
  | Item i, Item j => (i =? j)%nat
  | _, _ => false
  end.

(** [named_parameters()]: the registered parameters of a module and,
    recursively, of its registered submodules, under their dotted names
    (here: paths of keys). *)
Fixpoint named_parameters (prefix : list key) (a : attr)
  : list (list key * anytensor) :=
  match a with
  | AParameter v => [(prefix, v)]
  | AModule children =>
      flat_map (fun kc => let '(k, c) := kc in
                          named_parameters (prefix ++ [k]) c) children
  | _ => []
  end.

Fixpoint named_buffers (prefix : list key) (a : attr)
  : list (list key * anytensor) :=
  match a with
  | ABuffer v => [(prefix, v)]
  | AModule children =>
      flat_map (fun kc => let '(k, c) := kc in
                          named_buffers (prefix ++ [k]) c) children
  | _ => []
  end.

(** [state_dict()] saves the parameters and the buffers. *)
Definition state_dict (a : attr) : list (list key * anytensor) :=
  named_parameters [] a ++ named_buffers [] a.

(** A training step that updates [model.parameters()]: every registered
    parameter is replaced by a new value, nothing else changes. *)
Fixpoint update_parameters (f : list key -> anytensor -> anytensor)
         (prefix : list key) (a : attr) : attr :=
  match a with
  | AParameter v => AParameter (f prefix v)
  | AModule children =>
      AModule (map (fun kc => let '(k, c) := kc in
                              (k, update_parameters f (prefix ++ [k]) c))
                   children)
  | other => other
  end.

Fixpoint get_attr (k : key) (children : list (key * attr)) : option attr :=
  match children with
  | [] => None
  | (k', c) :: rest => if key_eqb k k' then Some c else get_attr k rest
  end.

(** Attribute access along a path, [model.a.b.c]. *)
Fixpoint get_path (path : list key) (a : attr) : option attr :=
  match path with
  | [] => Some a
  | k :: rest =>
      match a with
      | AModule children =>
          match get_attr k children with
          | Some c => get_path rest c
          | None => None
          end
      | _ => None
      end
  end.

(** The module objects of the classes: the attributes their constructors
    assign, each filed by the class of the assigned value. *)
Definition Linear_module (l : Linear.t) : attr :=
  AModule [(Name "in_features", APlain); (Name "out_features", APlain);
           (Name "weight", AParameter (T2 (Linear.weight l)));
           (Name "bias", AParameter (T1 (Linear.bias l)))].

Definition LayerNorm_module (l : LayerNorm.t) : attr :=
  AModule [(Name "normalized_shape", APlain); (Name "eps", APlain);
           (Name "weight", AParameter (T1 (LayerNorm.weight l)));
           (Name "bias", AParameter (T1 (LayerNorm.bias l)))].

Definition Dropout_module (d : Dropout.t) : attr :=
  AModule [(Name "p", APlain)].

Definition ReLU_module : attr := AModule [].

Definition ScaledDotProductAttention_module (a : ScaledDotProductAttention.t)
  : attr :=
  AModule [(Name "d_k", APlain); (Name "seq_len", APlain);
           (Name "other_positional_encodings_present", APlain);
           (Name "rel_layer",
            ATensor (T3 (ScaledDotProductAttention.rel_layer a)))].

Definition AttentionHead_module (h : AttentionHead.t) : attr :=
  AModule [(Name "d_k", APlain); (Name "seq_len", APlain);
           (Name "query_layer", Linear_module (AttentionHead.query_layer h));
           (Name "key_layer", Linear_module (AttentionHead.key_layer h));
           (Name "value_layer", Linear_module (AttentionHead.value_layer h));
           (Name "scaled_dot_attention",
            ScaledDotProductAttention_module
              (AttentionHead.scaled_dot_attention h));
           (Name "fc_out", Linear_module (AttentionHead.fc_out h))].

Definition TransformerEncoderBlock_module (b : TransformerEncoderBlock.t)
  : attr :=
  AModule [(Name "attention",
            AttentionHead_module (TransformerEncoderBlock.attention b));
           (Name "norm1", LayerNorm_module (TransformerEncoderBlock.norm1 b));
           (Name "norm2", LayerNorm_module (TransformerEncoderBlock.norm2 b));
           (Name "ffn",
            AModule [(Item 0, Linear_module (fst (TransformerEncoderBlock.ffn b)));
                     (Item 1, ReLU_module);
                     (Item 2, Linear_module (snd (TransformerEncoderBlock.ffn b)))]);
           (Name "dropout", Dropout_module (TransformerEncoderBlock.dropout b))].

(** [nn.ModuleList]: element i under the name [str(i)]. *)
Fixpoint module_list_from (i : nat) (ms : list attr) : list (key * attr) :=
  match ms with
  | [] => []
  | m :: ms' => (Item i, m) :: module_list_from (S i) ms'
  end.

Definition ModuleList (ms : list attr) : attr := AModule (module_list_from 0 ms).

Definition Transformer_module (m : Transformer.t) : attr :=
  AModule ([(Name "positional_encoding", APlain);
            (Name "embedding", Linear_module (Transformer.embedding m))]
           ++ match Transformer.pos_encoder m with
              | Some enc => [(Name "pos_encoder", AModule (pe_attrs enc))]
              | None => []
              end
           ++ [(Name "encoder_layers",
                ModuleList (map TransformerEncoderBlock_module
                                (Transformer.encoder_layers m)));
               (Name "fc_out", Linear_module (Transformer.fc_out m))]).

(** The path of the relative bias of block [i],
    [encoder_layers.i.attention.scaled_dot_attention.rel_layer]. *)
Definition rel_path (i : nat) : list key :=
  [Name "encoder_layers"; Item i; Name "attention";
   Name "scaled_dot_attention"; Name "rel_layer"].

(** ** Vocabulary of the statements *)

Definition is_mat (n k : nat) (m : mat) : Prop :=
  length m = n /\ Forall (fun r => length r = k) m.

Definition is_tensor (b n k : nat) (t : tensor3) : Prop :=
  length t = b /\ Forall (is_mat n k) t.

(** The scaled score of query position [i] against key position [j]. *)
Definition score (d : nat) (q k : tensor3) (b i j : nat) : R :=
  bigsum d (fun c => get3 q b i c * get3 k b j c) / sqrt (INR d).

(** The softmax weight of position [j] in row [i] of a score function. *)
Definition attention_weight (s : nat -> nat -> nat -> R) (L : nat) (b i j : nat)
  : R :=
  exp (s b i j) / bigsum L (fun j' => exp (s b i j')).

(** The score tensor before and after the relative bias, with the shape
    checks of the primitives already passed. *)
Definition raw_scores (d : nat) (q k : tensor3) : tensor3 :=
  div_scalar (zip_with matmul2 q (transpose k)) (sqrt (INR d)).

Definition biased (s rel : tensor3) : tensor3 :=
  map (fun m => zip_with (zip_with Rplus) m (hd [] rel)) s.

(** The scores the attention unit passes to the softmax. *)
Definition scores_of (self : ScaledDotProductAttention.t) (q k : tensor3)
  : tensor3 :=
  if ScaledDotProductAttention.other_positional_encodings_present self
  then raw_scores (ScaledDotProductAttention.d_k self) q k
  else biased (raw_scores (ScaledDotProductAttention.d_k self) q k)
              (ScaledDotProductAttention.rel_layer self).

(** When the bias is active it has the shape (1, L, L). *)
Definition bias_ready (self : ScaledDotProductAttention.t) (L : nat) : Prop :=
  ScaledDotProductAttention.other_positional_encodings_present self = false ->
  is_tensor 1 L L (ScaledDotProductAttention.rel_layer self).

(** What the attention unit returns on inputs of shapes (B, L, d_k),
    (B, L, d_k), (B, L, dv), for the score function [s]: the weights are the
    row-wise softmax of [s], the output is the weights times the values. *)
Definition attention_contract (self : ScaledDotProductAttention.t)
           (s : nat -> nat -> nat -> R) (q k v : tensor3) (B L dv : nat)
  : Prop :=
  exists output weights,
    ScaledDotProductAttention.forward self q k v = Ok (output, weights) /\
    shape3 output = Some (B, L, dv) /\
    shape3 weights = Some (B, L, L) /\
    (forall b i j, (b < B)%nat -> (i < L)%nat -> (j < L)%nat ->
       get3 weights b i j = attention_weight s L b i j) /\
    (forall b i c, (b < B)%nat -> (i < L)%nat -> (c < dv)%nat ->
       get3 output b i c = bigsum L (fun j => get3 weights b i j * get3 v b j c)).

(** The score function with the relative bias added. *)
Definition biased_score (self : ScaledDotProductAttention.t) (q k : tensor3)
           (b i j : nat) : R :=
  score (ScaledDotProductAttention.d_k self) q k b i j
  + get3 (ScaledDotProductAttention.rel_layer self) 0 i j.

Definition zeros3 (b n k : nat) : tensor3 := repeat (repeat (repeat 0 k) n) b.

(** Parameter shapes of the layers. *)
Definition wf_linear (i o : nat) (l : Linear.t) : Prop :=
  Linear.in_features l = i /\ Linear.out_features l = o /\
  is_mat o i (Linear.weight l) /\ length (Linear.bias l) = o.

Definition wf_layernorm (d : nat) (l : LayerNorm.t) : Prop :=
  LayerNorm.normalized_shape l = d /\
  length (LayerNorm.weight l) = d /\ length (LayerNorm.bias l) = d.

Definition wf_attention (d L : nat) (a : ScaledDotProductAttention.t) : Prop :=
  ScaledDotProductAttention.d_k a = d /\
  ScaledDotProductAttention.seq_len a = L /\
  is_tensor 1 L L (ScaledDotProductAttention.rel_layer a).

Definition wf_head (d L : nat) (h : AttentionHead.t) : Prop :=
  wf_linear d d (AttentionHead.query_layer h) /\
  wf_linear d d (AttentionHead.key_layer h) /\
  wf_linear d d (AttentionHead.value_layer h) /\
  wf_attention d L (AttentionHead.scaled_dot_attention h) /\
  wf_linear d d (AttentionHead.fc_out h).

Definition wf_block (d dff L : nat) (b : TransformerEncoderBlock.t) : Prop :=
  wf_head d L (TransformerEncoderBlock.attention b) /\
  wf_layernorm d (TransformerEncoderBlock.norm1 b) /\
  wf_layernorm d (TransformerEncoderBlock.norm2 b) /\
  wf_linear d dff (fst (TransformerEncoderBlock.ffn b)) /\
  wf_linear dff d (snd (TransformerEncoderBlock.ffn b)).

(** The flag of the attention unit inside a block. *)
Definition block_flag (b : TransformerEncoderBlock.t) : bool :=
  ScaledDotProductAttention.other_positional_encodings_present
    (AttentionHead.scaled_dot_attention (TransformerEncoderBlock.attention b)).

Definition block_unit (b : TransformerEncoderBlock.t)
  : ScaledDotProductAttention.t :=
  AttentionHead.scaled_dot_attention (TransformerEncoderBlock.attention b).

(** Elementwise sum of two tensors of one shape. *)
Definition plus3 (a b : tensor3) : tensor3 :=
  zip_with (zip_with (zip_with Rplus)) a b.

(** The steps of an encoder block on an input of shape (B, L, d), started
    with the generator [g]. *)
Definition block_contract (blk : TransformerEncoderBlock.t) (x : tensor3)
           (g : rng) (B L d : nat) : Prop :=
  exists attention_output attention_weights dropped1 g1 x' hidden ffn_output
         dropped2 g2 output,
    AttentionHead.forward (TransformerEncoderBlock.attention blk) x x x
      = Ok (attention_output, attention_weights) /\
    Dropout.forward (TransformerEncoderBlock.dropout blk) attention_output g
      = Ok (dropped1, g1) /\
    LayerNorm.forward (TransformerEncoderBlock.norm1 blk) (plus3 x dropped1)
      = Ok x' /\
    Linear.forward (fst (TransformerEncoderBlock.ffn blk)) x' = Ok hidden /\
    Linear.forward (snd (TransformerEncoderBlock.ffn blk))
      (map (map (map (Rmax 0))) hidden) = Ok ffn_output /\
    Dropout.forward (TransformerEncoderBlock.dropout blk) ffn_output g1
      = Ok (dropped2, g2) /\
    LayerNorm.forward (TransformerEncoderBlock.norm2 blk) (plus3 x' dropped2)
      = Ok output /\
    TransformerEncoderBlock.forward blk x g
      = Ok ((output, attention_weights), g2) /\
    shape3 output = Some (B, L, d) /\
    shape3 attention_weights = Some (B, L, L) /\
    (Dropout.training (TransformerEncoderBlock.dropout blk) = false ->
     dropped1 = attention_output /\ dropped2 = ffn_output /\ g2 = g).

Definition row_stochastic (w : tensor3) : Prop :=
  Forall (Forall (fun r => sum r = 1)) w.

(** The blocks applied one after the other, from the state [x] and the
    generator [g]: the weights of the blocks in block order, the final state
    and the final generator. *)
Inductive runs : list TransformerEncoderBlock.t -> tensor3 -> rng ->
                 list tensor3 -> tensor3 -> rng -> Prop :=
| runs_nil x g : runs [] x g [] x g
| runs_cons layer rest x g x1 w g1 ws xN gN :
    TransformerEncoderBlock.forward layer x g = Ok ((x1, w), g1) ->
    runs rest x1 g1 ws xN gN ->
    runs (layer :: rest) x g (w :: ws) xN gN.

Definition wf_transformer (input_size d dff L : nat) (m : Transformer.t) : Prop :=
  wf_linear input_size d (Transformer.embedding m) /\
  Forall (wf_block d dff L) (Transformer.encoder_layers m) /\
  wf_linear d 1 (Transformer.fc_out m) /\
  (Transformer.positional_encoding m = None <-> Transformer.pos_encoder m = None) /\
  Forall (fun b => block_flag b =
                   match Transformer.positional_encoding m with
                   | None => false
                   | Some _ => true
                   end) (Transformer.encoder_layers m).

(** The positional encoder, when there is one, accepts and returns states
    of shape (B, L, d). *)
Definition encoder_ok (m : Transformer.t) (B L d : nat) : Prop :=
  forall enc, Transformer.pos_encoder m = Some enc ->
  forall x, is_tensor B L d x ->
  exists y, pe_forward enc x = Ok y /\ is_tensor B L d y.

(** The steps of the stacked model on an input of shape (B, L, input_size). *)
Definition transformer_contract (m : Transformer.t) (x : tensor3) (g : rng)
           (B L d : nat) : Prop :=
  exists embedded h0 hN all_attention_weights gN output,
    Linear.forward (Transformer.embedding m) x = Ok embedded /\
    shape3 embedded = Some (B, L, d) /\
    match Transformer.positional_encoding m with
    | None => h0 = embedded
    | Some _ => exists enc, Transformer.pos_encoder m = Some enc /\
                            pe_forward enc embedded = Ok h0
    end /\
    runs (Transformer.encoder_layers m) h0 g all_attention_weights hN gN /\
    length all_attention_weights = length (Transformer.encoder_layers m) /\
    Forall (fun w => shape3 w = Some (B, L, L)) all_attention_weights /\
    output = map (fun s => Linear.forward1 (Transformer.fc_out m) (last s [])) hN /\
    is_mat B 1 output /\
    Transformer.forward m x g = Ok ((output, all_attention_weights), gN).

(** The frequency of channel pair [i] of the sine/cosine table. *)
Definition frequency (d_model i : nat) : R :=
  exp (INR (2 * i) * (- ln 10000 / INR d_model)).

(** Overwriting the relative bias of a unit, of a block, of every block. *)
Definition set_rel_layer (r : tensor3) (a : ScaledDotProductAttention.t)
  : ScaledDotProductAttention.t :=
  ScaledDotProductAttention.mk
    (ScaledDotProductAttention.d_k a) (ScaledDotProductAttention.seq_len a)
    (ScaledDotProductAttention.other_positional_encodings_present a) r.

Definition block_set_rel_layer (r : tensor3) (b : TransformerEncoderBlock.t)
  : TransformerEncoderBlock.t :=
  let h := TransformerEncoderBlock.attention b in
  TransformerEncoderBlock.mk
    (AttentionHead.mk
       (AttentionHead.d_k h) (AttentionHead.seq_len h)
       (AttentionHead.query_layer h) (AttentionHead.key_layer h)
       (AttentionHead.value_layer h)
       (set_rel_layer r (AttentionHead.scaled_dot_attention h))
       (AttentionHead.fc_out h))
    (TransformerEncoderBlock.norm1 b) (TransformerEncoderBlock.norm2 b)
    (TransformerEncoderBlock.ffn b) (TransformerEncoderBlock.dropout b).

Fixpoint set_rel_layers (rs : list tensor3)
         (layers : list TransformerEncoderBlock.t)
  : list TransformerEncoderBlock.t :=
  match layers, rs with
  | b :: layers', r :: rs' => block_set_rel_layer r b :: set_rel_layers rs' layers'
  | _, _ => layers
  end.

Definition with_rel_layers (rs : list tensor3) (m : Transformer.t)
  : Transformer.t :=
  Transformer.mk (Transformer.positional_encoding m) (Transformer.embedding m)
    (Transformer.pos_encoder m)
    (set_rel_layers rs (Transformer.encoder_layers m)) (Transformer.fc_out m).

(** The two positional strategies of a model built with the constructor
    argument [pe], sequence length [L] and width [d]. *)
Definition exclusive_contract (pe : option (nat -> nat -> M PosEncoder))
           (L d : nat) (m : Transformer.t) : Prop :=
  (* every block carries the same flag, set exactly when [pe] is given *)
  Forall (fun b => block_flag b = match pe with None => false | Some _ => true end)
         (Transformer.encoder_layers m) /\
  (* the absolute encoder exists exactly when [pe] is given *)
  Transformer.positional_encoding m = pe /\
  (pe = None <-> Transformer.pos_encoder m = None) /\
  (* absolute: the result does not depend on any relative bias *)
  (pe <> None ->
   forall rs x g, Transformer.forward (with_rel_layers rs m) x g
                  = Transformer.forward m x g) /\
  (* relative: the unit of every block adds its own bias to the scores *)
  (pe = None ->
   Forall (fun b =>
             forall B dv q k v, (0 < dv)%nat ->
               shape3 q = Some (B, L, d) -> shape3 k = Some (B, L, d) ->
               shape3 v = Some (B, L, dv) ->
               attention_contract (block_unit b)
                 (biased_score (block_unit b) q k) q k v B L dv)
          (Transformer.encoder_layers m)).

(** A unit with an active relative bias on sequences of length 2, a value
    tensor and the permutation that swaps the two positions. *)
Definition bias_unit : ScaledDotProductAttention.t :=
  ScaledDotProductAttention.mk 1 2 false [[[0; 1]; [0; 0]]].

Definition one_hot_values : tensor3 := [[[1]; [0]]].

Definition swap : list nat := [1; 0]%nat.

(** What one generated series looks like, in terms of the draws of the
    generator [g] it was sampled from: the first jump index, the noise of the
    first jump and the noise of the k-th later jump are consecutive draws. *)
Definition series_contract (seq_len : nat) (g : rng) (s : list R) : Prop :=
  let first_jump := (nats g (cursor g) mod TimeSeriesDataset.val)%nat in
  let val := TimeSeriesDataset.val in
  length s = (seq_len + 1)%nat /\
  (first_jump < val)%nat /\
  (forall i, (i < first_jump)%nat -> nth i s 0 = 0) /\
  nth first_jump s 0
    = 0 + (TimeSeriesDataset.initial_jump + reals g (cursor g + 1)) /\
  (forall k, (1 <= k)%nat -> (first_jump + k * val <= seq_len)%nat ->
     nth (first_jump + k * val) s 0
     = 0 + (TimeSeriesDataset.jump_at (first_jump + k * val)
            + reals g (cursor g + 1 + k))) /\
  (forall i, (TimeSeriesDataset.jump_at i = 0 /\
              TimeSeriesDataset.jump_at (i + val) = TimeSeriesDataset.initial_jump)
             \/
             (TimeSeriesDataset.jump_at i = TimeSeriesDataset.initial_jump /\
              TimeSeriesDataset.jump_at (i + val) = 0)) /\
  (forall i, (first_jump < i)%nat -> ((i - first_jump) mod val <> 0)%nat ->
     nth i s 0 = 0).

(** Two states of one generator: the same future draws, the cursor moved. *)
Definition same_draws (g g' : rng) : Prop :=
  reals g' = reals g /\ nats g' = nats g /\ bools g' = bools g /\
  (cursor g <= cursor g')%nat.

(** What the dataset built from the generator [g] holds and returns. *)
Definition dataset_contract (seq_len num_samples : nat) (g : rng)
           (ds : TimeSeriesDataset.t) : Prop :=
  TimeSeriesDataset.len ds = num_samples /\
  Forall (fun s => exists g0, same_draws g g0 /\ series_contract seq_len g0 s)
         (TimeSeriesDataset.data ds) /\
  (forall idx, (idx < num_samples)%nat ->
     exists s, nth_error (TimeSeriesDataset.data ds) idx = Some s /\
               length s = (seq_len + 1)%nat /\
               TimeSeriesDataset.getitem ds idx
                 = Ok (firstn seq_len s, nth seq_len s 0)).

(** The relative bias of block [i], [blk], in the model object: a plain
    tensor attribute of shape (1, L, L), under no parameter name and no
    saved name, and untouched by an update of the parameters. *)
Definition bias_unregistered (L : nat) (m : Transformer.t) (i : nat)
           (blk : TransformerEncoderBlock.t) : Prop :=
  let bias := ScaledDotProductAttention.rel_layer (block_unit blk) in
  is_tensor 1 L L bias /\
  get_path (rel_path i) (Transformer_module m) = Some (ATensor (T3 bias)) /\
  ~ In (rel_path i) (map fst (named_parameters [] (Transformer_module m))) /\
  ~ In (rel_path i) (map fst (state_dict (Transformer_module m))) /\
  (forall f,
     get_path (rel_path i) (update_parameters f [] (Transformer_module m))
     = Some (ATensor (T3 bias))).

(** A generator for the examples: the n-th draws are n, n and (n even). *)
Definition example_rng : rng := mk_rng INR (fun n => n) Nat.even 0.

(** ** Vocabulary of the further properties *)

(** The scaled score when the unit's [d_k] and the feature width [d] of the
    inputs are told apart: the sum runs over the width, the divisor comes
    from the unit. *)
Definition score_scaled (dk d : nat) (q k : tensor3) (b i j : nat) : R :=
  bigsum d (fun c => get3 q b i c * get3 k b j c) / sqrt (INR dk).

(** The key axis (the columns) of a weight tensor permuted. *)
Definition permute_key_axis (p : list nat) (w : tensor3) : tensor3 :=
  map (permute_cols p) w.


(** [model.eval()]: evaluation mode switches the training flag of every
    submodule off; among the modules of the stacked model only the dropout
    consults it. *)
Definition Dropout_eval (d : Dropout.t) : Dropout.t :=
  Dropout.mk (Dropout.p d) false.

Definition TransformerEncoderBlock_eval (b : TransformerEncoderBlock.t)
  : TransformerEncoderBlock.t :=
  TransformerEncoderBlock.mk
    (TransformerEncoderBlock.attention b) (TransformerEncoderBlock.norm1 b)
    (TransformerEncoderBlock.norm2 b) (TransformerEncoderBlock.ffn b)
    (Dropout_eval (TransformerEncoderBlock.dropout b)).

Definition Transformer_eval (m : Transformer.t) : Transformer.t :=
  Transformer.mk
    (Transformer.positional_encoding m) (Transformer.embedding m)
    (Transformer.pos_encoder m)
    (map TransformerEncoderBlock_eval (Transformer.encoder_layers m))
    (Transformer.fc_out m).

(** What an encoder block computes in evaluation mode, where the dropout is
    the identity: the block output and the attention weights. *)
Definition block_eval_value (blk : TransformerEncoderBlock.t) (x : tensor3)
  : tensor3 * tensor3 :=
  let h := TransformerEncoderBlock.attention blk in
  let Q := map (map (Linear.forward1 (AttentionHead.query_layer h))) x in
  let K := map (map (Linear.forward1 (AttentionHead.key_layer h))) x in
  let V := map (map (Linear.forward1 (AttentionHead.value_layer h))) x in
  let W := softmax (scores_of (AttentionHead.scaled_dot_attention h) Q K) in
  let a := map (map (Linear.forward1 (AttentionHead.fc_out h)))
               (zip_with matmul2 W V) in
  let x1 := map (map (LayerNorm.forward1 (TransformerEncoderBlock.norm1 blk)))
                (plus3 x a) in
  let f := map (map (Linear.forward1 (snd (TransformerEncoderBlock.ffn blk))))
               (relu (map (map (Linear.forward1
                                  (fst (TransformerEncoderBlock.ffn blk)))) x1)) in
  (map (map (LayerNorm.forward1 (TransformerEncoderBlock.norm2 blk)))
       (plus3 x1 f), W).

(** The generator after [k] further draws. *)
Definition skip (k : nat) (g : rng) : rng :=
  mk_rng (reals g) (nats g) (bools g) (cursor g + k).

(** The path of the sine/cosine table in the model object, [pos_encoder.pe]. *)
Definition pe_path : list key := [Name "pos_encoder"; Name "pe"].

(** A computation that reads nothing from the generator and leaves it as it
    found it: it is a plain result. *)
Definition draws_nothing {A : Type} (m : M A) : Prop :=
  exists r : result A, forall g, m g = lift r g.

(** A dropout probability outside [0, 1]. *)
Definition bad_probability (p : Q) : Prop :=
  Qle_bool 0 p && Qle_bool p 1 = false.

(** ** The plot of the attention weights

    [visualize_attention] takes the weights of the last layer for the first
    batch element, rescales them to the unit interval and plots their mean
    over the query axis. *)

(** [np.min] and [np.max] over all entries. *)
Definition np_min (a : mat) : R :=
  fold_right Rmin (hd 0 (concat a)) (concat a).

Definition np_max (a : mat) : R :=
  fold_right Rmax (hd 0 (concat a)) (concat a).

(** [attention_weights[-1][0]]. *)
Definition last_layer_weights (all_attention_weights : list tensor3)
  : result mat :=
  match rev all_attention_weights with
  | [] => Raise IndexError
  | w :: _ => match w with
              | [] => Raise IndexError
              | a :: _ => Ok a
              end
  end.

(** [(a - np.min(a)) / (np.max(a) - np.min(a))].  When all entries are equal
    every entry is 0/0, which the array library evaluates to NaN without
    raising: [None] stands for that array of NaN. *)
Definition normalized_attention_weights (a : mat) : option mat :=
  if Req_dec_T (np_max a) (np_min a) then None
  else Some (map (map (fun x => (x - np_min a) / (np_max a - np_min a))) a).

(** [a.mean(axis=0)]: the mean of every column. *)
Definition mean_axis0 (a : mat) : vec :=
  map (fun j => sum (col j a) / INR (length a)) (seq 0 (length (hd [] a))).

(** * Properties *)

(** ** Lists and sums *)

Lemma length_zip_with {A B C} (f : A -> B -> C) xs ys :
  length (zip_with f xs ys) = Nat.min (length xs) (length ys).
Proof.
  revert ys; induction xs as [|x xs IH]; intros [|y ys]; simpl; auto.
Qed.

Lemma nth_zip_with {A B C} (f : A -> B -> C) xs ys i dx dy dz :
  (i < length xs)%nat -> (i < length ys)%nat ->
  nth i (zip_with f xs ys) dz = f (nth i xs dx) (nth i ys dy).
Proof.
  revert ys i; induction xs as [|x xs IH]; intros [|y ys] [|i]; simpl;
    intros; try lia; auto.
  apply IH; lia.
Qed.

Lemma bmap2_same_length {A B C} (f : A -> B -> C) xs ys :
  length xs = length ys -> bmap2 f xs ys = zip_with f xs ys.
Proof. intros H; unfold bmap2; now rewrite H, Nat.eqb_refl. Qed.

Lemma bmap2_single_r {A B C} (f : A -> B -> C) xs y :
  bmap2 f xs [y] = map (fun x => f x y) xs.
Proof.
  unfold bmap2. destruct xs as [|x [|x' xs]]; simpl; auto.
Qed.

Lemma sum_perm l1 l2 : Permutation l1 l2 -> sum l1 = sum l2.
Proof. induction 1; simpl; lra. Qed.

Lemma sum_map_div (l : list R) (s : R) :
  sum (map (fun x => x / s) l) = sum l / s.
Proof. induction l; simpl; [ | rewrite IHl ]; unfold Rdiv; lra. Qed.

Lemma sum_map_ext {A} (f g : A -> R) l :
  (forall x, In x l -> f x = g x) -> sum (map f l) = sum (map g l).
Proof.
  induction l; simpl; intros H; auto.
  rewrite IHl, (H a); auto.
Qed.

Lemma nth_map_in {A B} (f : A -> B) l i d d' :
  (i < length l)%nat -> nth i (map f l) d = f (nth i l d').
Proof.
  revert i; induction l as [|x l IH]; intros [|i]; simpl; intros; try lia; auto.
  apply IH; lia.
Qed.

Lemma map_nth_seq {A} (l : list A) d :
  map (fun i => nth i l d) (seq 0 (length l)) = l.
Proof.
  apply nth_ext with (d := d) (d' := d).
  - now rewrite length_map, length_seq.
  - intros i Hi. rewrite length_map, length_seq in Hi.
    rewrite (nth_map_in _ _ _ _ 0%nat) by now rewrite length_seq.
    now rewrite seq_nth.
Qed.

Lemma sum_bigsum l : sum l = bigsum (length l) (fun i => nth i l 0).
Proof. unfold bigsum. now rewrite map_nth_seq. Qed.

Lemma bigsum_ext n f g :
  (forall i, (i < n)%nat -> f i = g i) -> bigsum n f = bigsum n g.
Proof.
  intros H. apply sum_map_ext. intros i Hi. apply in_seq in Hi. apply H; lia.
Qed.

Lemma sum_exp_pos l : l <> [] -> 0 < sum (map exp l).
Proof.
  induction l as [|x [|y l] IH]; intros H; [congruence | |].
  - simpl. pose proof (exp_pos x). lra.
  - change (0 < exp x + sum (map exp (y :: l))).
    pose proof (exp_pos x). assert (0 < sum (map exp (y :: l))) by (apply IH; congruence).
    lra.
Qed.

Lemma dot_bigsum u v n :
  length u = n -> length v = n ->
  dot u v = bigsum n (fun c => nth c u 0 * nth c v 0).
Proof.
  intros Hu Hv. unfold dot. rewrite sum_bigsum.
  rewrite length_map, length_combine, Hu, Hv, Nat.min_id.
  apply bigsum_ext. intros i Hi.
  rewrite (nth_map_in _ _ _ _ (0, 0)) by (rewrite length_combine; lia).
  rewrite combine_nth by lia. reflexivity.
Qed.

(** ** Shapes *)

Lemma shape2_is_mat m n k : shape2 m = Some (n, k) -> is_mat n k m.
Proof.
  destruct m as [|r rs]; simpl.
  - intros H; inversion H; split; auto.
  - destruct (forallb (fun r' => length r' =? length r)%nat rs) eqn:E;
      intros H; inversion H; subst; clear H.
    split; auto. constructor; auto.
    rewrite forallb_forall in E. apply Forall_forall. intros x Hx.
    apply E in Hx. now apply Nat.eqb_eq in Hx.
Qed.

Lemma is_mat_shape2 m n k : is_mat n k m -> (0 < n)%nat -> shape2 m = Some (n, k).
Proof.
  intros [Hl Hr] Hn. destruct m as [|r rs]; simpl in *; [lia|].
  inversion Hr as [|? ? Hr1 Hr2]; subst.
  replace (forallb (fun r' => length r' =? length r)%nat rs) with true; auto.
  symmetry. apply forallb_forall. intros x Hx. apply Nat.eqb_eq.
  rewrite Forall_forall in Hr2. now apply Hr2.
Qed.

Lemma same_shape2_is_mat n k m : same_shape2 (n, k) m = true -> is_mat n k m.
Proof.
  unfold same_shape2. destruct (shape2 m) as [[n' k']|] eqn:E; try discriminate.
  simpl. intros H. apply andb_true_iff in H as [H1 H2].
  apply Nat.eqb_eq in H1, H2. subst. now apply shape2_is_mat.
Qed.

Lemma shape3_is_tensor t b n k : shape3 t = Some (b, n, k) -> is_tensor b n k t.
Proof.
  destruct t as [|m ms]; simpl.
  - intros H; inversion H; split; auto.
  - destruct (shape2 m) as [[n' k']|] eqn:E; try discriminate.
    destruct (forallb (same_shape2 (n', k')) ms) eqn:F;
      intros H; inversion H; subst; clear H.
    split; auto. constructor.
    + now apply shape2_is_mat.
    + rewrite forallb_forall in F. apply Forall_forall. intros x Hx.
      now apply same_shape2_is_mat, F.
Qed.

Lemma is_tensor_shape3 t b n k :
  is_tensor b n k t -> (0 < b)%nat -> (0 < n)%nat -> shape3 t = Some (b, n, k).
Proof.
  intros [Hl Hm] Hb Hn. destruct t as [|m ms]; simpl in *; [lia|].
  inversion Hm as [|? ? Hm1 Hm2]; subst.
  rewrite (is_mat_shape2 _ _ _ Hm1 Hn).
  replace (forallb (same_shape2 (n, k)) ms) with true; auto.
  symmetry. apply forallb_forall. intros x Hx.
  rewrite Forall_forall in Hm2. unfold same_shape2.
  rewrite (is_mat_shape2 _ _ _ (Hm2 _ Hx) Hn). simpl.
  now rewrite !Nat.eqb_refl.
Qed.

Lemma shape3_pos t b n k :
  shape3 t = Some (b, n, k) -> (0 < k)%nat -> (0 < b)%nat /\ (0 < n)%nat.
Proof.
  destruct t as [|m ms]; simpl.
  - intros H; inversion H; lia.
  - destruct (shape2 m) as [[n' k']|] eqn:E; try discriminate.
    destruct (forallb (same_shape2 (n', k')) ms);
      intros H; inversion H; subst; clear H.
    intros Hk. split; [lia|].
    destruct m as [|r rs]; simpl in E.
    + inversion E; lia.
    + destruct (forallb (fun r' => length r' =? length r)%nat rs);
        inversion E; lia.
Qed.

Lemma is_mat_nth n k m i :
  is_mat n k m -> (i < n)%nat -> length (nth i m []) = k.
Proof.
  intros [Hl Hr] Hi. rewrite Forall_forall in Hr. apply Hr, nth_In. lia.
Qed.

Lemma is_tensor_nth b n k t i :
  is_tensor b n k t -> (i < b)%nat -> is_mat n k (nth i t []).
Proof.
  intros [Hl Hr] Hi. rewrite Forall_forall in Hr. apply Hr, nth_In. lia.
Qed.

Lemma is_tensor_map (f : mat -> mat) b n k n' k' t :
  is_tensor b n k t ->
  (forall m, is_mat n k m -> is_mat n' k' (f m)) ->
  is_tensor b n' k' (map f t).
Proof.
  intros [Hl Hr] Hf. split; [now rewrite length_map|].
  apply Forall_map. eapply Forall_impl; [|exact Hr]. auto.
Qed.

Lemma is_mat_map (f : vec -> vec) n k k' m :
  is_mat n k m ->
  (forall r, length r = k -> length (f r) = k') ->
  is_mat n k' (map f m).
Proof.
  intros [Hl Hr] Hf. split; [now rewrite length_map|].
  apply Forall_map. eapply Forall_impl; [|exact Hr]. auto.
Qed.

Lemma is_tensor_zip_with (f : mat -> mat -> mat) b n k n2 k2 n' k' t1 t2 :
  is_tensor b n k t1 -> is_tensor b n2 k2 t2 ->
  (forall m1 m2, is_mat n k m1 -> is_mat n2 k2 m2 -> is_mat n' k' (f m1 m2)) ->
  is_tensor b n' k' (zip_with f t1 t2).
Proof.
  intros [Hl1 Hr1] [Hl2 Hr2] Hf. split.
  - rewrite length_zip_with. lia.
  - clear Hl1 Hl2. revert t2 Hr2.
    induction Hr1 as [|m1 t1 H1 _ IH]; intros [|m2 t2] Hr2; simpl; auto.
    inversion Hr2; subst. constructor; auto.
Qed.

(** ** Matrix primitives *)

Lemma length_hd_is_mat n k m : is_mat n k m -> (0 < n)%nat -> length (hd [] m) = k.
Proof.
  intros [Hl Hr] Hn. destruct m; simpl in *; [lia|]. now inversion Hr.
Qed.

Lemma nth_col j m i :
  (i < length m)%nat -> nth i (col j m) 0 = nth j (nth i m []) 0.
Proof. intros Hi. unfold col. now rewrite (nth_map_in _ _ _ _ []). Qed.

Lemma nth_transpose2 n k m j :
  is_mat n k m -> (0 < n)%nat -> (j < k)%nat -> nth j (transpose2 m) [] = col j m.
Proof.
  intros Hm Hn Hj. unfold transpose2.
  rewrite (nth_map_in _ _ _ _ 0%nat) by (rewrite length_seq, (length_hd_is_mat n k); auto).
  rewrite seq_nth; auto. now rewrite (length_hd_is_mat n k).
Qed.

Lemma transpose2_is_mat n k m :
  is_mat n k m -> (0 < n)%nat -> is_mat k n (transpose2 m).
Proof.
  intros Hm Hn. unfold transpose2. split.
  - now rewrite length_map, length_seq, (length_hd_is_mat n k).
  - apply Forall_map, Forall_forall. intros j _. unfold col.
    rewrite length_map. apply Hm.
Qed.

Lemma matmul2_is_mat n m p a b :
  is_mat n m a -> is_mat m p b -> (0 < m)%nat -> is_mat n p (matmul2 a b).
Proof.
  intros Ha Hb Hm. unfold matmul2. apply (is_mat_map _ n m); auto.
  intros r _. rewrite length_map. apply (transpose2_is_mat m p); auto.
Qed.

Lemma get2_matmul2 n m p a b i j :
  is_mat n m a -> is_mat m p b -> (0 < m)%nat -> (i < n)%nat -> (j < p)%nat ->
  get2 (matmul2 a b) i j = bigsum m (fun c => get2 a i c * get2 b c j).
Proof.
  intros Ha Hb Hm Hi Hj. unfold get2, get1, matmul2.
  pose proof (transpose2_is_mat _ _ _ Hb Hm) as [Htl Htr].
  rewrite (nth_map_in _ _ _ _ []) by (destruct Ha; lia).
  rewrite (nth_map_in _ _ _ _ []) by lia.
  rewrite (nth_transpose2 m p) by auto.
  rewrite (dot_bigsum _ _ m).
  - apply bigsum_ext. intros c Hc. rewrite nth_col; auto. destruct Hb; lia.
  - now apply (is_mat_nth n m).
  - unfold col. rewrite length_map. apply Hb.
Qed.

Lemma matmul_ok B n m p a b :
  is_tensor B n m a -> is_tensor B m p b ->
  (0 < B)%nat -> (0 < n)%nat -> (0 < m)%nat ->
  matmul a b = Ok (zip_with matmul2 a b).
Proof.
  intros Ha Hb HB Hn Hm. unfold matmul.
  rewrite (is_tensor_shape3 _ _ _ _ Ha), (is_tensor_shape3 _ _ _ _ Hb); auto.
  unfold broadcastable. rewrite !Nat.eqb_refl. simpl.
  rewrite bmap2_same_length; auto. destruct Ha, Hb; lia.
Qed.

Lemma matmul_is_tensor B n m p a b :
  is_tensor B n m a -> is_tensor B m p b -> (0 < m)%nat ->
  is_tensor B n p (zip_with matmul2 a b).
Proof.
  intros Ha Hb Hm. apply (is_tensor_zip_with _ B n m m p); auto.
  intros. now apply (matmul2_is_mat n m p).
Qed.

Lemma get3_matmul B n m p a b bi i j :
  is_tensor B n m a -> is_tensor B m p b -> (0 < m)%nat ->
  (bi < B)%nat -> (i < n)%nat -> (j < p)%nat ->
  get3 (zip_with matmul2 a b) bi i j =
  bigsum m (fun c => get3 a bi i c * get3 b bi c j).
Proof.
  intros Ha Hb Hm Hbi Hi Hj. unfold get3.
  rewrite (nth_zip_with _ _ _ _ [] []) by (destruct Ha, Hb; lia).
  apply (get2_matmul2 n m p); auto; now apply (is_tensor_nth B).
Qed.

Lemma transpose_is_tensor B n k t :
  is_tensor B n k t -> (0 < n)%nat -> is_tensor B k n (transpose t).
Proof.
  intros Ht Hn. apply (is_tensor_map _ B n k); auto.
  intros. now apply transpose2_is_mat.
Qed.

Lemma get3_transpose B n k t b i j :
  is_tensor B n k t -> (0 < n)%nat -> (b < B)%nat -> (i < n)%nat -> (j < k)%nat ->
  get3 (transpose t) b j i = get3 t b i j.
Proof.
  intros Ht Hn Hb Hi Hj. unfold get3, get2, get1, transpose.
  rewrite (nth_map_in _ _ _ _ []) by (destruct Ht; lia).
  pose proof (is_tensor_nth _ _ _ _ _ Ht Hb) as Hm.
  rewrite (nth_transpose2 n k) by auto. apply nth_col. destruct Hm; lia.
Qed.

(** ** Elementwise maps and softmax *)

Lemma get3_map3 (f : R -> R) B n k t b i j :
  is_tensor B n k t -> (b < B)%nat -> (i < n)%nat -> (j < k)%nat ->
  get3 (map (map (map f)) t) b i j = f (get3 t b i j).
Proof.
  intros Ht Hb Hi Hj. unfold get3, get2, get1.
  pose proof (is_tensor_nth _ _ _ _ _ Ht Hb) as Hm.
  pose proof (is_mat_nth _ _ _ _ Hm Hi) as Hr.
  rewrite (nth_map_in _ _ _ _ []) by (destruct Ht; lia).
  rewrite (nth_map_in _ _ _ _ []) by (destruct Hm; lia).
  rewrite (nth_map_in _ _ _ _ 0) by lia. reflexivity.
Qed.

Lemma map3_is_tensor (f : R -> R) B n k t :
  is_tensor B n k t -> is_tensor B n k (map (map (map f)) t).
Proof.
  intros Ht. apply (is_tensor_map _ B n k); auto.
  intros m Hm. apply (is_mat_map _ n k); auto.
  intros r Hr. now rewrite length_map.
Qed.

Lemma length_softmax_row r : length (softmax_row r) = length r.
Proof. unfold softmax_row. now rewrite !length_map. Qed.

Lemma nth_softmax_row r j :
  (j < length r)%nat ->
  nth j (softmax_row r) 0 =
  exp (nth j r 0) / bigsum (length r) (fun j' => exp (nth j' r 0)).
Proof.
  intros Hj. unfold softmax_row.
  rewrite (nth_map_in _ _ _ _ 0) by now rewrite length_map.
  rewrite (nth_map_in _ _ _ _ 0) by auto.
  f_equal. rewrite sum_bigsum, length_map.
  apply bigsum_ext. intros i Hi. now rewrite (nth_map_in _ _ _ _ 0).
Qed.

Lemma sum_softmax_row r : r <> [] -> sum (softmax_row r) = 1.
Proof.
  intros Hr. unfold softmax_row. rewrite sum_map_div.
  pose proof (sum_exp_pos r Hr). field. lra.
Qed.

Lemma softmax_is_tensor B n k t : is_tensor B n k t -> is_tensor B n k (softmax t).
Proof.
  intros Ht. apply (is_tensor_map _ B n k); auto.
  intros m Hm. apply (is_mat_map _ n k); auto.
  intros r Hr. now rewrite length_softmax_row.
Qed.

Lemma get3_softmax B n k t b i j :
  is_tensor B n k t -> (b < B)%nat -> (i < n)%nat -> (j < k)%nat ->
  get3 (softmax t) b i j = attention_weight (get3 t) k b i j.
Proof.
  intros Ht Hb Hi Hj. unfold get3, get2, get1, softmax, attention_weight.
  pose proof (is_tensor_nth _ _ _ _ _ Ht Hb) as Hm.
  pose proof (is_mat_nth _ _ _ _ Hm Hi) as Hr.
  rewrite (nth_map_in _ _ _ _ []) by (destruct Ht; lia).
  rewrite (nth_map_in _ _ _ _ []) by (destruct Hm; lia).
  rewrite nth_softmax_row by lia. now rewrite Hr.
Qed.

Lemma attention_weight_ext s s' L b i j :
  (forall j', (j' < L)%nat -> s b i j' = s' b i j') -> (j < L)%nat ->
  attention_weight s L b i j = attention_weight s' L b i j.
Proof.
  intros H Hj. unfold attention_weight. rewrite (H j Hj). f_equal.
  apply bigsum_ext. intros j' Hj'. now rewrite H.
Qed.

(** Every row of a softmax over nonempty rows sums to 1. *)
Lemma softmax_rows_sum t :
  Forall (Forall (fun r => r <> [])) t ->
  Forall (Forall (fun r => sum r = 1)) (softmax t).
Proof.
  intros H. unfold softmax. apply Forall_map. eapply Forall_impl; [|exact H].
  intros m Hm. apply Forall_map. eapply Forall_impl; [|exact Hm].
  intros r Hr. now apply sum_softmax_row.
Qed.

Lemma softmax_row_stochastic B n k t :
  is_tensor B n k t -> (0 < k)%nat -> row_stochastic (softmax t).
Proof.
  intros [_ Ht] Hk. apply softmax_rows_sum.
  eapply Forall_impl; [|exact Ht]. intros m [_ Hm].
  eapply Forall_impl; [|exact Hm]. intros r Hr ->. simpl in Hr. lia.
Qed.

(** ** Scores *)

Lemma raw_scores_is_tensor B L d q k :
  is_tensor B L d q -> is_tensor B L d k -> (0 < L)%nat -> (0 < d)%nat ->
  is_tensor B L L (raw_scores d q k).
Proof.
  intros Hq Hk HL Hd. unfold raw_scores, div_scalar. apply map3_is_tensor.
  apply (matmul_is_tensor B L d L); auto. now apply transpose_is_tensor.
Qed.

Lemma get3_raw_scores B L d q k b i j :
  is_tensor B L d q -> is_tensor B L d k -> (0 < L)%nat -> (0 < d)%nat ->
  (b < B)%nat -> (i < L)%nat -> (j < L)%nat ->
  get3 (raw_scores d q k) b i j = score d q k b i j.
Proof.
  intros Hq Hk HL Hd Hb Hi Hj. unfold raw_scores, div_scalar, score.
  pose proof (transpose_is_tensor _ _ _ _ Hk HL) as Ht.
  rewrite (get3_map3 _ B L L) by (auto; apply (matmul_is_tensor B L d L); auto).
  f_equal. rewrite (get3_matmul B L d L) by auto.
  apply bigsum_ext. intros c Hc. f_equal.
  now apply (get3_transpose B L d).
Qed.

Lemma zip_with_ext_in {A B C} (f g : A -> B -> C) xs ys :
  (forall x y, In x xs -> In y ys -> f x y = g x y) ->
  zip_with f xs ys = zip_with g xs ys.
Proof.
  revert ys; induction xs as [|x xs IH]; intros [|y ys] H; simpl; auto.
  rewrite H by (simpl; auto). f_equal. apply IH. intros; apply H; simpl; auto.
Qed.

Lemma add_bias_ok B L s rel :
  is_tensor B L L s -> is_tensor 1 L L rel -> (0 < B)%nat -> (0 < L)%nat ->
  add s rel = Ok (biased s rel).
Proof.
  intros Hs Hr HB HL. unfold add.
  rewrite (is_tensor_shape3 _ _ _ _ Hs), (is_tensor_shape3 _ _ _ _ Hr); auto.
  unfold broadcastable. rewrite !Nat.eqb_refl. simpl. rewrite !orb_true_r. simpl.
  f_equal. destruct Hr as [Hl Hr]. destruct rel as [|r [|? ?]]; try discriminate.
  rewrite bmap2_single_r. unfold biased. simpl.
  inversion Hr as [|? ? Hr0 _]; subst.
  apply map_ext_in. intros m Hm.
  destruct Hs as [_ Hs]. rewrite Forall_forall in Hs. specialize (Hs m Hm).
  rewrite bmap2_same_length by (destruct Hs, Hr0; lia).
  apply zip_with_ext_in. intros x y Hx Hy.
  apply bmap2_same_length.
  destruct Hs as [_ Hs], Hr0 as [_ Hr0]. rewrite Forall_forall in Hs, Hr0.
  rewrite (Hs x Hx), (Hr0 y Hy). reflexivity.
Qed.

Lemma biased_is_tensor B L s rel :
  is_tensor B L L s -> is_tensor 1 L L rel -> is_tensor B L L (biased s rel).
Proof.
  intros Hs [Hl Hr]. destruct rel as [|r [|? ?]]; try discriminate.
  inversion Hr as [|? ? Hr0 _]; subst. unfold biased. simpl.
  apply (is_tensor_map _ B L L); auto.
  intros m [Hml Hmr]. destruct Hr0 as [Hrl Hrr]. split.
  - rewrite length_zip_with. lia.
  - clear Hml Hrl Hl Hr. revert r Hrr.
    induction Hmr as [|x m Hx _ IH]; intros [|y r] Hrr; simpl; auto.
    inversion Hrr; subst. constructor; auto. rewrite length_zip_with. lia.
Qed.

Lemma get3_biased B L s rel b i j :
  is_tensor B L L s -> is_tensor 1 L L rel ->
  (b < B)%nat -> (i < L)%nat -> (j < L)%nat ->
  get3 (biased s rel) b i j = get3 s b i j + get3 rel 0 i j.
Proof.
  intros Hs Hr Hb Hi Hj. unfold get3, get2, get1, biased.
  pose proof (is_tensor_nth _ _ _ _ _ Hs Hb) as Hm.
  assert (H0 : (0 < 1)%nat) by lia.
  pose proof (is_tensor_nth _ _ _ _ _ Hr H0) as Hr0.
  replace (hd [] rel) with (nth 0 rel []) by (destruct rel; auto).
  rewrite (nth_map_in _ _ _ _ []) by (destruct Hs; lia).
  rewrite (nth_zip_with _ _ _ _ [] []) by (destruct Hm, Hr0; lia).
  rewrite (nth_zip_with _ _ _ _ 0 0); auto.
  - rewrite (is_mat_nth L L); auto.
  - rewrite (is_mat_nth L L); auto.
Qed.

(** ** The attention unit *)

Import ScaledDotProductAttention.

Lemma scores_of_is_tensor self B L q k :
  is_tensor B L (d_k self) q -> is_tensor B L (d_k self) k ->
  (0 < L)%nat -> (0 < d_k self)%nat -> bias_ready self L ->
  is_tensor B L L (scores_of self q k).
Proof.
  intros Hq Hk HL Hd Hrel. unfold scores_of.
  pose proof (raw_scores_is_tensor _ _ _ _ _ Hq Hk HL Hd).
  destruct (other_positional_encodings_present self) eqn:E; auto.
  apply biased_is_tensor; auto.
Qed.

Lemma forward_eq self B L dv q k v :
  is_tensor B L (d_k self) q -> is_tensor B L (d_k self) k ->
  is_tensor B L dv v ->
  (0 < B)%nat -> (0 < L)%nat -> (0 < d_k self)%nat -> bias_ready self L ->
  forward self q k v =
  Ok (zip_with matmul2 (softmax (scores_of self q k)) v,
      softmax (scores_of self q k)).
Proof.
  intros Hq Hk Hv HB HL Hd Hrel. unfold forward.
  rewrite (matmul_ok B L (d_k self) L) by (auto; now apply transpose_is_tensor).
  cbn [rbind]. fold (raw_scores (d_k self) q k).
  pose proof (raw_scores_is_tensor _ _ _ _ _ Hq Hk HL Hd) as Hs.
  pose proof (scores_of_is_tensor _ _ _ _ _ Hq Hk HL Hd Hrel) as Hs'.
  unfold scores_of in *.
  destruct (other_positional_encodings_present self) eqn:E; cbn [negb rbind].
  - rewrite (matmul_ok B L L dv); auto. now apply softmax_is_tensor.
  - rewrite (add_bias_ok B L) by auto. cbn [rbind].
    rewrite (matmul_ok B L L dv); auto. now apply softmax_is_tensor.
Qed.

Lemma get3_scores_of self B L q k b i j :
  is_tensor B L (d_k self) q -> is_tensor B L (d_k self) k ->
  (0 < L)%nat -> (0 < d_k self)%nat -> bias_ready self L ->
  (b < B)%nat -> (i < L)%nat -> (j < L)%nat ->
  get3 (scores_of self q k) b i j =
  if other_positional_encodings_present self
  then score (d_k self) q k b i j
  else biased_score self q k b i j.
Proof.
  intros Hq Hk HL Hd Hrel Hb Hi Hj. unfold scores_of, biased_score.
  pose proof (raw_scores_is_tensor _ _ _ _ _ Hq Hk HL Hd) as Hs.
  destruct (other_positional_encodings_present self) eqn:E.
  - now apply (get3_raw_scores B L).
  - rewrite (get3_biased B L) by auto. f_equal. now apply (get3_raw_scores B L).
Qed.

Lemma attention_contract_holds self B L dv q k v :
  (0 < d_k self)%nat -> (0 < dv)%nat ->
  shape3 q = Some (B, L, d_k self) ->
  shape3 k = Some (B, L, d_k self) ->
  shape3 v = Some (B, L, dv) ->
  bias_ready self L ->
  attention_contract self
    (if other_positional_encodings_present self
     then score (d_k self) q k else biased_score self q k)
    q k v B L dv.
Proof.
  intros Hd Hdv Sq Sk Sv Hrel.
  destruct (shape3_pos _ _ _ _ Sq Hd) as [HB HL].
  apply shape3_is_tensor in Sq, Sk, Sv.
  pose proof (scores_of_is_tensor _ _ _ _ _ Sq Sk HL Hd Hrel) as Hs.
  pose proof (softmax_is_tensor _ _ _ _ Hs) as Hw.
  exists (zip_with matmul2 (softmax (scores_of self q k)) v),
         (softmax (scores_of self q k)).
  split; [now apply (forward_eq self B L dv)|].
  split; [apply is_tensor_shape3; auto; now apply (matmul_is_tensor B L L dv)|].
  split; [now apply is_tensor_shape3|].
  split.
  - intros b i j Hb Hi Hj. rewrite (get3_softmax B L L) by auto.
    apply attention_weight_ext; auto. intros j' Hj'.
    rewrite (get3_scores_of self B L) by auto.
    now destruct (other_positional_encodings_present self).
  - intros b i c Hb Hi Hc. now apply (get3_matmul B L L dv).
Qed.

(** C1: without the relative bias, on inputs of shapes (B, L, d_k),
    (B, L, d_k), (B, L, d_v) the attention unit returns both tensors: the
    weights softmax(Q.K^T / sqrt(d_k)), taken along the last axis and of shape
    (B, L, L), and the output weights.V of shape (B, L, d_v). *)
Theorem attention_unit_returns_softmax_qk_v self B L dv q k v :
  other_positional_encodings_present self = true ->
  (0 < d_k self)%nat -> (0 < dv)%nat ->
  shape3 q = Some (B, L, d_k self) ->
  shape3 k = Some (B, L, d_k self) ->
  shape3 v = Some (B, L, dv) ->
  attention_contract self (score (d_k self) q k) q k v B L dv.
Proof.
  intros Hflag Hd Hdv Sq Sk Sv.
  pose proof (attention_contract_holds self B L dv q k v Hd Hdv Sq Sk Sv) as H.
  rewrite Hflag in H. apply H. intros E. congruence.
Qed.

Lemma attention_unit_returns_softmax_qk_v_witness :
  shape3 (zeros3 2 10 16) = Some (2, 10, 16)%nat /\
  attention_contract (mk 16 10 true []) (score 16 (zeros3 2 10 16) (zeros3 2 10 16))
    (zeros3 2 10 16) (zeros3 2 10 16) (zeros3 2 10 16) 2 10 16.
Proof.
  split; [reflexivity|].
  apply (attention_unit_returns_softmax_qk_v (mk 16 10 true []));
    try reflexivity; simpl; lia.
Defined.

(** ** Computations with random draws *)

Lemma bind_ok {A B} (m : M A) (k : A -> M B) g b g' :
  bind m k g = Ok (b, g') ->
  exists a g1, m g = Ok (a, g1) /\ k a g1 = Ok (b, g').
Proof.
  unfold bind. destruct (m g) as [[a g1]|e]; try discriminate. eauto.
Qed.

Lemma lift_ok {A} (r : result A) g a g' :
  lift r g = Ok (a, g') -> r = Ok a /\ g' = g.
Proof. unfold lift. destruct r; intros H; inversion H; auto. Qed.

Lemma ret_ok {A} (x : A) g a g' : ret x g = Ok (a, g') -> a = x /\ g' = g.
Proof. unfold ret. intros H; inversion H; auto. Qed.

Lemma rbind_ok {A B} (r : result A) (k : A -> result B) b :
  rbind r k = Ok b -> exists a, r = Ok a /\ k a = Ok b.
Proof. destruct r; simpl; try discriminate. eauto. Qed.

Ltac inv_run :=
  repeat match goal with
    | H : bind _ _ _ = Ok _ |- _ =>
        let a := fresh "a" in let g := fresh "g" in
        let H1 := fresh "Hrun" in
        apply bind_ok in H; destruct H as (a & g & H1 & H)
    | H : lift _ _ = Ok _ |- _ => apply lift_ok in H; destruct H as [H ?]; subst
    | H : ret _ _ = Ok _ |- _ => apply ret_ok in H; destruct H as [? ?]; subst
    | H : rbind _ _ = Ok _ |- _ =>
        let a := fresh "a" in let H1 := fresh "Hrun" in
        apply rbind_ok in H; destruct H as (a & H1 & H)
    end.

Lemma replicateM_ok {A} (P : A -> Prop) (m : M A) n :
  (forall g a g', m g = Ok (a, g') -> P a) ->
  forall g l g', replicateM n m g = Ok (l, g') -> length l = n /\ Forall P l.
Proof.
  intros Hm. induction n as [|n IH]; simpl; intros g l g' H.
  - inv_run. split; auto.
  - inv_run. destruct (IH _ _ _ Hrun0) as [Hl Hf]. simpl. split; eauto.
Qed.

Lemma replicateM_total {A} (m : M A) n :
  (forall g, exists a g', m g = Ok (a, g')) ->
  forall g, exists l g', replicateM n m g = Ok (l, g').
Proof.
  intros Hm. induction n as [|n IH]; simpl; intros g.
  - do 2 eexists. reflexivity.
  - destruct (Hm g) as (a & g1 & Ha). destruct (IH g1) as (l & g2 & Hl).
    exists (a :: l), g2. unfold bind. now rewrite Ha, Hl.
Qed.

Lemma mapM_total {A B} (P : A -> B -> Prop) (f : A -> M B) :
  (forall a g, exists b g', f a g = Ok (b, g') /\ P a b) ->
  forall l g, exists l' g', mapM f l g = Ok (l', g') /\ Forall2 P l l'.
Proof.
  intros Hf. induction l as [|a l IH]; simpl; intros g.
  - do 2 eexists. split; [reflexivity | constructor].
  - destruct (Hf a g) as (b & g1 & Hb & HP).
    destruct (IH g1) as (l' & g2 & Hl & HF).
    exists (b :: l'), g2. unfold bind. rewrite Hb, Hl. split; auto.
Qed.

Lemma randn1_ok n g v g' : randn1 n g = Ok (v, g') -> length v = n.
Proof.
  intros H. now apply (replicateM_ok (fun _ => True)) in H.
Qed.

Lemma randn2_ok n m g w g' : randn2 n m g = Ok (w, g') -> is_mat n m w.
Proof.
  intros H. apply (replicateM_ok (fun v => length v = m)) in H; auto.
  intros ? ? ?. apply randn1_ok.
Qed.

Lemma randn3_ok b n m g t g' : randn3 b n m g = Ok (t, g') -> is_tensor b n m t.
Proof.
  intros H. apply (replicateM_ok (is_mat n m)) in H; auto.
  intros ? ? ?. apply randn2_ok.
Qed.

(** ** Layers *)

Lemma forallb_rows (P : list R -> bool) B L k (x : tensor3) :
  is_tensor B L k x -> (forall r, length r = k -> P r = true) ->
  forallb (forallb P) x = true.
Proof.
  intros [_ Hx] HP. apply forallb_forall. intros m Hm.
  rewrite Forall_forall in Hx. destruct (Hx m Hm) as [_ Hr].
  apply forallb_forall. intros r Hin. rewrite Forall_forall in Hr. auto.
Qed.

Lemma Linear_init_ok i o g l g' : Linear.init i o g = Ok (l, g') -> wf_linear i o l.
Proof.
  unfold Linear.init. intros H. inv_run. simpl.
  repeat split; auto.
  - eapply randn2_ok; eauto.
  - apply (randn2_ok _ _ _ _ _ Hrun).
  - eapply randn1_ok; eauto.
Qed.

Lemma length_Linear_forward1 i o l x :
  wf_linear i o l -> length (Linear.forward1 l x) = o.
Proof.
  intros (_ & _ & [Hw _] & Hb). unfold Linear.forward1.
  rewrite length_zip_with. lia.
Qed.

Lemma Linear_forward_ok i o l B L x :
  wf_linear i o l -> is_tensor B L i x ->
  Linear.forward l x = Ok (map (map (Linear.forward1 l)) x) /\
  is_tensor B L o (map (map (Linear.forward1 l)) x).
Proof.
  intros Hl Hx. split.
  - unfold Linear.forward. rewrite (forallb_rows _ B L i); auto.
    intros r Hr. unfold Linear.accepts. destruct Hl as (-> & _).
    now apply Nat.eqb_eq.
  - apply (is_tensor_map _ B L i); auto. intros m Hm.
    apply (is_mat_map _ L i); auto. intros r _.
    now apply (length_Linear_forward1 i).
Qed.

Lemma Linear_forward2_ok i o l B x :
  wf_linear i o l -> is_mat B i x ->
  Linear.forward2 l x = Ok (map (Linear.forward1 l) x) /\
  is_mat B o (map (Linear.forward1 l) x).
Proof.
  intros Hl Hx. split.
  - unfold Linear.forward2. replace (forallb (Linear.accepts l) x) with true; auto.
    symmetry. apply forallb_forall. intros r Hr. destruct Hx as [_ Hx].
    rewrite Forall_forall in Hx. unfold Linear.accepts.
    destruct Hl as (-> & _). apply Nat.eqb_eq. auto.
  - apply (is_mat_map _ B i); auto. intros r _.
    now apply (length_Linear_forward1 i).
Qed.

Lemma LayerNorm_init_ok d : wf_layernorm d (LayerNorm.init d).
Proof. unfold LayerNorm.init. repeat split; simpl; apply repeat_length. Qed.

Lemma LayerNorm_forward_ok d l B L x :
  wf_layernorm d l -> is_tensor B L d x ->
  LayerNorm.forward l x = Ok (map (map (LayerNorm.forward1 l)) x) /\
  is_tensor B L d (map (map (LayerNorm.forward1 l)) x).
Proof.
  intros (Hn & Hw & Hb) Hx. split.
  - unfold LayerNorm.forward. rewrite (forallb_rows _ B L d); auto.
    intros r Hr. unfold LayerNorm.accepts. rewrite Hn. now apply Nat.eqb_eq.
  - apply (is_tensor_map _ B L d); auto. intros m Hm.
    apply (is_mat_map _ L d); auto. intros r Hr. unfold LayerNorm.forward1.
    rewrite length_zip_with, length_map, length_combine. lia.
Qed.

Lemma relu_is_tensor B L d x : is_tensor B L d x -> is_tensor B L d (relu x).
Proof. apply map3_is_tensor. Qed.

Lemma Forall2_length_is {A B} (P : A -> B -> Prop) l l' :
  Forall2 P l l' -> length l' = length l.
Proof. induction 1; simpl; auto. Qed.

Lemma Dropout_forward_ok dr B L d x g :
  is_tensor B L d x ->
  exists y g', Dropout.forward dr x g = Ok (y, g') /\ is_tensor B L d y /\
               (Dropout.training dr = false -> y = x /\ g' = g).
Proof.
  intros Hx. unfold Dropout.forward. destruct (Dropout.training dr).
  - destruct (mapM_total
                (fun (m m' : list (list R)) =>
                   Forall2 (fun r r' : list R => length r' = length r) m m')
                (mapM (mapM (Dropout.drop1 dr)))) with (l := x) (g := g)
      as (y & g' & Hy & HF).
    { intros m g0.
      apply (mapM_total (fun r r' : list R => length r' = length r)).
      intros r g1.
      destruct (mapM_total (fun _ _ : R => True) (Dropout.drop1 dr))
        with (l := r) (g := g1) as (r' & g2 & Hr & HF).
      { intros a g2. unfold Dropout.drop1, bind, rand_keep, ret. eauto. }
      exists r', g2. split; auto. eapply Forall2_length_is; eauto. }
    exists y, g'. split; auto. split; [|discriminate].
    destruct Hx as [Hl Hx]. split.
    + rewrite (Forall2_length_is _ _ _ HF). auto.
    + clear Hy Hl. induction HF as [|m m' x y Hm HF IH]; auto.
      inversion Hx as [|? ? [Hml Hmr] Hx']; subst. constructor; auto.
      split.
      * now rewrite (Forall2_length_is _ _ _ Hm).
      * clear IH HF Hx Hx'. induction Hm as [|r r' m m' Hr Hm IH]; auto.
        inversion Hmr; subst. constructor; auto; lia.
  - exists x, g. unfold ret. auto.
Qed.

Lemma add_same_ok B L d a b :
  is_tensor B L d a -> is_tensor B L d b -> (0 < B)%nat -> (0 < L)%nat ->
  add a b = Ok (plus3 a b) /\ is_tensor B L d (plus3 a b).
Proof.
  intros Ha Hb HB HL. unfold plus3. split.
  - unfold add.
    rewrite (is_tensor_shape3 _ _ _ _ Ha), (is_tensor_shape3 _ _ _ _ Hb); auto.
    unfold broadcastable. rewrite !Nat.eqb_refl. simpl. f_equal.
    rewrite bmap2_same_length by (destruct Ha, Hb; lia).
    apply zip_with_ext_in. intros m m' Hm Hm'.
    destruct Ha as [_ Ha], Hb as [_ Hb]. rewrite Forall_forall in Ha, Hb.
    destruct (Ha m Hm) as [Hml Hmr], (Hb m' Hm') as [Hml' Hmr'].
    rewrite bmap2_same_length by lia.
    apply zip_with_ext_in. intros r r' Hr Hr'.
    rewrite Forall_forall in Hmr, Hmr'.
    apply bmap2_same_length. rewrite (Hmr r Hr), (Hmr' r' Hr'). reflexivity.
  - apply (is_tensor_zip_with _ B L d L d); auto.
    intros m m' [Hml Hmr] [Hml' Hmr']. split.
    + rewrite length_zip_with. lia.
    + clear Hml Hml'. revert m' Hmr'.
      induction Hmr as [|r m Hr _ IH]; intros [|r' m'] Hmr'; simpl; auto.
      inversion Hmr'; subst. constructor; auto. rewrite length_zip_with. lia.
Qed.

Lemma SDPA_init_ok L d flag g a g' :
  ScaledDotProductAttention.init L d flag g = Ok (a, g') ->
  wf_attention d L a /\ other_positional_encodings_present a = flag.
Proof.
  unfold ScaledDotProductAttention.init. intros H. inv_run. simpl.
  repeat split; auto; eapply randn3_ok; eauto.
Qed.

Lemma AttentionHead_init_ok d L flag g h g' :
  AttentionHead.init d L flag g = Ok (h, g') ->
  wf_head d L h /\
  other_positional_encodings_present (AttentionHead.scaled_dot_attention h) = flag.
Proof.
  unfold AttentionHead.init. intros H. inv_run. simpl.
  apply Linear_init_ok in Hrun, Hrun0, Hrun1, Hrun3.
  apply SDPA_init_ok in Hrun2 as [? ?].
  unfold wf_head. simpl. tauto.
Qed.

Lemma Block_init_ok d dff L flag p g b g' :
  TransformerEncoderBlock.init d dff L flag p g = Ok (b, g') ->
  wf_block d dff L b /\ block_flag b = flag.
Proof.
  unfold TransformerEncoderBlock.init. intros H. inv_run. simpl.
  apply AttentionHead_init_ok in Hrun as [? ?].
  apply Linear_init_ok in Hrun0, Hrun1.
  pose proof (LayerNorm_init_ok d).
  unfold wf_block, block_flag. simpl. tauto.
Qed.

Lemma wf_attention_bias_ready d L a : wf_attention d L a -> bias_ready a L.
Proof. intros (_ & _ & H) _. exact H. Qed.

Lemma AttentionHead_forward_ok d L h B q k v :
  wf_head d L h ->
  is_tensor B L d q -> is_tensor B L d k -> is_tensor B L d v ->
  (0 < B)%nat -> (0 < L)%nat -> (0 < d)%nat ->
  exists out,
    AttentionHead.forward h q k v =
      Ok (out,
          softmax (scores_of (AttentionHead.scaled_dot_attention h)
                     (map (map (Linear.forward1 (AttentionHead.query_layer h))) q)
                     (map (map (Linear.forward1 (AttentionHead.key_layer h))) k))) /\
    is_tensor B L d out.
Proof.
  intros (Hq & Hk & Hv & Ha & Hfc) Xq Xk Xv HB HL Hd.
  destruct (Linear_forward_ok _ _ _ _ _ _ Hq Xq) as [Eq Tq].
  destruct (Linear_forward_ok _ _ _ _ _ _ Hk Xk) as [Ek Tk].
  destruct (Linear_forward_ok _ _ _ _ _ _ Hv Xv) as [Ev Tv].
  pose proof Ha as (Hdk & _ & _).
  unfold AttentionHead.forward. rewrite Eq, Ek, Ev. cbn [rbind].
  rewrite (forward_eq _ B L d); rewrite ?Hdk; auto.
  2: now apply (wf_attention_bias_ready d).
  cbn [rbind].
  assert (Tw : is_tensor B L L
                 (softmax (scores_of (AttentionHead.scaled_dot_attention h)
                    (map (map (Linear.forward1 (AttentionHead.query_layer h))) q)
                    (map (map (Linear.forward1 (AttentionHead.key_layer h))) k)))).
  { apply softmax_is_tensor. apply scores_of_is_tensor; rewrite ?Hdk; auto.
    now apply (wf_attention_bias_ready d). }
  pose proof (matmul_is_tensor _ _ _ _ _ _ Tw Tv HL) as To.
  destruct (Linear_forward_ok _ _ _ _ _ _ Hfc To) as [Eo To'].
  rewrite Eo. cbn [rbind]. eauto.
Qed.

Lemma block_contract_holds d dff L blk B x g :
  wf_block d dff L blk -> is_tensor B L d x ->
  (0 < B)%nat -> (0 < L)%nat -> (0 < d)%nat ->
  block_contract blk x g B L d /\
  (forall out w g', TransformerEncoderBlock.forward blk x g = Ok ((out, w), g') ->
     is_tensor B L d out /\
     w = softmax (scores_of (block_unit blk)
            (map (map (Linear.forward1
               (AttentionHead.query_layer (TransformerEncoderBlock.attention blk)))) x)
            (map (map (Linear.forward1
               (AttentionHead.key_layer (TransformerEncoderBlock.attention blk)))) x)) /\
     is_tensor B L L w /\ row_stochastic w).
Proof.
  intros (Hh & Hn1 & Hn2 & Hf1 & Hf2) Hx HB HL Hd.
  destruct (AttentionHead_forward_ok _ _ _ _ _ _ _ Hh Hx Hx Hx HB HL Hd)
    as (ao & Ea & Tao).
  set (W := softmax _) in Ea.
  assert (TW : is_tensor B L L W).
  { destruct Hh as (Hq & Hk & _ & Ha & _). pose proof Ha as (Hdk & _ & _).
    apply softmax_is_tensor, scores_of_is_tensor; rewrite ?Hdk; auto.
    - now apply (Linear_forward_ok d d).
    - now apply (Linear_forward_ok d d).
    - now apply (wf_attention_bias_ready d). }
  assert (RW : row_stochastic W).
  { destruct Hh as (Hq & Hk & _ & Ha & _). pose proof Ha as (Hdk & _ & _).
    apply (softmax_row_stochastic B L L); auto.
    apply scores_of_is_tensor; rewrite ?Hdk; auto.
    - now apply (Linear_forward_ok d d).
    - now apply (Linear_forward_ok d d).
    - now apply (wf_attention_bias_ready d). }
  destruct (Dropout_forward_ok (TransformerEncoderBlock.dropout blk) _ _ _ _ g Tao)
    as (d1 & g1 & Ed1 & Td1 & Hev1).
  destruct (add_same_ok _ _ _ _ _ Hx Td1 HB HL) as [Es1 Ts1].
  destruct (LayerNorm_forward_ok _ _ _ _ _ Hn1 Ts1) as [Ex' Tx'].
  set (x' := map (map (LayerNorm.forward1 (TransformerEncoderBlock.norm1 blk))) _) in *.
  destruct (Linear_forward_ok _ _ _ _ _ _ Hf1 Tx') as [Eh Th].
  set (h := map (map (Linear.forward1 (fst (TransformerEncoderBlock.ffn blk)))) _) in *.
  destruct (Linear_forward_ok _ _ _ _ _ _ Hf2 (relu_is_tensor _ _ _ _ Th)) as [Ef Tf].
  set (f := map (map (Linear.forward1 (snd (TransformerEncoderBlock.ffn blk)))) _) in *.
  destruct (Dropout_forward_ok (TransformerEncoderBlock.dropout blk) _ _ _ _ g1 Tf)
    as (d2 & g2 & Ed2 & Td2 & Hev2).
  destruct (add_same_ok _ _ _ _ _ Tx' Td2 HB HL) as [Es2 Ts2].
  destruct (LayerNorm_forward_ok _ _ _ _ _ Hn2 Ts2) as [Eo To].
  set (o := map (map (LayerNorm.forward1 (TransformerEncoderBlock.norm2 blk))) _) in *.
  assert (Efwd : TransformerEncoderBlock.forward blk x g = Ok ((o, W), g2)).
  { unfold TransformerEncoderBlock.forward, TransformerEncoderBlock.ffn_forward,
      bind, lift, ret.
    rewrite Ea, Ed1, Es1, Ex', Eh. cbn [rbind]. rewrite Ef, Ed2, Es2, Eo.
    reflexivity. }
  split.
  - exists ao, W, d1, g1, x', h, f, d2, g2, o.
    repeat (split; [assumption|]).
    split; [now apply is_tensor_shape3|].
    split; [now apply is_tensor_shape3|].
    intros Hev. destruct (Hev1 Hev) as [-> ->], (Hev2 Hev) as [-> ->]. auto.
  - intros out w g' H. rewrite Efwd in H. inversion H; subst. auto.
Qed.

(** ** The stacked model *)

Lemma rmapM_ok {A B} (f : A -> result B) (h : A -> B) l :
  (forall a, In a l -> f a = Ok (h a)) -> rmapM f l = Ok (map h l).
Proof.
  induction l as [|a l IH]; simpl; intros H; auto.
  rewrite H by auto. simpl. rewrite IH by auto. reflexivity.
Qed.

Lemma last_step_ok B L d x :
  is_tensor B L d x -> (0 < L)%nat ->
  Transformer.last_step x = Ok (map (fun s => last s []) x) /\
  is_mat B d (map (fun s => last s []) x).
Proof.
  intros [Hl Hx] HL. rewrite Forall_forall in Hx. split.
  - apply rmapM_ok. intros s Hs. destruct (Hx s Hs) as [Hsl _].
    destruct s; simpl in *; auto; lia.
  - split; [now rewrite length_map|]. apply Forall_map, Forall_forall.
    intros s Hs. destruct (Hx s Hs) as [Hsl Hsr].
    rewrite Forall_forall in Hsr. apply Hsr.
    destruct s as [|r s]; [simpl in *; lia|].
    destruct (@exists_last _ (r :: s)) as (s' & z & E); [discriminate|].
    rewrite E, last_last. apply in_or_app. simpl; auto.
Qed.

Lemma run_layers_ok d dff L B layers :
  Forall (wf_block d dff L) layers ->
  (0 < B)%nat -> (0 < L)%nat -> (0 < d)%nat ->
  forall x g acc, is_tensor B L d x ->
  exists ws xN gN,
    Transformer.run_layers layers x acc g = Ok ((xN, acc ++ ws), gN) /\
    runs layers x g ws xN gN /\
    is_tensor B L d xN /\
    length ws = length layers /\
    Forall (fun w => is_tensor B L L w /\ row_stochastic w) ws.
Proof.
  intros Hwf HB HL Hd. induction Hwf as [|layer rest Hlayer _ IH]; intros x g acc Hx.
  - exists [], x, g. simpl. rewrite app_nil_r. unfold ret.
    split; [reflexivity|]. split; [constructor|]. auto.
  - destruct (block_contract_holds _ _ _ _ _ _ g Hlayer Hx HB HL Hd) as [Hc Hinv].
    destruct Hc as (ao & w & d1 & g1 & x' & h & f & d2 & g2 & o & Hc).
    destruct Hc as (_ & _ & _ & _ & _ & _ & _ & Efwd & _).
    destruct (Hinv _ _ _ Efwd) as (To & _ & Tw & Rw).
    destruct (IH o g2 (acc ++ [w]) To) as (ws & xN & gN & Erun & Hruns & TN & Hlen & Hws).
    exists (w :: ws), xN, gN. simpl. unfold bind at 1. rewrite Efwd.
    rewrite Erun, <- app_assoc. simpl.
    split; [reflexivity|]. split; [econstructor; eauto|]. auto.
Qed.

Lemma Transformer_init_ok input d dff N L pe p max_len g m g' :
  Transformer.init input d dff N L pe p max_len g = Ok (m, g') ->
  wf_transformer input d dff L m /\
  length (Transformer.encoder_layers m) = N /\
  Transformer.positional_encoding m = pe.
Proof.
  unfold Transformer.init. intros H.
  apply bind_ok in H as (emb & g1 & He & H).
  apply bind_ok in H as (enc & g2 & Hp & H).
  apply bind_ok in H as (layers & g3 & Hl & H).
  apply bind_ok in H as (fc & g4 & Hf & H).
  apply ret_ok in H as [-> _]. simpl.
  apply Linear_init_ok in He, Hf.
  apply (replicateM_ok
           (fun b => wf_block d dff L b /\
                     block_flag b = match pe with None => false | Some _ => true end))
    in Hl as [Hlen Hl].
  2: { intros ? ? ?. apply Block_init_ok. }
  unfold wf_transformer. simpl.
  split; [|auto]. split; [exact He|].
  split; [eapply Forall_impl; [|exact Hl]; intros ? [? ?]; assumption|].
  split; [exact Hf|]. split; [split|].
  - intros ->. now apply ret_ok in Hp as [-> _].
  - intros ->. destruct pe; auto. inv_run. discriminate.
  - eapply Forall_impl; [|exact Hl]. intros ? [? ?]; assumption.
Qed.

Lemma transformer_contract_holds input d dff L m B x g :
  wf_transformer input d dff L m -> encoder_ok m B L d ->
  is_tensor B L input x ->
  (0 < B)%nat -> (0 < L)%nat -> (0 < d)%nat ->
  transformer_contract m x g B L d /\
  (forall y ws g', Transformer.forward m x g = Ok ((y, ws), g') ->
     Forall row_stochastic ws).
Proof.
  intros (Hemb & Hlayers & Hfc & Hpe & _) Henc Hx HB HL Hd.
  destruct (Linear_forward_ok _ _ _ _ _ _ Hemb Hx) as [Ee Te].
  set (e := map _ x) in *.
  assert (Hh0 : exists h0,
             is_tensor B L d h0 /\
             match Transformer.positional_encoding m with
             | None => h0 = e
             | Some _ => exists enc, Transformer.pos_encoder m = Some enc /\
                                     pe_forward enc e = Ok h0
             end /\
             (match Transformer.positional_encoding m with
              | Some _ => match Transformer.pos_encoder m with
                          | Some enc => lift (pe_forward enc e)
                          | None => lift (Raise AttributeError)
                          end
              | None => ret e
              end) g = Ok (h0, g)).
  { destruct (Transformer.positional_encoding m) as [make|] eqn:Epe.
    - destruct (Transformer.pos_encoder m) as [enc|] eqn:Eenc.
      + destruct (Henc enc Eenc e Te) as (y & Ey & Ty).
        exists y. split; [auto|]. split; [eauto|]. unfold lift. now rewrite Ey.
      + destruct Hpe as [_ Hpe]. specialize (Hpe eq_refl). discriminate.
    - exists e. auto. }
  destruct Hh0 as (h0 & Th0 & Hpos & Epos).
  destruct (run_layers_ok _ _ _ _ _ Hlayers HB HL Hd h0 g [] Th0)
    as (ws & hN & gN & Erun & Hruns & TN & Hlen & Hws).
  destruct (last_step_ok _ _ _ _ TN HL) as [El Tl].
  destruct (Linear_forward2_ok _ _ _ _ _ Hfc Tl) as [Eo To].
  assert (Efwd : Transformer.forward m x g =
                 Ok ((map (fun s => Linear.forward1 (Transformer.fc_out m) (last s [])) hN,
                      ws), gN)).
  { unfold Transformer.forward. unfold bind at 1. unfold lift at 1. rewrite Ee.
    unfold bind at 1. rewrite Epos. unfold bind at 1. rewrite Erun. simpl.
    unfold bind, lift, ret. rewrite El, Eo. now rewrite map_map. }
  split.
  - exists e, h0, hN, ws, gN,
      (map (fun s => Linear.forward1 (Transformer.fc_out m) (last s [])) hN).
    split; auto. split; [now apply is_tensor_shape3|].
    split; auto. split; auto. split; auto.
    split. { eapply Forall_impl; [|exact Hws]. intros w [Tw _].
             now apply is_tensor_shape3. }
    split; auto. split; auto. now rewrite <- map_map.
  - intros y ws' g' H. rewrite Efwd in H. inversion H; subst.
    eapply Forall_impl; [|exact Hws]. intros ? [? ?]; assumption.
Qed.

(** ** The absolute positional encoding *)

Ltac div_mod_2 x :=
  pose proof (Nat.div_mod_eq x 2);
  pose proof (Nat.mod_upper_bound x 2 ltac:(lia)).

Lemma length_range start stop :
  length (range start stop 2) = ((stop - start + 1) / 2)%nat.
Proof.
  unfold range. rewrite length_map, length_seq. f_equal. lia.
Qed.

Lemma nth_range start stop i :
  (i < (stop - start + 1) / 2)%nat -> nth i (range start stop 2) 0%nat = (start + i * 2)%nat.
Proof.
  intros Hi. unfold range.
  replace (stop - start + 2 - 1)%nat with (stop - start + 1)%nat by lia.
  rewrite (nth_map_in _ _ _ _ 0%nat) by now rewrite length_seq.
  now rewrite seq_nth.
Qed.

Lemma length_div_term d : length (PositionalEncoding.div_term d) = ((d + 1) / 2)%nat.
Proof.
  unfold PositionalEncoding.div_term. rewrite length_map, length_range.
  f_equal. lia.
Qed.

Lemma nth_div_term d i :
  (i < (d + 1) / 2)%nat -> nth i (PositionalEncoding.div_term d) 0 = frequency d i.
Proof.
  intros Hi. unfold PositionalEncoding.div_term, frequency.
  rewrite (nth_map_in _ _ _ _ 0%nat)
    by (rewrite length_range; replace (d - 0 + 1)%nat with (d + 1)%nat by lia; auto).
  rewrite nth_range by (replace (d - 0 + 1)%nat with (d + 1)%nat by lia; auto).
  replace (0 + i * 2)%nat with (2 * i)%nat by lia. reflexivity.
Qed.

Lemma length_set_strided start vals row :
  length (PositionalEncoding.set_strided start vals row) = length row.
Proof. unfold PositionalEncoding.set_strided. now rewrite length_map, length_seq. Qed.

Lemma nth_set_strided start vals row c :
  (c < length row)%nat ->
  (length vals = 1%nat -> ((c - start) / 2 = 0)%nat) ->
  nth c (PositionalEncoding.set_strided start vals row) 0 =
  if ((start <=? c) && ((c - start) mod 2 =? 0))%nat
  then nth ((c - start) / 2) vals 0
  else nth c row 0.
Proof.
  intros Hc Hb. unfold PositionalEncoding.set_strided.
  rewrite (nth_map_in _ _ _ _ 0%nat) by now rewrite length_seq.
  rewrite seq_nth by auto. rewrite Nat.add_0_l.
  destruct ((start <=? c) && ((c - start) mod 2 =? 0))%nat; auto.
  destruct (length vals =? 1)%nat eqn:E; auto.
  apply Nat.eqb_eq in E. now rewrite (Hb E).
Qed.

Lemma length_table_row d p : length (PositionalEncoding.table_row d p) = d.
Proof.
  unfold PositionalEncoding.table_row.
  now rewrite !length_set_strided, repeat_length.
Qed.

Lemma table_is_mat d max_len : is_mat max_len d (PositionalEncoding.table d max_len).
Proof.
  unfold PositionalEncoding.table. split.
  - now rewrite length_map, length_seq.
  - apply Forall_map, Forall_forall. intros p _. apply length_table_row.
Qed.

(** Even channels hold sines, odd channels cosines. *)
Lemma nth_table_row h p c :
  (c < 2 * h)%nat ->
  nth c (PositionalEncoding.table_row (2 * h) p) 0 =
  if (c mod 2 =? 0)%nat
  then sin (INR p * frequency (2 * h) (c / 2))
  else cos (INR p * frequency (2 * h) (c / 2)).
Proof.
  intros Hc. unfold PositionalEncoding.table_row.
  assert (Hlen : length (PositionalEncoding.div_term (2 * h)) = h).
  { rewrite length_div_term. div_mod_2 (2 * h + 1)%nat. lia. }
  div_mod_2 c. div_mod_2 (c - 1)%nat. div_mod_2 (c - 0)%nat.
  rewrite nth_set_strided.
  2: { now rewrite length_set_strided, repeat_length. }
  2: { rewrite !length_map, Hlen. intros ->. lia. }
  destruct (c mod 2 =? 0)%nat eqn:E.
  - apply Nat.eqb_eq in E.
    replace ((1 <=? c) && ((c - 1) mod 2 =? 0))%nat with false.
    2: { symmetry. apply andb_false_iff. destruct c; [left; reflexivity|].
         right. apply Nat.eqb_neq. lia. }
    rewrite nth_set_strided.
    2: { now rewrite repeat_length. }
    2: { rewrite !length_map, Hlen. intros ->. lia. }
    replace ((0 <=? c) && ((c - 0) mod 2 =? 0))%nat with true.
    2: { symmetry. apply andb_true_iff. split; [reflexivity|].
         apply Nat.eqb_eq. lia. }
    rewrite (nth_map_in _ _ _ _ 0) by (rewrite length_map, Hlen; lia).
    rewrite (nth_map_in _ _ _ _ 0) by (rewrite Hlen; lia).
    rewrite nth_div_term by (div_mod_2 (2 * h + 1)%nat; lia).
    do 3 f_equal. lia.
  - apply Nat.eqb_neq in E.
    replace ((1 <=? c) && ((c - 1) mod 2 =? 0))%nat with true.
    2: { symmetry. apply andb_true_iff. split.
         - apply Nat.leb_le. lia.
         - apply Nat.eqb_eq. lia. }
    rewrite (nth_map_in _ _ _ _ 0) by (rewrite length_map, Hlen; lia).
    rewrite (nth_map_in _ _ _ _ 0) by (rewrite Hlen; lia).
    rewrite nth_div_term by (div_mod_2 (2 * h + 1)%nat; lia).
    do 3 f_equal. lia.
Qed.

Lemma PositionalEncoding_init_even h max_len :
  (0 < h)%nat ->
  PositionalEncoding.init (2 * h) max_len =
  Ok (PositionalEncoding.mk
        (map (fun row => [row]) (PositionalEncoding.table (2 * h) max_len))).
Proof.
  intros Hh. unfold PositionalEncoding.init.
  replace (2 * h =? 0)%nat with false by (symmetry; apply Nat.eqb_neq; lia).
  unfold PositionalEncoding.slots_ok.
  rewrite !length_range, length_div_term.
  div_mod_2 (2 * h + 1)%nat. div_mod_2 (2 * h - 0 + 1)%nat.
  div_mod_2 (2 * h - 1 + 1)%nat.
  replace ((2 * h - 0 + 1) / 2 =? (2 * h + 1) / 2)%nat with true
    by (symmetry; apply Nat.eqb_eq; lia).
  replace ((2 * h - 1 + 1) / 2 =? (2 * h + 1) / 2)%nat with true
    by (symmetry; apply Nat.eqb_eq; lia).
  reflexivity.
Qed.

Lemma get3_plus3 B L d a b bi i j :
  is_tensor B L d a -> is_tensor B L d b ->
  (bi < B)%nat -> (i < L)%nat -> (j < d)%nat ->
  get3 (plus3 a b) bi i j = get3 a bi i j + get3 b bi i j.
Proof.
  intros Ha Hb Hbi Hi Hj. unfold get3, get2, get1, plus3.
  pose proof (is_tensor_nth _ _ _ _ _ Ha Hbi) as Hma.
  pose proof (is_tensor_nth _ _ _ _ _ Hb Hbi) as Hmb.
  rewrite (nth_zip_with _ _ _ _ [] []) by (destruct Ha, Hb; lia).
  rewrite (nth_zip_with _ _ _ _ [] []) by (destruct Hma, Hmb; lia).
  rewrite (nth_zip_with _ _ _ _ 0 0); auto.
  - now rewrite (is_mat_nth L d).
  - now rewrite (is_mat_nth L d).
Qed.

Lemma concat_repeat_single {A} (row : A) L : concat (repeat [row] L) = repeat row L.
Proof. induction L; simpl; congruence. Qed.

Lemma PositionalEncoding_forward_ok d max_len T B L x :
  is_mat max_len d T -> is_tensor B L d x ->
  (B <= max_len)%nat -> (0 < B)%nat -> (0 < L)%nat ->
  exists y,
    PositionalEncoding.forward
      (PositionalEncoding.mk (map (fun row => [row]) T)) x = Ok y /\
    is_tensor B L d y /\
    forall b s c, (b < B)%nat -> (s < L)%nat -> (c < d)%nat ->
      get3 y b s c = get3 x b s c + get2 T b c.
Proof.
  intros HT Hx HB HB0 HL. unfold PositionalEncoding.forward. simpl.
  assert (Hhd : length (hd [] x) = L).
  { destruct Hx as [Hl Hx]. destruct x; simpl in *; [lia|].
    inversion Hx as [|? ? [? ?] ?]; auto. }
  destruct Hx as [Hlx Hx']. pose proof (conj Hlx Hx' : is_tensor B L d x) as Hx.
  rewrite Hhd, Hlx, firstn_map, map_map.
  rewrite (map_ext _ (fun row => repeat row L))
    by (intros; apply concat_repeat_single).
  set (part := map (fun row => repeat row L) (firstn B T)).
  assert (Hp : is_tensor B L d part).
  { destruct HT as [HTl HTr]. split.
    - unfold part. rewrite length_map, length_firstn. lia.
    - apply Forall_map, Forall_forall. intros row Hrow.
      apply (In_nth _ _ []) in Hrow as (n & Hn & <-).
      rewrite length_firstn in Hn. rewrite nth_firstn.
      replace (n <? B)%nat with true by (symmetry; apply Nat.ltb_lt; lia).
      split; [apply repeat_length|]. apply Forall_forall.
      intros r Hr. apply repeat_spec in Hr. subst r.
      rewrite Forall_forall in HTr. apply HTr, nth_In. lia. }
  destruct (add_same_ok _ _ _ _ _ Hx Hp HB0 HL) as [Ea Ta].
  exists (plus3 x part). split; auto. split; auto.
  intros b s c Hb Hs Hc. rewrite (get3_plus3 B L d) by auto. f_equal.
  unfold get3, get2, get1, part.
  rewrite (nth_map_in _ _ _ _ []) by (rewrite length_firstn; destruct HT; lia).
  rewrite nth_firstn.
  replace (b <? B)%nat with true by (symmetry; apply Nat.ltb_lt; lia).
  rewrite nth_repeat_lt; auto.
Qed.

(** C3: the encoding is indexed by the batch axis.  With d_model = 2 and
    max_len = 4 the table holds sines in the even and cosines in the odd
    channel; on a zero input of shape (2, 2, 2), [forward] adds table row 0 to
    both positions of batch element 0 and table row 1 to both positions of
    batch element 1: position 1 of element 0 gets sin 0 = 0 where row 1 has
    sin 1, and position 0 of element 1 gets sin 1 where row 0 has 0. *)
Theorem positional_encoding_adds_row_of_batch_index :
  exists self y,
    PositionalEncoding.init 2 4 = Ok self /\
    PositionalEncoding.forward self (zeros3 2 2 2) = Ok y /\
    get2 (PositionalEncoding.table 2 4) 0 0 = 0 /\
    get2 (PositionalEncoding.table 2 4) 1 0 = sin 1 /\
    get3 y 0 1 0 = 0 /\
    get3 y 1 0 0 = sin 1 /\
    sin 1 <> 0.
Proof.
  pose proof (PositionalEncoding_init_even 1 4 ltac:(lia)) as Ei.
  change (2 * 1)%nat with 2%nat in Ei.
  assert (Hx : is_tensor 2 2 2 (zeros3 2 2 2)).
  { apply shape3_is_tensor. reflexivity. }
  destruct (PositionalEncoding_forward_ok 2 4 (PositionalEncoding.table 2 4) 2 2
              (zeros3 2 2 2) (table_is_mat 2 4) Hx) as (y & Ey & Ty & Hy); try lia.
  assert (T00 : get2 (PositionalEncoding.table 2 4) 0 0 = 0).
  { unfold get2, get1, PositionalEncoding.table. cbn [seq map nth].
    pose proof (nth_table_row 1 0 0 ltac:(lia)) as E.
    change (2 * 1)%nat with 2%nat in E.
    change (0 mod 2 =? 0)%nat with true in E. rewrite E.
    simpl INR. rewrite Rmult_0_l. apply sin_0. }
  assert (T10 : get2 (PositionalEncoding.table 2 4) 1 0 = sin 1).
  { unfold get2, get1, PositionalEncoding.table. cbn [seq map nth].
    pose proof (nth_table_row 1 1 0 ltac:(lia)) as E.
    change (2 * 1)%nat with 2%nat in E.
    change (0 mod 2 =? 0)%nat with true in E.
    change (0 / 2)%nat with 0%nat in E. rewrite E.
    unfold frequency. simpl INR. rewrite Rmult_0_l, exp_0. f_equal. lra. }
  exists (PositionalEncoding.mk (map (fun row => [row]) (PositionalEncoding.table 2 4))), y.
  split; [exact Ei|]. split; [exact Ey|]. split; [exact T00|]. split; [exact T10|].
  split; [|split].
  - rewrite Hy by lia. rewrite T00. unfold zeros3, get3, get2, get1. simpl. lra.
  - rewrite Hy by lia. rewrite T10. unfold zeros3, get3, get2, get1. simpl. lra.
  - pose proof PI2_1. pose proof PI_RGT_0.
    assert (0 < sin 1) by (apply sin_gt_0; lra). lra.
Qed.

(** ** The encoder block and the stacked model: statements *)

(** Runs a constructor on a concrete generator. *)
Ltac run_init :=
  lazy beta iota zeta delta
    [Transformer.init TransformerEncoderBlock.init AttentionHead.init Linear.init
     ScaledDotProductAttention.init PositionalEncoding.constructor
     randn3 randn2 randn1 replicateM bind ret randn lift Dropout.init rbind
     Qle_bool Qnum Qden Z.leb Z.mul Z.compare Pos.mul Pos.compare
     Pos.compare_cont andb
     example_rng advance cursor reals nats bools];
  reflexivity.

(** C7: on an input of shape (batch, seq_len, d_model) the encoder block calls
    the attention head with query = key = value = x, normalises
    x + Dropout(attention_output) to x', passes x' through Linear, ReLU,
    Linear, and returns LayerNorm2(x' + Dropout(ffn_output)) with the attention
    weights; dropout acts on the two residual branches only and is the
    identity in evaluation mode. *)
Theorem encoder_block_forward_steps d dff L blk B x g :
  wf_block d dff L blk ->
  shape3 x = Some (B, L, d) -> (0 < d)%nat ->
  block_contract blk x g B L d.
Proof.
  intros Hwf Sx Hd. destruct (shape3_pos _ _ _ _ Sx Hd) as [HB HL].
  apply shape3_is_tensor in Sx.
  now apply (block_contract_holds d dff L blk B x g).
Qed.

Lemma encoder_block_forward_steps_witness :
  exists blk g',
    TransformerEncoderBlock.init 2 3 2 false (1 # 10) example_rng = Ok (blk, g') /\
    block_contract blk (zeros3 1 2 2) g' 1 2 2.
Proof.
  eexists. eexists. split; [run_init|].
  eapply (encoder_block_forward_steps 2 3 2).
  - eapply (Block_init_ok 2 3 2 false (1 # 10) example_rng). run_init.
  - reflexivity.
  - lia.
Defined.

(** C6: on an input of shape (batch, seq_len, input_size) the stacked model
    embeds the input to (batch, seq_len, d_model), applies the positional
    encoder exactly when one was configured, runs the encoder blocks in order
    collecting one weight matrix per block, and returns the final linear map
    of the last position's state, one scalar per batch element, with the list
    of weights. *)
Theorem transformer_forward_steps input d dff L m B x g :
  wf_transformer input d dff L m -> encoder_ok m B L d ->
  shape3 x = Some (B, L, input) -> (0 < input)%nat -> (0 < d)%nat ->
  transformer_contract m x g B L d.
Proof.
  intros Hwf Henc Sx Hi Hd. destruct (shape3_pos _ _ _ _ Sx Hi) as [HB HL].
  apply shape3_is_tensor in Sx.
  now apply (transformer_contract_holds input d dff L m B x g).
Qed.

Lemma transformer_forward_steps_witness :
  exists m g',
    Transformer.init 1 2 3 2 2 None (1 # 10) 5000 example_rng = Ok (m, g') /\
    length (Transformer.encoder_layers m) = 2%nat /\
    transformer_contract m (zeros3 1 2 1) g' 1 2 2.
Proof.
  eexists. eexists. split; [run_init|]. split; [reflexivity|].
  eapply (transformer_forward_steps 1 2 3 2).
  - eapply (Transformer_init_ok 1 2 3 2 2 None (1 # 10) 5000 example_rng).
    run_init.
  - intros enc H. discriminate H.
  - reflexivity.
  - lia.
  - lia.
Defined.

(** C4: for valid inputs and either bias configuration every row of the
    attention weights returned by the attention unit sums to 1, and so does
    every row of every weight matrix in the list returned by the stacked
    model. *)
Theorem attention_weights_rows_sum_to_one
        self B L dv q k v input d dff m B' x g :
  (0 < d_k self)%nat -> (0 < dv)%nat ->
  shape3 q = Some (B, L, d_k self) ->
  shape3 k = Some (B, L, d_k self) ->
  shape3 v = Some (B, L, dv) ->
  bias_ready self L ->
  wf_transformer input d dff L m -> encoder_ok m B' L d ->
  shape3 x = Some (B', L, input) -> (0 < input)%nat -> (0 < d)%nat ->
  (exists output weights,
     forward self q k v = Ok (output, weights) /\ row_stochastic weights) /\
  (exists output all_attention_weights g',
     Transformer.forward m x g = Ok ((output, all_attention_weights), g') /\
     Forall row_stochastic all_attention_weights).
Proof.
  intros Hdk Hdv Sq Sk Sv Hrel Hwf Henc Sx Hi Hd. split.
  - destruct (shape3_pos _ _ _ _ Sq Hdk) as [HB HL].
    apply shape3_is_tensor in Sq, Sk, Sv.
    do 2 eexists. split; [now apply (forward_eq self B L dv)|].
    apply (softmax_row_stochastic B L L); auto.
    now apply scores_of_is_tensor.
  - destruct (shape3_pos _ _ _ _ Sx Hi) as [HB HL].
    apply shape3_is_tensor in Sx.
    destruct (transformer_contract_holds input d dff L m B' x g) as [Hc Hrs]; auto.
    destruct Hc as (e & h0 & hN & ws & gN & y & Hc).
    destruct Hc as (_ & _ & _ & _ & _ & _ & _ & _ & Efwd).
    exists y, ws, gN. split; auto. eapply Hrs; eauto.
Qed.

Lemma attention_weights_rows_sum_to_one_witness :
  exists m g',
    Transformer.init 1 2 3 2 2 None (1 # 10) 5000 example_rng = Ok (m, g') /\
    (exists output weights,
       forward (mk 2 2 false (zeros3 1 2 2)) (zeros3 3 2 2) (zeros3 3 2 2)
               (zeros3 3 2 4) = Ok (output, weights) /\
       row_stochastic weights) /\
    (exists output all_attention_weights g'',
       Transformer.forward m (zeros3 1 2 1) g'
         = Ok ((output, all_attention_weights), g'') /\
       Forall row_stochastic all_attention_weights).
Proof.
  eexists. eexists. split; [run_init|].
  eapply (attention_weights_rows_sum_to_one
            (mk 2 2 false (zeros3 1 2 2)) 3 2 4 _ _ _ 1 2 3 _ 1).
  - simpl; lia.
  - lia.
  - reflexivity.
  - reflexivity.
  - reflexivity.
  - intros _. apply shape3_is_tensor. reflexivity.
  - eapply (Transformer_init_ok 1 2 3 2 2 None (1 # 10) 5000 example_rng).
    run_init.
  - intros enc H. discriminate H.
  - reflexivity.
  - lia.
  - lia.
Defined.

(** ** Mutual exclusion of the positional strategies *)

Lemma forward_set_rel_layer r a q k v :
  other_positional_encodings_present a = true ->
  forward (set_rel_layer r a) q k v = forward a q k v.
Proof. intros H. unfold forward, set_rel_layer. simpl. now rewrite H. Qed.

Lemma block_forward_set_rel_layer r b x g :
  block_flag b = true ->
  TransformerEncoderBlock.forward (block_set_rel_layer r b) x g =
  TransformerEncoderBlock.forward b x g.
Proof.
  intros H. unfold TransformerEncoderBlock.forward, AttentionHead.forward,
    TransformerEncoderBlock.ffn_forward, block_set_rel_layer. simpl.
  destruct (Linear.forward _ x); simpl; auto.
  destruct (Linear.forward _ x); simpl; auto.
  destruct (Linear.forward _ x); simpl; auto.
  now rewrite forward_set_rel_layer.
Qed.

Lemma run_layers_set_rel_layers layers :
  Forall (fun b => block_flag b = true) layers ->
  forall rs x acc g,
    Transformer.run_layers (set_rel_layers rs layers) x acc g =
    Transformer.run_layers layers x acc g.
Proof.
  induction 1 as [|b layers Hb _ IH]; intros rs x acc g.
  - now destruct rs.
  - destruct rs as [|r rs]; auto. simpl. unfold bind.
    rewrite block_forward_set_rel_layer by auto.
    destruct (TransformerEncoderBlock.forward b x g) as [[[x1 w] g1]|]; auto.
Qed.

(** C2: in a model constructed with an absolute positional encoding every
    block's unit has its flag set and the model's result does not depend on
    any relative bias; in a model constructed with [None] every block's unit
    adds its own bias to the scaled scores; the two are never both active. *)
Theorem positional_strategies_exclusive input d dff N L pe p max_len g m g' :
  Transformer.init input d dff N L pe p max_len g = Ok (m, g') ->
  (0 < d)%nat ->
  exclusive_contract pe L d m.
Proof.
  intros Hinit Hd.
  destruct (Transformer_init_ok _ _ _ _ _ _ _ _ _ _ _ Hinit) as (Hwf & Hlen & Hpe).
  destruct Hwf as (_ & Hlayers & _ & Hiff & Hflags). rewrite Hpe in *.
  split; [exact Hflags|]. split; [exact Hpe|]. split; [exact Hiff|]. split.
  - intros Hsome rs x g0. unfold Transformer.forward, with_rel_layers. simpl.
    assert (Htrue : Forall (fun b => block_flag b = true)
                           (Transformer.encoder_layers m)).
    { eapply Forall_impl; [|exact Hflags]. intros b Hb. rewrite Hb.
      destruct pe; congruence. }
    unfold bind. destruct (lift _ g0) as [[e g1]|]; auto.
    destruct (Transformer.positional_encoding m);
      [destruct (Transformer.pos_encoder m)|];
      match goal with
      | |- match ?c with _ => _ end = _ => destruct c as [[h g2]|]
      end; auto; now rewrite run_layers_set_rel_layers.
  - intros ->. rewrite Forall_forall in *. intros b Hb B dv q k v Hdv Sq Sk Sv.
    destruct (Hlayers b Hb) as ((_ & _ & _ & Ha & _) & _).
    pose proof Ha as (Hdk & _ & _). fold (block_unit b) in Ha, Hdk.
    pose proof (attention_contract_holds (block_unit b) B L dv q k v) as H.
    rewrite Hdk in H. specialize (H Hd Hdv Sq Sk Sv).
    replace (other_positional_encodings_present (block_unit b)) with false in H
      by (symmetry; apply (Hflags b Hb)).
    apply H. now apply (wf_attention_bias_ready d).
Qed.

Lemma positional_strategies_exclusive_witness :
  exists m g',
    Transformer.init 1 2 3 2 2 (Some PositionalEncoding.constructor) (1 # 10) 4
      example_rng = Ok (m, g') /\
    exclusive_contract (Some PositionalEncoding.constructor) 2 2 m.
Proof.
  eexists. eexists. split; [run_init|].
  eapply (positional_strategies_exclusive
            1 2 3 2 2 (Some PositionalEncoding.constructor) (1 # 10) 4 example_rng).
  - run_init.
  - lia.
Defined.

(** ** Permutation of the sequence axis *)

Lemma tensor_ext B n k (a b : tensor3) :
  is_tensor B n k a -> is_tensor B n k b ->
  (forall bi i j, (bi < B)%nat -> (i < n)%nat -> (j < k)%nat ->
     get3 a bi i j = get3 b bi i j) ->
  a = b.
Proof.
  intros Ha Hb H. apply (nth_ext _ _ [] []); [destruct Ha, Hb; lia|].
  intros bi Hbi. replace (length a) with B in Hbi by (symmetry; apply Ha).
  pose proof (is_tensor_nth _ _ _ _ _ Ha Hbi) as Hma.
  pose proof (is_tensor_nth _ _ _ _ _ Hb Hbi) as Hmb.
  apply (nth_ext _ _ [] []); [destruct Hma, Hmb; lia|].
  intros i Hi. replace (length (nth bi a [])) with n in Hi by (symmetry; apply Hma).
  pose proof (is_mat_nth _ _ _ _ Hma Hi) as Hra.
  pose proof (is_mat_nth _ _ _ _ Hmb Hi) as Hrb.
  apply (nth_ext _ _ 0 0); [lia|].
  intros j Hj. rewrite Hra in Hj. now apply H.
Qed.

Lemma is_perm_length p n : is_perm p n -> length p = n.
Proof.
  intros H. apply Permutation_length in H. now rewrite length_seq in H.
Qed.

Lemma is_perm_nth p n i : is_perm p n -> (i < n)%nat -> (nth i p 0%nat < n)%nat.
Proof.
  intros H Hi. pose proof (is_perm_length _ _ H) as Hl.
  assert (Hin : In (nth i p 0%nat) p) by (apply nth_In; lia).
  apply (Permutation_in _ H) in Hin. apply in_seq in Hin. lia.
Qed.

Lemma bigsum_perm p n f :
  is_perm p n -> bigsum n (fun j => f (nth j p 0%nat)) = bigsum n f.
Proof.
  intros H. unfold bigsum. pose proof (is_perm_length _ _ H) as Hl.
  rewrite <- (map_map (fun j => nth j p 0%nat) f).
  rewrite <- Hl at 1. rewrite map_nth_seq.
  apply sum_perm, Permutation_map, H.
Qed.

Lemma permute_seq_is_tensor p B n k t :
  is_tensor B n k t -> is_perm p n -> is_tensor B n k (permute_seq p t).
Proof.
  intros Ht Hp. apply (is_tensor_map _ B n k); auto.
  intros m Hm. unfold permute_rows. split.
  - rewrite length_map. now apply is_perm_length.
  - apply Forall_map, Forall_forall. intros i Hi.
    apply (Permutation_in _ Hp) in Hi. apply in_seq in Hi.
    apply (is_mat_nth n k); auto. lia.
Qed.

Lemma get3_permute_seq p B n k t b i j :
  is_tensor B n k t -> is_perm p n -> (b < B)%nat -> (i < n)%nat ->
  get3 (permute_seq p t) b i j = get3 t b (nth i p 0%nat) j.
Proof.
  intros Ht Hp Hb Hi. unfold get3, get2, get1, permute_seq, permute_rows.
  rewrite (nth_map_in _ _ _ _ []) by (destruct Ht; lia).
  rewrite (nth_map_in _ _ _ _ 0%nat) by (rewrite (is_perm_length p n); auto).
  reflexivity.
Qed.

Lemma permute_weights_is_tensor p B n t :
  is_tensor B n n t -> is_perm p n -> is_tensor B n n (permute_weights p t).
Proof.
  intros Ht Hp. apply (is_tensor_map _ B n n); auto.
  intros m Hm. unfold permute_rows, permute_cols. split.
  - rewrite length_map. now apply is_perm_length.
  - apply Forall_map, Forall_forall. intros i Hi.
    apply (Permutation_in _ Hp) in Hi. apply in_seq in Hi.
    rewrite (nth_map_in _ _ _ _ []) by (destruct Hm; lia).
    rewrite length_map. now apply is_perm_length.
Qed.

Lemma get3_permute_weights p B n t b i j :
  is_tensor B n n t -> is_perm p n -> (b < B)%nat -> (i < n)%nat -> (j < n)%nat ->
  get3 (permute_weights p t) b i j = get3 t b (nth i p 0%nat) (nth j p 0%nat).
Proof.
  intros Ht Hp Hb Hi Hj.
  unfold get3, get2, get1, permute_weights, permute_rows, permute_cols.
  pose proof (is_tensor_nth _ _ _ _ _ Ht Hb) as Hm.
  pose proof (is_perm_nth _ _ _ Hp Hi) as Hpi.
  rewrite (nth_map_in _ _ _ _ []) by (destruct Ht; lia).
  rewrite (nth_map_in _ _ _ _ 0%nat) by (rewrite (is_perm_length p n); auto).
  rewrite (nth_map_in _ _ _ _ []) by (destruct Hm; lia).
  rewrite (nth_map_in _ _ _ _ 0%nat) by (rewrite (is_perm_length p n); auto).
  reflexivity.
Qed.

Lemma score_permute p B L d q k b i j :
  is_tensor B L d q -> is_tensor B L d k -> is_perm p L ->
  (b < B)%nat -> (i < L)%nat -> (j < L)%nat ->
  score d (permute_seq p q) (permute_seq p k) b i j =
  score d q k b (nth i p 0%nat) (nth j p 0%nat).
Proof.
  intros Hq Hk Hp Hb Hi Hj. unfold score. f_equal.
  apply bigsum_ext. intros c Hc.
  now rewrite (get3_permute_seq p B L d), (get3_permute_seq p B L d).
Qed.

Lemma attention_equivariant self B L dv q k v p :
  other_positional_encodings_present self = true ->
  (0 < d_k self)%nat ->
  is_tensor B L (d_k self) q -> is_tensor B L (d_k self) k -> is_tensor B L dv v ->
  (0 < B)%nat -> (0 < L)%nat -> is_perm p L ->
  exists output weights,
    forward self q k v = Ok (output, weights) /\
    forward self (permute_seq p q) (permute_seq p k) (permute_seq p v) =
      Ok (permute_seq p output, permute_weights p weights).
Proof.
  intros Hflag Hd Hq Hk Hv HB HL Hp.
  assert (Hrel : bias_ready self L) by (intros E; congruence).
  pose proof (permute_seq_is_tensor p _ _ _ _ Hq Hp) as Hq'.
  pose proof (permute_seq_is_tensor p _ _ _ _ Hk Hp) as Hk'.
  pose proof (permute_seq_is_tensor p _ _ _ _ Hv Hp) as Hv'.
  do 2 eexists. split; [now apply (forward_eq self B L dv)|].
  rewrite (forward_eq self B L dv) by auto.
  unfold scores_of. rewrite Hflag.
  set (d := d_k self) in *.
  pose proof (raw_scores_is_tensor _ _ _ _ _ Hq Hk HL Hd) as Hs.
  pose proof (raw_scores_is_tensor _ _ _ _ _ Hq' Hk' HL Hd) as Hs'.
  pose proof (softmax_is_tensor _ _ _ _ Hs) as Hw.
  pose proof (softmax_is_tensor _ _ _ _ Hs') as Hw'.
  assert (EW : softmax (raw_scores d (permute_seq p q) (permute_seq p k)) =
               permute_weights p (softmax (raw_scores d q k))).
  { apply (tensor_ext B L L); auto.
    - now apply permute_weights_is_tensor.
    - intros b i j Hb Hi Hj.
      pose proof (is_perm_nth _ _ _ Hp Hi) as Hpi.
      pose proof (is_perm_nth _ _ _ Hp Hj) as Hpj.
      rewrite (get3_permute_weights p B L) by auto.
      rewrite !(get3_softmax B L L) by auto.
      unfold attention_weight.
      rewrite !(get3_raw_scores B L) by auto.
      rewrite (score_permute p B L) by auto. f_equal.
      rewrite <- (bigsum_perm p L
                    (fun j' => exp (get3 (raw_scores d q k) b (nth i p 0%nat) j'))) by auto.
      apply bigsum_ext. intros j' Hj'.
      pose proof (is_perm_nth _ _ _ Hp Hj') as Hpj'.
      rewrite !(get3_raw_scores B L) by auto.
      now rewrite (score_permute p B L). }
  rewrite EW. f_equal. f_equal.
  apply (tensor_ext B L dv).
  - apply (matmul_is_tensor B L L dv); auto. now apply permute_weights_is_tensor.
  - apply permute_seq_is_tensor; auto. now apply (matmul_is_tensor B L L dv).
  - intros b i c Hb Hi Hc.
    pose proof (is_perm_nth _ _ _ Hp Hi) as Hpi.
    rewrite (get3_permute_seq p B L dv); auto.
    2: now apply (matmul_is_tensor B L L dv).
    rewrite !(get3_matmul B L L dv); auto.
    2: now apply permute_weights_is_tensor.
    rewrite <- (bigsum_perm p L
                  (fun j => get3 (softmax (raw_scores d q k)) b (nth i p 0%nat) j
                            * get3 v b j c)) by auto.
    apply bigsum_ext. intros j Hj.
    rewrite (get3_permute_weights p B L), (get3_permute_seq p B L dv); auto.
Qed.

Lemma swap_is_perm : is_perm swap 2.
Proof. exact (Permutation_rev [1; 0]%nat). Qed.

Lemma bias_unit_not_equivariant :
  exists output weights,
    forward bias_unit (zeros3 1 2 1) (zeros3 1 2 1) one_hot_values
      = Ok (output, weights) /\
    forward bias_unit (permute_seq swap (zeros3 1 2 1))
      (permute_seq swap (zeros3 1 2 1)) (permute_seq swap one_hot_values)
      <> Ok (permute_seq swap output, permute_weights swap weights).
Proof.
  assert (Hq : is_tensor 1 2 1 (zeros3 1 2 1)) by (apply shape3_is_tensor; reflexivity).
  assert (Hv : is_tensor 1 2 1 one_hot_values) by (apply shape3_is_tensor; reflexivity).
  assert (Hv' : is_tensor 1 2 1 (permute_seq swap one_hot_values))
    by (apply shape3_is_tensor; reflexivity).
  assert (Hrel : bias_ready bias_unit 2)
    by (intros _; apply shape3_is_tensor; reflexivity).
  assert (Hs : is_tensor 1 2 2 (scores_of bias_unit (zeros3 1 2 1) (zeros3 1 2 1)))
    by (apply scores_of_is_tensor; auto; simpl; lia).
  pose proof (softmax_is_tensor _ _ _ _ Hs) as Hw.
  do 2 eexists. split.
  { apply (forward_eq bias_unit 1 2 1); auto; simpl; lia. }
  change (permute_seq swap (zeros3 1 2 1)) with (zeros3 1 2 1).
  rewrite (forward_eq bias_unit 1 2 1) by (auto; simpl; lia).
  remember (softmax (scores_of bias_unit (zeros3 1 2 1) (zeros3 1 2 1))) as W eqn:EW.
  intros H. injection H as _ H.
  assert (E : get3 W 0 0 0 = get3 W 0 1 1).
  { rewrite H at 1. rewrite (get3_permute_weights swap 1 2); auto; try lia.
    apply swap_is_perm. }
  subst W.
  rewrite !(get3_softmax 1 2 2) in E by (auto; lia).
  unfold attention_weight, bigsum in E. cbn [seq map sum] in E.
  rewrite !(get3_scores_of bias_unit 1 2) in E by (auto; simpl; lia).
  cbn [bias_unit other_positional_encodings_present] in E.
  assert (S00 : biased_score bias_unit (zeros3 1 2 1) (zeros3 1 2 1) 0 0 0 = 0).
  { unfold biased_score, score, bigsum, get3, get2, get1. simpl.
    rewrite sqrt_1. lra. }
  assert (S01 : biased_score bias_unit (zeros3 1 2 1) (zeros3 1 2 1) 0 0 1 = 1).
  { unfold biased_score, score, bigsum, get3, get2, get1. simpl.
    rewrite sqrt_1. lra. }
  assert (S10 : biased_score bias_unit (zeros3 1 2 1) (zeros3 1 2 1) 0 1 0 = 0).
  { unfold biased_score, score, bigsum, get3, get2, get1. simpl.
    rewrite sqrt_1. lra. }
  assert (S11 : biased_score bias_unit (zeros3 1 2 1) (zeros3 1 2 1) 0 1 1 = 0).
  { unfold biased_score, score, bigsum, get3, get2, get1. simpl.
    rewrite sqrt_1. lra. }
  rewrite S00, S01, S10, S11, exp_0 in E.
  pose proof (exp_ineq1 1 ltac:(lra)) as He.
  assert (E' : 1 / (1 + (exp 1 + 0)) * (1 + (exp 1 + 0)) = 1) by (field; lra).
  rewrite E in E'. lra.
Qed.

(** C8: without the relative bias (and without a mask) the attention unit is
    permutation-equivariant: permuting the sequence axis of query, key and
    value permutes the output rows, and the rows and columns of the weights,
    in the same way.  With the relative bias active there are an input and a
    permutation for which this fails. *)
Theorem attention_permutation_equivariance self B L dv q k v p :
  other_positional_encodings_present self = true ->
  (0 < d_k self)%nat -> (0 < dv)%nat ->
  shape3 q = Some (B, L, d_k self) ->
  shape3 k = Some (B, L, d_k self) ->
  shape3 v = Some (B, L, dv) ->
  is_perm p L ->
  (exists output weights,
     forward self q k v = Ok (output, weights) /\
     forward self (permute_seq p q) (permute_seq p k) (permute_seq p v) =
       Ok (permute_seq p output, permute_weights p weights)) /\
  (exists biased q0 k0 v0 p0 output weights,
     other_positional_encodings_present biased = false /\
     is_perm p0 (seq_len biased) /\
     forward biased q0 k0 v0 = Ok (output, weights) /\
     forward biased (permute_seq p0 q0) (permute_seq p0 k0) (permute_seq p0 v0)
       <> Ok (permute_seq p0 output, permute_weights p0 weights)).
Proof.
  intros Hflag Hd Hdv Sq Sk Sv Hp. split.
  - destruct (shape3_pos _ _ _ _ Sq Hd) as [HB HL].
    apply shape3_is_tensor in Sq, Sk, Sv.
    now apply (attention_equivariant self B L dv).
  - destruct bias_unit_not_equivariant as (output & weights & E1 & E2).
    exists bias_unit, (zeros3 1 2 1), (zeros3 1 2 1), one_hot_values, swap,
      output, weights.
    split; [reflexivity|]. split; [|auto].
    apply swap_is_perm.
Qed.

Lemma attention_permutation_equivariance_witness :
  is_perm [2; 0; 1]%nat 3 /\
  (exists output weights,
     forward (mk 2 3 true []) (zeros3 2 3 2) (zeros3 2 3 2) (zeros3 2 3 4)
       = Ok (output, weights) /\
     forward (mk 2 3 true []) (permute_seq [2; 0; 1]%nat (zeros3 2 3 2))
       (permute_seq [2; 0; 1]%nat (zeros3 2 3 2))
       (permute_seq [2; 0; 1]%nat (zeros3 2 3 4)) =
       Ok (permute_seq [2; 0; 1]%nat output,
           permute_weights [2; 0; 1]%nat weights)).
Proof.
  assert (Hp : is_perm [2; 0; 1]%nat 3).
  { unfold is_perm. simpl. apply Permutation_sym.
    change [2; 0; 1]%nat with ([2] ++ [0; 1])%nat.
    change [0; 1; 2]%nat with ([0; 1] ++ [2])%nat.
    apply Permutation_app_comm. }
  split; [exact Hp|].
  apply (attention_permutation_equivariance
           (mk 2 3 true []) 2 3 4 (zeros3 2 3 2) (zeros3 2 3 2) (zeros3 2 3 4)
           [2; 0; 1]%nat); try reflexivity; try exact Hp; simpl; lia.
Defined.

(** ** Calls of the attention unit *)

Lemma lookup_In k e v : Call.lookup k e = Some v -> In k (map fst e).
Proof.
  induction e as [|[k' v'] e IH]; simpl; [discriminate|].
  destruct (String.eqb k k') eqn:E; auto.
  apply String.eqb_eq in E. auto.
Qed.

Lemma lookup_None k e : Call.lookup k e = None -> ~ In k (map fst e).
Proof.
  induction e as [|[k' v'] e IH]; simpl; auto.
  destruct (String.eqb k k') eqn:E; [discriminate|].
  apply String.eqb_neq in E. intros H [H1|H1]; [congruence|]. now apply IH.
Qed.

Lemma bind_positional_spec params args :
  (exists e, Call.bind_positional params args = Ok e /\
             map fst e = firstn (length args) params /\
             (length args <= length params)%nat) \/
  Call.bind_positional params args = Raise TypeError.
Proof.
  revert params. induction args as [|a args IH]; intros params.
  - left. exists []. destruct params; simpl; repeat split; auto; lia.
  - destruct params as [|p params]; simpl; auto.
    destruct (IH params) as [(e & -> & He & Hl)| ->]; auto.
    left. exists ((p, a) :: e). simpl. rewrite He. repeat split; auto. lia.
Qed.

Lemma bind_keywords_spec params kwargs :
  forall e,
  (exists e', Call.bind_keywords params e kwargs = Ok e' /\
              length e' = (length e + length kwargs)%nat /\
              (NoDup (map fst e) -> NoDup (map fst e')) /\
              (incl (map fst e) params -> incl (map fst e') params) /\
              Forall (fun kv => In (fst kv) params) kwargs) \/
  Call.bind_keywords params e kwargs = Raise TypeError.
Proof.
  induction kwargs as [|[k v] kwargs IH]; intros e; simpl.
  - left. exists e. repeat split; auto.
  - destruct (existsb (String.eqb k) params) eqn:Ex; auto.
    destruct (Call.lookup k e) eqn:El; auto.
    destruct (IH ((k, v) :: e)) as [(e' & -> & Hl & Hn & Hi & Hf)| ->]; auto.
    left. exists e'. simpl in *.
    apply existsb_exists in Ex as (k' & Hk' & Ek). apply String.eqb_eq in Ek. subst k'.
    split; auto. split; [lia|]. split; [|split].
    + intros H. apply Hn. constructor; auto. now apply lookup_None.
    + intros H. apply Hi. intros x [<-|Hx]; auto.
    + constructor; auto.
Qed.

Lemma forward_params_NoDup : NoDup Call.forward_params.
Proof.
  unfold Call.forward_params.
  repeat constructor; simpl; intuition discriminate.
Qed.

Lemma call_attention_arity self args kwargs r :
  Call.attention self args kwargs = r ->
  r = Raise TypeError \/
  ((length args + length kwargs = 3)%nat /\
   Forall (fun kv => In (fst kv) Call.forward_params) kwargs).
Proof.
  intros <-. unfold Call.attention.
  destruct (bind_positional_spec Call.forward_params args)
    as [(e & -> & He & Hl)| ->]; [|now left].
  cbn [rbind].
  destruct (bind_keywords_spec Call.forward_params kwargs e)
    as [(e' & -> & Hlen & Hn & Hi & Hf)| ->]; [|now left].
  cbn [rbind].
  destruct (Call.lookup "query" e') eqn:Eq; [|now left].
  destruct (Call.lookup "key" e') eqn:Ek; [|now left].
  destruct (Call.lookup "value" e') eqn:Ev; [|now left].
  right. split; auto.
  apply lookup_In in Eq, Ek, Ev.
  assert (Hnd : NoDup (map fst e')).
  { apply Hn. rewrite He. clear. pose proof forward_params_NoDup as H.
    rewrite <- (firstn_skipn (length args) Call.forward_params) in H.
    now apply NoDup_app_remove_r in H. }
  assert (Hincl : incl (map fst e') Call.forward_params).
  { apply Hi. rewrite He. intros x Hx. rewrite <- (firstn_skipn (length args)).
    apply in_or_app. auto. }
  assert (Hincl' : incl Call.forward_params (map fst e')).
  { intros x [<-|[<-|[<-|[]]]]; auto. }
  pose proof (NoDup_incl_length Hnd Hincl) as H1.
  pose proof (NoDup_incl_length forward_params_NoDup Hincl') as H2.
  rewrite length_map in H1, H2. simpl in H1, H2.
  assert (length e = length args).
  { rewrite <- (length_map fst e), He, length_firstn. lia. }
  lia.
Qed.

(** C5, as stated, fails: a call that supplies a mask, by keyword or as a
    fourth positional argument, raises TypeError. *)
Lemma attention_call_with_mask_raises :
  Call.attention (mk 1 1 true []) [zeros3 1 1 1; zeros3 1 1 1; zeros3 1 1 1]
                 [("mask"%string, zeros3 1 1 1)] = Raise TypeError /\
  Call.attention (mk 1 1 true [])
                 [zeros3 1 1 1; zeros3 1 1 1; zeros3 1 1 1; zeros3 1 1 1] []
    = Raise TypeError.
Proof. split; reflexivity. Qed.

(** C5, amended: [forward] takes exactly the three tensors query, key and
    value and no mask; a call with a different number of arguments, or with a
    keyword that is not one of the three names, raises TypeError, and a call
    with the three tensors is [forward] on them. *)
Theorem attention_forward_takes_no_mask self args kwargs :
  (length args + length kwargs <> 3)%nat \/
  Exists (fun kv => ~ In (fst kv) Call.forward_params) kwargs ->
  Call.attention self args kwargs = Raise TypeError /\
  (forall q k v, Call.attention self [q; k; v] [] = forward self q k v).
Proof.
  intros H. split; [|reflexivity].
  destruct (call_attention_arity self args kwargs _ eq_refl) as [E|[Hlen Hf]]; auto.
  destruct H as [H|H]; [contradiction|].
  apply Exists_exists in H as (kv & Hin & Hkv).
  rewrite Forall_forall in Hf. elim Hkv. now apply Hf.
Qed.

Lemma attention_forward_takes_no_mask_witness :
  (length [zeros3 1 1 1; zeros3 1 1 1; zeros3 1 1 1; zeros3 1 1 1]
   + length (@nil (string * list (list (list R)))) <> 3)%nat /\
  Call.attention (mk 1 1 true [])
    [zeros3 1 1 1; zeros3 1 1 1; zeros3 1 1 1; zeros3 1 1 1] [] = Raise TypeError /\
  (forall q k v, Call.attention (mk 1 1 true []) [q; k; v] [] =
                 forward (mk 1 1 true []) q k v).
Proof.
  split; [simpl; lia|].
  apply (attention_forward_takes_no_mask (mk 1 1 true [])).
  left. simpl. lia.
Defined.

(** ** The synthetic dataset *)

Ltac div_mod_3 x :=
  pose proof (Nat.div_mod_eq x 3);
  pose proof (Nat.mod_upper_bound x 3 ltac:(lia)).

Lemma add_at_ok a i d :
  (i < length a)%nat ->
  exists a', TimeSeriesDataset.add_at a i d = Ok a' /\
             length a' = length a /\
             nth i a' 0 = nth i a 0 + d /\
             (forall j, j <> i -> nth j a' 0 = nth j a 0).
Proof.
  revert i. induction a as [|x a IH]; intros i Hi; simpl in Hi; [lia|].
  destruct i as [|i]; simpl.
  - eexists. split; [reflexivity|]. repeat split; auto.
    intros [|j] Hj; simpl; auto. lia.
  - destruct (IH i ltac:(lia)) as (a' & -> & Hl & Hn & Ho). simpl.
    eexists. split; [reflexivity|]. simpl. repeat split; auto.
    intros [|j] Hj; simpl; auto.
Qed.

Lemma add_at_out_of_range a i d :
  (length a <= i)%nat -> TimeSeriesDataset.add_at a i d = Raise IndexError.
Proof.
  revert i. induction a as [|x a IH]; intros i Hi; simpl; auto.
  destruct i as [|i]; simpl in *; [lia|]. now rewrite IH by lia.
Qed.

Lemma later_jumps_ok indices :
  forall ts g,
    Forall (fun i => (i < length ts)%nat) indices -> NoDup indices ->
    exists ts' g',
      TimeSeriesDataset.later_jumps indices ts g = Ok (ts', g') /\
      length ts' = length ts /\ same_draws g g' /\
      (forall i, ~ In i indices -> nth i ts' 0 = nth i ts 0) /\
      (forall j, (j < length indices)%nat ->
         nth (nth j indices 0%nat) ts' 0 =
         nth (nth j indices 0%nat) ts 0 +
         (TimeSeriesDataset.jump_at (nth j indices 0%nat) + reals g (cursor g + j))).
Proof.
  induction indices as [|i rest IH]; intros ts g Hlt Hnd.
  - exists ts, g. simpl. unfold ret, same_draws. repeat split; auto.
    intros j Hj; lia.
  - inversion Hlt as [|? ? Hi Hrest]; subst. inversion Hnd as [|? ? Hni Hnd']; subst.
    destruct (add_at_ok ts i (TimeSeriesDataset.jump_at i + reals g (cursor g)) Hi)
      as (ts1 & E1 & Hl1 & Hn1 & Ho1).
    destruct (IH ts1 (advance g)) as (ts' & g' & E & Hl & Hsame & Ho & Hj); auto.
    { rewrite Hl1. exact Hrest. }
    exists ts', g'. split.
    { simpl. unfold bind, randn, lift. rewrite E1. exact E. }
    split; [congruence|]. split.
    { destruct Hsame as (? & ? & ? & ?). simpl in *. unfold same_draws.
      repeat split; auto. lia. }
    split.
    + intros j Hnj. simpl in Hnj. rewrite Ho by tauto. apply Ho1. intros ->. tauto.
    + intros [|j] Hlen; simpl in *.
      * rewrite Ho by auto. rewrite Hn1. now rewrite Nat.add_0_r.
      * rewrite Hj by lia. rewrite Ho1.
        -- simpl. do 3 f_equal. lia.
        -- intros Heq. apply Hni. rewrite <- Heq. apply nth_In. lia.
Qed.

Lemma in_range3 start stop i :
  In i (range start stop 3) ->
  exists k, i = (start + k * 3)%nat /\ (i < stop)%nat.
Proof.
  unfold range. intros H. apply in_map_iff in H as (k & <- & Hk).
  apply in_seq in Hk. exists k. split; auto.
  div_mod_3 (stop - start + 3 - 1)%nat. lia.
Qed.

Lemma NoDup_map_inj {A B} (f : A -> B) l :
  (forall a b, f a = f b -> a = b) -> NoDup l -> NoDup (map f l).
Proof.
  intros Hf. induction 1 as [|a l Ha _ IH]; simpl; constructor; auto.
  intros Hin. apply in_map_iff in Hin as (b & Hb & Hin).
  apply Hf in Hb. now subst.
Qed.

Lemma range3_NoDup start stop : NoDup (range start stop 3).
Proof.
  unfold range. apply NoDup_map_inj; [|apply seq_NoDup].
  intros a b H. lia.
Qed.

Lemma nth_range3 start stop j :
  (start + j * 3 < stop)%nat ->
  (j < length (range start stop 3))%nat /\
  nth j (range start stop 3) 0%nat = (start + j * 3)%nat.
Proof.
  intros H. unfold range. rewrite length_map, length_seq.
  assert (Hj : (j < (stop - start + 3 - 1) / 3)%nat)
    by (div_mod_3 (stop - start + 3 - 1)%nat; lia).
  split; auto.
  rewrite (nth_map_in _ _ _ _ 0%nat) by now rewrite length_seq.
  now rewrite seq_nth.
Qed.

Lemma jump_at_alternates i :
  (TimeSeriesDataset.jump_at i = 0 /\
   TimeSeriesDataset.jump_at (i + TimeSeriesDataset.val)
     = TimeSeriesDataset.initial_jump) \/
  (TimeSeriesDataset.jump_at i = TimeSeriesDataset.initial_jump /\
   TimeSeriesDataset.jump_at (i + TimeSeriesDataset.val) = 0).
Proof.
  unfold TimeSeriesDataset.jump_at, TimeSeriesDataset.val.
  div_mod_2 i. div_mod_2 (i + 3)%nat.
  destruct (Nat.eqb_spec (i mod 2) 1); destruct (Nat.eqb_spec ((i + 3) mod 2) 1);
    try (exfalso; lia); auto.
Qed.

Lemma sample_ok seq_len g :
  (nats g (cursor g) mod TimeSeriesDataset.val <= seq_len)%nat ->
  exists s g', TimeSeriesDataset.sample seq_len g = Ok (s, g') /\
               same_draws g g' /\ series_contract seq_len g s.
Proof.
  set (fj := (nats g (cursor g) mod TimeSeriesDataset.val)%nat). intros Hfj.
  assert (Hfj3 : (fj < 3)%nat) by (apply Nat.mod_upper_bound; discriminate).
  set (ts0 := repeat 0 (seq_len + 1)).
  destruct (add_at_ok ts0 fj
              (TimeSeriesDataset.initial_jump + reals g (S (cursor g))))
    as (ts1 & E1 & Hl1 & Hn1 & Ho1).
  { unfold ts0. rewrite repeat_length. lia. }
  assert (Hlen1 : length ts1 = (seq_len + 1)%nat)
    by (rewrite Hl1; apply repeat_length).
  set (indices := range (fj + 3) (seq_len + 1) 3).
  destruct (later_jumps_ok indices ts1 (advance (advance g)))
    as (s & g' & E & Hl & Hsame & Ho & Hj).
  { apply Forall_forall. intros i Hi. apply in_range3 in Hi as (k & _ & Hk). lia. }
  { apply range3_NoDup. }
  exists s, g'. split; [|split].
  2: { destruct Hsame as (? & ? & ? & ?). simpl in *. unfold same_draws.
       repeat split; auto. lia. }
  { unfold TimeSeriesDataset.sample, bind, lift.
    change (randint 0 TimeSeriesDataset.val g) with (Ok (fj, advance g)).
    cbv beta iota.
    change (randn (advance g))
      with (Ok (reals g (S (cursor g)), advance (advance g))).
    cbv beta iota. fold ts0. rewrite E1. exact E. }
  assert (Hzero : forall i, i <> fj -> ~ In i indices -> nth i s 0 = 0).
  { intros i Hi Hin. rewrite Ho, Ho1 by auto. apply nth_repeat. }
  unfold series_contract. fold fj. unfold TimeSeriesDataset.val.
  split; [congruence|]. split; [exact Hfj3|]. split; [|split; [|split; [|split]]].
  - intros i Hi. apply Hzero; [lia|].
    intros Hin. apply in_range3 in Hin as (k & Hk & _). lia.
  - rewrite Ho.
    + rewrite Hn1. unfold ts0. rewrite nth_repeat.
      now replace (cursor g + 1)%nat with (S (cursor g)) by lia.
    + intros Hin. apply in_range3 in Hin as (k & Hk & _). lia.
  - intros k Hk Hle.
    destruct (nth_range3 (fj + 3) (seq_len + 1) (k - 1)) as [Hlt Hnth]; [lia|].
    fold indices in Hlt, Hnth.
    replace (fj + k * 3)%nat with (nth (k - 1) indices 0%nat) by (rewrite Hnth; lia).
    rewrite Hj by auto. rewrite Ho1 by (rewrite Hnth; lia).
    unfold ts0. rewrite nth_repeat. simpl cursor.
    now replace (S (S (cursor g)) + (k - 1))%nat with (cursor g + 1 + k)%nat by lia.
  - apply jump_at_alternates.
  - intros i Hi Hmod. apply Hzero; [lia|].
    intros Hin. apply in_range3 in Hin as (k & Hk & _).
    apply Hmod. div_mod_3 (i - fj)%nat. lia.
Qed.

Lemma sample_raises seq_len g :
  (seq_len < nats g (cursor g) mod TimeSeriesDataset.val)%nat ->
  TimeSeriesDataset.sample seq_len g = Raise IndexError.
Proof.
  intros H. unfold TimeSeriesDataset.sample, bind, lift.
  change (randint 0 TimeSeriesDataset.val g)
    with (Ok ((nats g (cursor g) mod TimeSeriesDataset.val)%nat, advance g)).
  cbv beta iota.
  change (randn (advance g))
    with (Ok (reals g (S (cursor g)), advance (advance g))).
  cbv beta iota.
  rewrite add_at_out_of_range; auto. rewrite repeat_length. lia.
Qed.

Lemma replicateM_inv {A} (Inv : rng -> Prop) (P : A -> Prop) (m : M A) n :
  (forall g a g', Inv g -> m g = Ok (a, g') -> P a /\ Inv g') ->
  forall g l g', Inv g -> replicateM n m g = Ok (l, g') ->
                 length l = n /\ Forall P l /\ Inv g'.
Proof.
  intros Hm. induction n as [|n IH]; simpl; intros g l g' Hg H.
  - inv_run. auto.
  - inv_run. destruct (Hm _ _ _ Hg Hrun) as [Ha Hg0].
    destruct (IH _ _ _ Hg0 Hrun0) as (Hl & Hf & Hg1). simpl. auto.
Qed.

Lemma same_draws_trans g1 g2 g3 :
  same_draws g1 g2 -> same_draws g2 g3 -> same_draws g1 g3.
Proof.
  unfold same_draws. intros (? & ? & ? & ?) (? & ? & ? & ?).
  repeat split; try congruence. lia.
Qed.

Lemma sample_cases seq_len g a g' :
  TimeSeriesDataset.sample seq_len g = Ok (a, g') ->
  same_draws g g' /\ series_contract seq_len g a.
Proof.
  intros H.
  destruct (le_lt_dec (nats g (cursor g) mod TimeSeriesDataset.val) seq_len) as [Hle|Hlt].
  - destruct (sample_ok seq_len g Hle) as (s & g1 & E & Hs & Hc).
    rewrite E in H. inversion H; subst. auto.
  - rewrite sample_raises in H by auto. discriminate.
Qed.

Lemma dataset_contract_holds seq_len num_samples g ds g' :
  TimeSeriesDataset.init seq_len num_samples g = Ok (ds, g') ->
  dataset_contract seq_len num_samples g ds.
Proof.
  unfold TimeSeriesDataset.init. intros H. inv_run.
  apply (replicateM_inv (same_draws g)
           (fun s => exists g0, same_draws g g0 /\ series_contract seq_len g0 s))
    in Hrun as (Hlen & Hall & _).
  - unfold dataset_contract, TimeSeriesDataset.len. simpl.
    split; auto. split; auto.
    intros idx Hidx. rewrite <- Hlen in Hidx.
    destruct (nth_error a idx) as [s|] eqn:E;
      [|apply nth_error_None in E; lia].
    exists s. split; auto.
    rewrite Forall_forall in Hall.
    destruct (Hall s (nth_error_In _ _ E)) as (gen & _ & Hs & _).
    split; auto.
    unfold TimeSeriesDataset.getitem. simpl. rewrite E.
    destruct (@exists_last _ s) as (s' & z & Es).
    { intros ->. simpl in Hs. lia. }
    subst s. rewrite length_app in Hs. simpl in Hs.
    assert (Hs' : length s' = seq_len) by lia.
    rewrite removelast_last, last_last.
    rewrite <- Hs' at 1. rewrite firstn_app, firstn_all, Nat.sub_diag. simpl.
    rewrite app_nil_r, app_nth2 by lia. rewrite Hs', Nat.sub_diag. simpl.
    destruct (s' ++ [z]) eqn:E'; [destruct s'; discriminate|]. reflexivity.
  - intros gen s gen' Hgen Hsample.
    destruct (sample_cases _ _ _ _ Hsample) as [Hs Hc].
    split; [eauto|]. eapply same_draws_trans; eauto.
  - unfold same_draws. repeat split; auto.
Qed.

Lemma dataset_init_total seq_len num_samples g :
  (TimeSeriesDataset.val - 1 <= seq_len)%nat ->
  exists ds g', TimeSeriesDataset.init seq_len num_samples g = Ok (ds, g').
Proof.
  intros Hlen. unfold TimeSeriesDataset.init, bind.
  destruct (replicateM_total (TimeSeriesDataset.sample seq_len) num_samples)
    with (g := g) as (l & g' & E).
  - intros g0. destruct (sample_ok seq_len g0) as (s & g1 & E & _); eauto.
    pose proof (Nat.mod_upper_bound (nats g0 (cursor g0)) TimeSeriesDataset.val).
    unfold TimeSeriesDataset.val in *. lia.
  - rewrite E. unfold ret. eauto.
Qed.

(** C9: every generated series has length seq_len + 1, is exactly 0 before
    its first jump index, which lies in [0, 3); the later jumps follow every 3
    steps, the increment alternating between 0 and 5, plus noise, and every
    other position stays 0; an item is the series without its final value
    together with the final value as the target.  For seq_len >= 2 the
    constructor succeeds. *)
Theorem time_series_dataset_contract seq_len num_samples g :
  ((TimeSeriesDataset.val - 1 <= seq_len)%nat ->
   exists ds g', TimeSeriesDataset.init seq_len num_samples g = Ok (ds, g')) /\
  (forall ds g',
     TimeSeriesDataset.init seq_len num_samples g = Ok (ds, g') ->
     dataset_contract seq_len num_samples g ds).
Proof.
  split.
  - apply dataset_init_total.
  - apply dataset_contract_holds.
Qed.

Lemma time_series_dataset_contract_witness :
  exists ds g',
    TimeSeriesDataset.init 40 1 example_rng = Ok (ds, g') /\
    dataset_contract 40 1 example_rng ds.
Proof.
  destruct (time_series_dataset_contract 40 1 example_rng) as [Htotal Hcontract].
  destruct (Htotal ltac:(simpl; lia)) as (ds & g' & E).
  exists ds, g'. split; [exact E|]. exact (Hcontract ds g' E).
Defined.

(** ** Registration of parameters *)

Lemma key_eqb_eq a b : key_eqb a b = true -> a = b.
Proof.
  destruct a, b; simpl; try discriminate; intros H.
  - apply String.eqb_eq in H. congruence.
  - apply Nat.eqb_eq in H. congruence.
Qed.

Lemma named_parameters_prefix :
  forall a prefix path v,
    In (path, v) (named_parameters prefix a) -> exists rest, path = prefix ++ rest.
Proof.
  fix IH 1. intros [|t|t|t|children] prefix path v H; simpl in H;
    try contradiction.
  - destruct H as [H|[]]. inversion H. exists []. now rewrite app_nil_r.
  - induction children as [|[k c] cs IHcs]; simpl in H; [contradiction|].
    apply in_app_or in H as [H|H].
    + apply IH in H as (rest & ->). exists (k :: rest). now rewrite <- app_assoc.
    + apply IHcs. exact H.
Qed.

Lemma named_buffers_prefix :
  forall a prefix path v,
    In (path, v) (named_buffers prefix a) -> exists rest, path = prefix ++ rest.
Proof.
  fix IH 1. intros [|t|t|t|children] prefix path v H; simpl in H;
    try contradiction.
  - destruct H as [H|[]]. inversion H. exists []. now rewrite app_nil_r.
  - induction children as [|[k c] cs IHcs]; simpl in H; [contradiction|].
    apply in_app_or in H as [H|H].
    + apply IH in H as (rest & ->). exists (k :: rest). now rewrite <- app_assoc.
    + apply IHcs. exact H.
Qed.

Lemma get_attr_update f prefix k children :
  get_attr k (map (fun kc : key * attr =>
                     let '(k', c) := kc in
                     (k', update_parameters f (prefix ++ [k']) c)) children) =
  option_map (update_parameters f (prefix ++ [k])) (get_attr k children).
Proof.
  induction children as [|[k' c] cs IH]; simpl; auto.
  destruct (key_eqb k k') eqn:E; auto.
  apply key_eqb_eq in E. now subst.
Qed.

Lemma get_path_update f path :
  forall prefix a,
    get_path path (update_parameters f prefix a) =
    option_map (update_parameters f (prefix ++ path)) (get_path path a).
Proof.
  induction path as [|k rest IH]; intros prefix a; simpl.
  - now rewrite app_nil_r.
  - destruct a; simpl; auto.
    rewrite get_attr_update. destruct (get_attr k children); simpl; auto.
    rewrite IH, <- app_assoc. reflexivity.
Qed.

Lemma get_attr_module_list ms :
  forall s i, get_attr (Item (s + i)) (module_list_from s ms) = nth_error ms i.
Proof.
  induction ms as [|m ms IH]; intros s i; simpl.
  - now destruct i.
  - destruct i as [|i]; simpl.
    + now rewrite Nat.add_0_r, Nat.eqb_refl.
    + replace (s + S i =? s)%nat with false by (symmetry; apply Nat.eqb_neq; lia).
      replace (s + S i)%nat with (S s + i)%nat by lia. apply IH.
Qed.

Lemma get_rel_path m i blk :
  nth_error (Transformer.encoder_layers m) i = Some blk ->
  get_path (rel_path i) (Transformer_module m) =
  Some (ATensor (T3 (rel_layer (block_unit blk)))).
Proof.
  intros H. unfold rel_path, Transformer_module.
  assert (E : forall pre,
             get_attr (Name "encoder_layers")
               ([(Name "positional_encoding", APlain);
                 (Name "embedding", Linear_module (Transformer.embedding m))]
                ++ pre
                ++ [(Name "encoder_layers",
                     ModuleList (map TransformerEncoderBlock_module
                                     (Transformer.encoder_layers m)));
                    (Name "fc_out", Linear_module (Transformer.fc_out m))]) =
             match get_attr (Name "encoder_layers") pre with
             | Some c => Some c
             | None => Some (ModuleList (map TransformerEncoderBlock_module
                                             (Transformer.encoder_layers m)))
             end).
  { assert (E1 : key_eqb (Name "encoder_layers") (Name "positional_encoding") = false)
      by reflexivity.
    assert (E2 : key_eqb (Name "encoder_layers") (Name "embedding") = false)
      by reflexivity.
    assert (E3 : key_eqb (Name "encoder_layers") (Name "encoder_layers") = true)
      by reflexivity.
    intros pre. cbn [app get_attr]. rewrite E1, E2.
    induction pre as [|[k c] pre IH]; cbn [app get_attr].
    - now rewrite E3.
    - destruct (key_eqb (Name "encoder_layers") k); auto. }
  assert (E4 : key_eqb (Name "encoder_layers") (Name "pos_encoder") = false)
    by reflexivity.
  cbn [get_path]. rewrite E.
  destruct (Transformer.pos_encoder m); cbn [get_attr]; rewrite ?E4;
    unfold ModuleList;
    rewrite (get_attr_module_list _ 0 i), nth_error_map, H; reflexivity.
Qed.

Lemma last_app_single {A} (l : list A) a d : last (l ++ [a]) d = a.
Proof. apply last_last. Qed.

Ltac last_is_weight_or_bias H :=
  simpl in H;
  repeat (destruct H as [H|H];
          [inversion H; try rewrite last_app_single; simpl; auto|]);
  try contradiction.

Lemma Linear_parameter_names prefix l path v :
  In (path, v) (named_parameters prefix (Linear_module l)) ->
  last path (Name "") = Name "weight" \/ last path (Name "") = Name "bias".
Proof. intros H. last_is_weight_or_bias H. Qed.

Lemma Block_parameter_names prefix b path v :
  In (path, v) (named_parameters prefix (TransformerEncoderBlock_module b)) ->
  last path (Name "") = Name "weight" \/ last path (Name "") = Name "bias".
Proof. intros H. last_is_weight_or_bias H. Qed.

Lemma ModuleList_parameter_names layers :
  forall prefix s path v,
    In (path, v)
       (named_parameters prefix
          (AModule (module_list_from s (map TransformerEncoderBlock_module layers)))) ->
    last path (Name "") = Name "weight" \/ last path (Name "") = Name "bias".
Proof.
  induction layers as [|b layers IH]; intros prefix s path v H.
  - simpl in H. contradiction.
  - cbn [map module_list_from named_parameters flat_map] in H.
    apply in_app_or in H as [H|H].
    + eapply Block_parameter_names; eauto.
    + eapply (IH prefix (S s)). exact H.
Qed.

Lemma Block_has_no_buffers prefix b :
  named_buffers prefix (TransformerEncoderBlock_module b) = [].
Proof. reflexivity. Qed.

Lemma ModuleList_has_no_buffers layers :
  forall prefix s,
    named_buffers prefix
      (AModule (module_list_from s (map TransformerEncoderBlock_module layers))) = [].
Proof.
  induction layers as [|b layers IH]; intros prefix s; auto.
  cbn [map module_list_from named_buffers flat_map].
  rewrite Block_has_no_buffers. apply (IH prefix (S s)).
Qed.

Lemma Transformer_parameter_names m path v :
  In (path, v) (named_parameters [] (Transformer_module m)) ->
  hd (Name "") path = Name "pos_encoder" \/
  last path (Name "") = Name "weight" \/ last path (Name "") = Name "bias".
Proof.
  unfold Transformer_module. cbn [named_parameters]. rewrite !flat_map_app.
  intros H. apply in_app_or in H as [H|H]; [|apply in_app_or in H as [H|H]].
  - right. last_is_weight_or_bias H.
  - left. destruct (Transformer.pos_encoder m) as [enc|]; [|contradiction].
    cbn [flat_map] in H. rewrite app_nil_r in H.
    apply named_parameters_prefix in H as (rest & ->). reflexivity.
  - right. cbn [flat_map] in H. rewrite app_nil_r in H.
    apply in_app_or in H as [H|H].
    + unfold ModuleList in H. eapply ModuleList_parameter_names; eauto.
    + eapply Linear_parameter_names; eauto.
Qed.

Lemma Transformer_buffer_names m path v :
  In (path, v) (named_buffers [] (Transformer_module m)) ->
  hd (Name "") path = Name "pos_encoder".
Proof.
  unfold Transformer_module. cbn [named_buffers]. rewrite !flat_map_app.
  intros H. apply in_app_or in H as [H|H]; [|apply in_app_or in H as [H|H]].
  - simpl in H. contradiction.
  - destruct (Transformer.pos_encoder m) as [enc|]; [|contradiction].
    cbn [flat_map] in H. rewrite app_nil_r in H.
    apply named_buffers_prefix in H as (rest & ->). reflexivity.
  - cbn [flat_map] in H. unfold ModuleList in H.
    rewrite ModuleList_has_no_buffers in H. simpl in H. contradiction.
Qed.

Lemma rel_path_not_registered m i :
  ~ In (rel_path i) (map fst (named_parameters [] (Transformer_module m))) /\
  ~ In (rel_path i) (map fst (state_dict (Transformer_module m))).
Proof.
  assert (Hp : ~ In (rel_path i)
                 (map fst (named_parameters [] (Transformer_module m)))).
  { intros H. apply in_map_iff in H as ([path v] & Hpath & H). simpl in Hpath.
    subst path. apply Transformer_parameter_names in H.
    simpl in H. destruct H as [H|[H|H]]; discriminate H. }
  split; auto.
  unfold state_dict. rewrite map_app. intros H. apply in_app_or in H as [H|H]; auto.
  apply in_map_iff in H as ([path v] & Hpath & H). simpl in Hpath. subst path.
  apply Transformer_buffer_names in H. discriminate H.
Qed.

(** C10: the relative bias of every block is a plain tensor of shape
    (1, seq_len, seq_len) drawn at construction; it is registered neither as a
    parameter nor as a buffer, so its name is not among the model's
    parameters nor in its saved state, and a step that updates the model's
    parameters leaves it at its initial value. *)
Theorem relative_bias_is_not_a_parameter
        input d dff N L pe p max_len g m g' i :
  Transformer.init input d dff N L pe p max_len g = Ok (m, g') ->
  (i < N)%nat ->
  exists blk,
    nth_error (Transformer.encoder_layers m) i = Some blk /\
    bias_unregistered L m i blk.
Proof.
  intros Hinit Hi.
  destruct (Transformer_init_ok _ _ _ _ _ _ _ _ _ _ _ Hinit) as (Hwf & Hlen & _).
  destruct Hwf as (_ & Hlayers & _).
  destruct (nth_error (Transformer.encoder_layers m) i) as [blk|] eqn:E;
    [|apply nth_error_None in E; lia].
  exists blk. split; auto.
  rewrite Forall_forall in Hlayers.
  destruct (Hlayers blk (nth_error_In _ _ E)) as ((_ & _ & _ & Ha & _) & _).
  destruct Ha as (_ & _ & Hrel).
  destruct (rel_path_not_registered m i) as [Hp Hs].
  pose proof (get_rel_path m i blk E) as Hget.
  unfold bias_unregistered. split; [exact Hrel|]. split; [exact Hget|].
  split; [exact Hp|]. split; [exact Hs|].
  intros f. rewrite get_path_update, Hget. reflexivity.
Qed.

Lemma relative_bias_is_not_a_parameter_witness :
  exists m g' blk,
    Transformer.init 1 2 3 2 2 None (1 # 10) 5000 example_rng = Ok (m, g') /\
    nth_error (Transformer.encoder_layers m) 1 = Some blk /\
    bias_unregistered 2 m 1 blk.
Proof.
  assert (Hinit : exists m g',
             Transformer.init 1 2 3 2 2 None (1 # 10) 5000 example_rng = Ok (m, g')).
  { eexists. eexists. run_init. }
  destruct Hinit as (m & g' & Hinit).
  destruct (relative_bias_is_not_a_parameter
              1 2 3 2 2 None (1 # 10) 5000 example_rng m g' 1 Hinit ltac:(lia))
    as (blk & Hblk & Hc).
  exists m, g', blk. auto.
Defined.


(** * Further properties *)

(** ** Sums *)

Lemma sum_map_le {A} (f g : A -> R) l :
  (forall x, In x l -> f x <= g x) -> sum (map f l) <= sum (map g l).
Proof.
  induction l as [|a l IH]; simpl; intros H; [lra|].
  pose proof (H a (or_introl eq_refl)). assert (sum (map f l) <= sum (map g l)) by auto.
  lra.
Qed.

Lemma sum_map_nonneg {A} (f : A -> R) l :
  (forall x, In x l -> 0 <= f x) -> 0 <= sum (map f l).
Proof.
  induction l as [|a l IH]; simpl; intros H; [lra|].
  pose proof (H a (or_introl eq_refl)). assert (0 <= sum (map f l)) by auto. lra.
Qed.

Lemma sum_map_term_le {A} (f : A -> R) l x :
  (forall y, In y l -> 0 <= f y) -> In x l -> f x <= sum (map f l).
Proof.
  induction l as [|a l IH]; simpl; intros H Hin; [contradiction|].
  pose proof (H a (or_introl eq_refl)).
  assert (0 <= sum (map f l)) by (apply sum_map_nonneg; auto).
  destruct Hin as [->|Hin]; [lra|].
  assert (f x <= sum (map f l)) by auto. lra.
Qed.

Lemma sum_map_scale {A} (f : A -> R) c l :
  sum (map (fun x => c * f x) l) = c * sum (map f l).
Proof. induction l; simpl; [lra|]. rewrite IHl. lra. Qed.

Lemma sum_map_const {A} (c : R) (l : list A) :
  sum (map (fun _ => c) l) = INR (length l) * c.
Proof.
  induction l as [|a l IH]; [simpl; lra|].
  change (length (a :: l)) with (S (length l)). rewrite S_INR. simpl. rewrite IH. lra.
Qed.

Lemma bigsum_le n f g :
  (forall i, (i < n)%nat -> f i <= g i) -> bigsum n f <= bigsum n g.
Proof.
  intros H. apply sum_map_le. intros i Hi. apply in_seq in Hi. apply H. lia.
Qed.

Lemma bigsum_scale n c f : bigsum n (fun j => c * f j) = c * bigsum n f.
Proof. apply sum_map_scale. Qed.

Lemma bigsum_const n c : bigsum n (fun _ => c) = INR n * c.
Proof. unfold bigsum. now rewrite sum_map_const, length_seq. Qed.

Lemma bigsum_exp_pos n s : (0 < n)%nat -> 0 < bigsum n (fun j => exp (s j)).
Proof.
  intros Hn. unfold bigsum. rewrite <- (map_map s exp).
  apply sum_exp_pos. destruct n; [lia|]. discriminate.
Qed.

Lemma attention_weight_bounds s L b i j :
  (j < L)%nat -> 0 < attention_weight s L b i j <= 1.
Proof.
  intros Hj. unfold attention_weight.
  assert (Hpos : 0 < bigsum L (fun j' => exp (s b i j')))
    by (apply (bigsum_exp_pos L (s b i)); lia).
  pose proof (exp_pos (s b i j)) as He.
  assert (Hle : exp (s b i j) <= bigsum L (fun j' => exp (s b i j'))).
  { apply (sum_map_term_le (fun j' => exp (s b i j'))).
    - intros y _. left. apply exp_pos.
    - apply in_seq. lia. }
  split.
  - apply Rdiv_lt_0_compat; auto.
  - apply (Rmult_le_reg_r (bigsum L (fun j' => exp (s b i j')))); auto.
    unfold Rdiv. rewrite Rmult_assoc, Rinv_l by lra. lra.
Qed.

Lemma bigsum_attention_weight s L b i :
  (0 < L)%nat -> bigsum L (attention_weight s L b i) = 1.
Proof.
  intros HL. unfold attention_weight.
  pose proof (bigsum_exp_pos L (s b i) HL) as Hpos.
  rewrite (bigsum_ext _ _ (fun j => / bigsum L (fun j' => exp (s b i j')) * exp (s b i j)))
    by (intros; unfold Rdiv; apply Rmult_comm).
  rewrite bigsum_scale. apply Rinv_l. lra.
Qed.

(** ** The attention unit: shape errors *)

(** X1: query and key of different feature widths are rejected with the
    backend's shape error, whatever the value tensor and the bias. *)
Theorem attention_rejects_feature_mismatch self q k v B L d B' L' d' :
  shape3 q = Some (B, L, d) -> shape3 k = Some (B', L', d') ->
  (0 < d)%nat -> (0 < d')%nat -> d <> d' ->
  forward self q k v = Raise RuntimeError.
Proof.
  intros Sq Sk Hd Hd' Hne. destruct (shape3_pos _ _ _ _ Sk Hd') as [HB' HL'].
  pose proof (shape3_is_tensor _ _ _ _ Sk) as Tk.
  pose proof (transpose_is_tensor _ _ _ _ Tk HL') as Tt.
  unfold forward, matmul. rewrite Sq, (is_tensor_shape3 _ _ _ _ Tt HB' Hd').
  replace (d =? d')%nat with false by (symmetry; apply Nat.eqb_neq; auto).
  rewrite andb_false_r. reflexivity.
Qed.

Lemma attention_rejects_feature_mismatch_witness :
  shape3 (zeros3 2 3 4) = Some (2, 3, 4)%nat /\
  forward (mk 4 3 true []) (zeros3 2 3 4) (zeros3 2 3 5) (zeros3 2 3 4)
    = Raise RuntimeError.
Proof.
  split; [reflexivity|].
  apply (attention_rejects_feature_mismatch _ _ _ _ 2 3 4 2 3 5);
    try reflexivity; lia.
Defined.

(** X2: a value tensor (of positive width) whose sequence length differs
    from the keys' is rejected with the backend's shape error, after the
    weights were computed. *)
Theorem attention_rejects_value_length_mismatch self B L q k v Bv Lv dv :
  shape3 q = Some (B, L, d_k self) -> shape3 k = Some (B, L, d_k self) ->
  shape3 v = Some (Bv, Lv, dv) ->
  (0 < d_k self)%nat -> (0 < dv)%nat -> bias_ready self L -> Lv <> L ->
  forward self q k v = Raise RuntimeError.
Proof.
  intros Sq Sk Sv Hd Hdv Hrel Hne. destruct (shape3_pos _ _ _ _ Sq Hd) as [HB HL].
  apply shape3_is_tensor in Sq, Sk.
  pose proof (scores_of_is_tensor _ _ _ _ _ Sq Sk HL Hd Hrel) as Hs.
  pose proof (softmax_is_tensor _ _ _ _ Hs) as Hw.
  pose proof (raw_scores_is_tensor _ _ _ _ _ Sq Sk HL Hd) as Hraw.
  assert (Hfinal : matmul (softmax (scores_of self q k)) v = Raise RuntimeError).
  { unfold matmul. rewrite (is_tensor_shape3 _ _ _ _ Hw HB HL), Sv.
    replace (L =? Lv)%nat with false by (symmetry; apply Nat.eqb_neq; auto).
    now rewrite andb_false_r. }
  unfold forward.
  rewrite (matmul_ok B L (d_k self) L) by (auto; now apply transpose_is_tensor).
  cbn [rbind]. fold (raw_scores (d_k self) q k).
  unfold scores_of in Hfinal.
  destruct (other_positional_encodings_present self) eqn:E; cbn [negb rbind].
  - now rewrite Hfinal.
  - rewrite (add_bias_ok B L) by auto. cbn [rbind]. now rewrite Hfinal.
Qed.

Lemma attention_rejects_value_length_mismatch_witness :
  shape3 (zeros3 2 3 4) = Some (2, 3, 4)%nat /\
  forward (mk 4 3 true []) (zeros3 2 3 4) (zeros3 2 3 4) (zeros3 2 5 4)
    = Raise RuntimeError.
Proof.
  split; [reflexivity|].
  apply (attention_rejects_value_length_mismatch (mk 4 3 true []) 2 3 _ _ _ 2 5 4);
    try reflexivity; try (simpl; lia). intros E; discriminate E.
Defined.

Lemma bias_length_mismatch self B L S q k v :
  other_positional_encodings_present self = false ->
  shape3 (rel_layer self) = Some (1, S, S)%nat ->
  shape3 q = Some (B, L, d_k self) -> shape3 k = Some (B, L, d_k self) ->
  (0 < d_k self)%nat -> (1 < L)%nat -> (1 < S)%nat -> L <> S ->
  forward self q k v = Raise RuntimeError.
Proof.
  intros Hflag Srel Sq Sk Hd HL HS Hne. destruct (shape3_pos _ _ _ _ Sq Hd) as [HB _].
  apply shape3_is_tensor in Sq, Sk.
  pose proof (raw_scores_is_tensor _ _ _ _ _ Sq Sk ltac:(lia) Hd) as Hraw.
  unfold forward.
  rewrite (matmul_ok B L (d_k self) L) by (auto; try lia; apply transpose_is_tensor; auto; lia).
  cbn [rbind]. fold (raw_scores (d_k self) q k). rewrite Hflag. cbn [negb].
  unfold add. rewrite (is_tensor_shape3 _ _ _ _ Hraw HB ltac:(lia)), Srel.
  assert (Hb : broadcastable L S = false).
  { unfold broadcastable.
    replace (L =? S)%nat with false by (symmetry; apply Nat.eqb_neq; auto).
    replace (L =? 1)%nat with false by (symmetry; apply Nat.eqb_neq; lia).
    replace (S =? 1)%nat with false by (symmetry; apply Nat.eqb_neq; lia).
    reflexivity. }
  rewrite Hb, !andb_false_r. reflexivity.
Qed.

(** X3: a unit whose relative bias is active accepts only the sequence length
    it was built for: for lengths of at least 2 on both sides, a different
    input length is rejected with the backend's shape error. *)
Theorem attention_bias_rejects_other_lengths self B L S q k v :
  other_positional_encodings_present self = false ->
  shape3 (rel_layer self) = Some (1, S, S)%nat ->
  shape3 q = Some (B, L, d_k self) -> shape3 k = Some (B, L, d_k self) ->
  (0 < d_k self)%nat -> (1 < L)%nat -> (1 < S)%nat -> L <> S ->
  forward self q k v = Raise RuntimeError.
Proof. apply bias_length_mismatch. Qed.

Lemma attention_bias_rejects_other_lengths_witness :
  shape3 (rel_layer bias_unit) = Some (1, 2, 2)%nat /\
  forward bias_unit (zeros3 2 3 1) (zeros3 2 3 1) (zeros3 2 3 1)
    = Raise RuntimeError.
Proof.
  split; [reflexivity|].
  apply (attention_bias_rejects_other_lengths bias_unit 2 3 2);
    try reflexivity; simpl; lia.
Defined.

(** ** The attention unit: the divisor *)

Lemma raw_scores_is_tensor_gen B L d dk q k :
  is_tensor B L d q -> is_tensor B L d k -> (0 < L)%nat -> (0 < d)%nat ->
  is_tensor B L L (raw_scores dk q k).
Proof.
  intros Hq Hk HL Hd. unfold raw_scores, div_scalar. apply map3_is_tensor.
  apply (matmul_is_tensor B L d L); auto. now apply transpose_is_tensor.
Qed.

Lemma get3_raw_scores_gen B L d dk q k b i j :
  is_tensor B L d q -> is_tensor B L d k -> (0 < L)%nat -> (0 < d)%nat ->
  (b < B)%nat -> (i < L)%nat -> (j < L)%nat ->
  get3 (raw_scores dk q k) b i j = score_scaled dk d q k b i j.
Proof.
  intros Hq Hk HL Hd Hb Hi Hj. unfold raw_scores, div_scalar, score_scaled.
  pose proof (transpose_is_tensor _ _ _ _ Hk HL) as Ht.
  rewrite (get3_map3 _ B L L) by (auto; apply (matmul_is_tensor B L d L); auto).
  f_equal. rewrite (get3_matmul B L d L) by auto.
  apply bigsum_ext. intros c Hc. f_equal.
  now apply (get3_transpose B L d).
Qed.

(** X4: the divisor of the scores is the square root of the [d_k] the unit was
    constructed with, also when the inputs have another feature width: the
    weights are the softmax of (sum over the width of q.k) / sqrt(self.d_k). *)
Theorem attention_divides_by_configured_d_k self B L d dv q k v :
  other_positional_encodings_present self = true ->
  (0 < d_k self)%nat -> (0 < d)%nat ->
  shape3 q = Some (B, L, d) -> shape3 k = Some (B, L, d) ->
  shape3 v = Some (B, L, dv) ->
  exists output weights,
    forward self q k v = Ok (output, weights) /\
    forall b i j, (b < B)%nat -> (i < L)%nat -> (j < L)%nat ->
      get3 weights b i j
      = attention_weight (score_scaled (d_k self) d q k) L b i j.
Proof.
  intros Hflag Hdk Hd Sq Sk Sv. destruct (shape3_pos _ _ _ _ Sq Hd) as [HB HL].
  apply shape3_is_tensor in Sq, Sk, Sv.
  pose proof (raw_scores_is_tensor_gen B L d (d_k self) q k Sq Sk HL Hd) as Hs.
  exists (zip_with matmul2 (softmax (raw_scores (d_k self) q k)) v),
         (softmax (raw_scores (d_k self) q k)).
  split.
  - unfold forward.
    rewrite (matmul_ok B L d L) by (auto; now apply transpose_is_tensor).
    cbn [rbind]. fold (raw_scores (d_k self) q k). rewrite Hflag. cbn [negb rbind].
    rewrite (matmul_ok B L L dv); auto. now apply softmax_is_tensor.
  - intros b i j Hb Hi Hj. rewrite (get3_softmax B L L) by auto.
    apply attention_weight_ext; auto. intros j' Hj'.
    now apply (get3_raw_scores_gen B L d).
Qed.

Lemma attention_divides_by_configured_d_k_witness :
  shape3 (zeros3 2 3 8) = Some (2, 3, 8)%nat /\
  exists output weights,
    forward (mk 16 3 true []) (zeros3 2 3 8) (zeros3 2 3 8) (zeros3 2 3 5)
      = Ok (output, weights) /\
    forall b i j, (b < 2)%nat -> (i < 3)%nat -> (j < 3)%nat ->
      get3 weights b i j
      = attention_weight (score_scaled 16 8 (zeros3 2 3 8) (zeros3 2 3 8)) 3 b i j.
Proof.
  split; [reflexivity|].
  apply (attention_divides_by_configured_d_k (mk 16 3 true []) 2 3 8 5);
    try reflexivity; simpl; lia.
Defined.

(** ** The attention unit: what the weights and the output can be *)



(** X6: every output entry is a weighted average of the value entries of its
    batch element and channel: it lies between any lower and upper bound of
    those entries. *)
Theorem attention_output_within_values self B L dv q k v :
  (0 < d_k self)%nat -> (0 < dv)%nat ->
  shape3 q = Some (B, L, d_k self) -> shape3 k = Some (B, L, d_k self) ->
  shape3 v = Some (B, L, dv) -> bias_ready self L ->
  exists output weights,
    forward self q k v = Ok (output, weights) /\
    forall b i c lo hi, (b < B)%nat -> (i < L)%nat -> (c < dv)%nat ->
      (forall j, (j < L)%nat -> lo <= get3 v b j c <= hi) ->
      lo <= get3 output b i c <= hi.
Proof.
  intros Hd Hdv Sq Sk Sv Hrel.
  destruct (shape3_pos _ _ _ _ Sq Hd) as [HB HL].
  destruct (attention_contract_holds self B L dv q k v Hd Hdv Sq Sk Sv Hrel)
    as (output & weights & E & _ & _ & Hw & Ho).
  exists output, weights. split; auto.
  intros b i c lo hi Hb Hi Hc Hv. rewrite Ho by auto.
  set (s := if other_positional_encodings_present self
            then score (d_k self) q k else biased_score self q k) in *.
  rewrite (bigsum_ext _ _ (fun j => attention_weight s L b i j * get3 v b j c))
    by (intros j Hj; now rewrite Hw).
  pose proof (bigsum_attention_weight s L b i HL) as Hone.
  assert (Hlo : bigsum L (fun j => lo * attention_weight s L b i j)
                <= bigsum L (fun j => attention_weight s L b i j * get3 v b j c)).
  { apply bigsum_le. intros j Hj.
    destruct (attention_weight_bounds s L b i j Hj) as [Hp _].
    destruct (Hv j Hj) as [H1 _]. nra. }
  assert (Hhi : bigsum L (fun j => attention_weight s L b i j * get3 v b j c)
                <= bigsum L (fun j => hi * attention_weight s L b i j)).
  { apply bigsum_le. intros j Hj.
    destruct (attention_weight_bounds s L b i j Hj) as [Hp _].
    destruct (Hv j Hj) as [_ H2]. nra. }
  rewrite bigsum_scale, Hone in Hlo, Hhi. lra.
Qed.

Lemma attention_output_within_values_witness :
  shape3 (zeros3 1 2 1) = Some (1, 2, 1)%nat /\
  exists output weights,
    forward bias_unit (zeros3 1 2 1) (zeros3 1 2 1) one_hot_values
      = Ok (output, weights) /\
    forall b i c lo hi, (b < 1)%nat -> (i < 2)%nat -> (c < 1)%nat ->
      (forall j, (j < 2)%nat -> lo <= get3 one_hot_values b j c <= hi) ->
      lo <= get3 output b i c <= hi.
Proof.
  split; [reflexivity|].
  apply (attention_output_within_values bias_unit 1 2 1);
    try reflexivity; try (simpl; lia).
  intros _. apply shape3_is_tensor. reflexivity.
Defined.

(** ** The attention unit: batch elements and the order of keys *)

Lemma singleton_is_tensor B n k t b :
  is_tensor B n k t -> (b < B)%nat -> is_tensor 1 n k [nth b t []].
Proof.
  intros Ht Hb. split; [reflexivity|].
  constructor; [now apply (is_tensor_nth B)|constructor].
Qed.

Lemma get3_singleton (t : tensor3) b i j :
  get3 [nth b t []] 0 i j = get3 t b i j.
Proof. reflexivity. Qed.

(** X7: batch elements do not interact: calling the unit on batch element [b]
    alone gives exactly the slices [b] of the output and of the weights of
    the whole batch, in both bias configurations. *)
Theorem attention_batch_elements_independent self B L dv q k v b :
  (0 < d_k self)%nat ->
  shape3 q = Some (B, L, d_k self) -> shape3 k = Some (B, L, d_k self) ->
  shape3 v = Some (B, L, dv) -> bias_ready self L -> (b < B)%nat ->
  exists output weights,
    forward self q k v = Ok (output, weights) /\
    forward self [nth b q []] [nth b k []] [nth b v []]
      = Ok ([nth b output []], [nth b weights []]).
Proof.
  intros Hd Sq Sk Sv Hrel Hb. destruct (shape3_pos _ _ _ _ Sq Hd) as [HB HL].
  apply shape3_is_tensor in Sq, Sk, Sv.
  pose proof (singleton_is_tensor _ _ _ _ b Sq Hb) as Sq1.
  pose proof (singleton_is_tensor _ _ _ _ b Sk Hb) as Sk1.
  pose proof (singleton_is_tensor _ _ _ _ b Sv Hb) as Sv1.
  do 2 eexists. split; [now apply (forward_eq self B L dv)|].
  rewrite (forward_eq self 1 L dv) by (auto; lia).
  pose proof (scores_of_is_tensor self B L q k Sq Sk HL Hd Hrel) as Hs.
  pose proof (scores_of_is_tensor self 1 L _ _ Sq1 Sk1 HL Hd Hrel) as Hs1.
  pose proof (softmax_is_tensor _ _ _ _ Hs) as Hw.
  pose proof (softmax_is_tensor _ _ _ _ Hs1) as Hw1.
  assert (Hsc : forall i j, (i < L)%nat -> (j < L)%nat ->
            get3 (scores_of self [nth b q []] [nth b k []]) 0 i j
            = get3 (scores_of self q k) b i j).
  { intros i j Hi Hj.
    rewrite (get3_scores_of self 1 L) by (auto; lia).
    rewrite (get3_scores_of self B L) by auto.
    reflexivity. }
  assert (EW : softmax (scores_of self [nth b q []] [nth b k []])
               = [nth b (softmax (scores_of self q k)) []]).
  { apply (tensor_ext 1 L L); auto.
    - now apply (singleton_is_tensor B).
    - intros b0 i j Hb0 Hi Hj. assert (b0 = 0)%nat by lia. subst b0.
      rewrite get3_singleton.
      rewrite (get3_softmax 1 L L) by (auto; lia).
      rewrite (get3_softmax B L L) by auto.
      unfold attention_weight. rewrite Hsc by auto. f_equal.
      apply bigsum_ext. intros j' Hj'. now rewrite Hsc. }
  rewrite EW. f_equal. f_equal.
  apply (tensor_ext 1 L dv).
  - apply (matmul_is_tensor 1 L L dv); auto. now apply (singleton_is_tensor B).
  - apply (singleton_is_tensor B); auto. now apply (matmul_is_tensor B L L dv).
  - intros b0 i c Hb0 Hi Hc. assert (b0 = 0)%nat by lia. subst b0.
    rewrite get3_singleton.
    rewrite (get3_matmul 1 L L dv); auto; [|now apply (singleton_is_tensor B)].
    rewrite (get3_matmul B L L dv); auto.
Qed.

Lemma attention_batch_elements_independent_witness :
  shape3 (zeros3 2 3 2) = Some (2, 3, 2)%nat /\
  exists output weights,
    forward (mk 2 3 true []) (zeros3 2 3 2) (zeros3 2 3 2) (zeros3 2 3 4)
      = Ok (output, weights) /\
    forward (mk 2 3 true []) [nth 1 (zeros3 2 3 2) []] [nth 1 (zeros3 2 3 2) []]
            [nth 1 (zeros3 2 3 4) []]
      = Ok ([nth 1 output []], [nth 1 weights []]).
Proof.
  split; [reflexivity|].
  apply (attention_batch_elements_independent (mk 2 3 true []) 2 3 4);
    try reflexivity; try (simpl; lia).
  intros E; discriminate E.
Defined.

Lemma permute_key_axis_is_tensor p B n t :
  is_tensor B n n t -> is_perm p n -> is_tensor B n n (permute_key_axis p t).
Proof.
  intros Ht Hp. apply (is_tensor_map _ B n n); auto.
  intros m Hm. unfold permute_cols. split.
  - rewrite length_map. apply Hm.
  - apply Forall_map, Forall_forall. intros r Hr.
    rewrite length_map. now apply is_perm_length.
Qed.

Lemma get3_permute_key_axis p B n t b i j :
  is_tensor B n n t -> is_perm p n -> (b < B)%nat -> (i < n)%nat -> (j < n)%nat ->
  get3 (permute_key_axis p t) b i j = get3 t b i (nth j p 0%nat).
Proof.
  intros Ht Hp Hb Hi Hj.
  unfold get3, get2, get1, permute_key_axis, permute_cols.
  pose proof (is_tensor_nth _ _ _ _ _ Ht Hb) as Hm.
  rewrite (nth_map_in _ _ _ _ []) by (destruct Ht; lia).
  rewrite (nth_map_in _ _ _ _ []) by (destruct Hm; lia).
  rewrite (nth_map_in _ _ _ _ 0%nat) by (rewrite (is_perm_length p n); auto).
  reflexivity.
Qed.

Lemma score_permute_keys p B L d q k b i j :
  is_tensor B L d k -> is_perm p L -> (b < B)%nat -> (j < L)%nat ->
  score d q (permute_seq p k) b i j = score d q k b i (nth j p 0%nat).
Proof.
  intros Hk Hp Hb Hj. unfold score. f_equal.
  apply bigsum_ext. intros c Hc.
  now rewrite (get3_permute_seq p B L d).
Qed.

(** X8: without the relative bias the unit treats keys and values as an
    unordered set of pairs: reordering the keys and the values by the same
    permutation, with the queries left alone, gives the same output, and the
    same weights with their key axis reordered. *)
Theorem attention_ignores_key_value_order self B L dv q k v p :
  other_positional_encodings_present self = true ->
  (0 < d_k self)%nat ->
  shape3 q = Some (B, L, d_k self) -> shape3 k = Some (B, L, d_k self) ->
  shape3 v = Some (B, L, dv) -> is_perm p L ->
  exists output weights,
    forward self q k v = Ok (output, weights) /\
    forward self q (permute_seq p k) (permute_seq p v)
      = Ok (output, permute_key_axis p weights).
Proof.
  intros Hflag Hd Sq Sk Sv Hp. destruct (shape3_pos _ _ _ _ Sq Hd) as [HB HL].
  apply shape3_is_tensor in Sq, Sk, Sv.
  assert (Hrel : bias_ready self L) by (intros E; congruence).
  pose proof (permute_seq_is_tensor p _ _ _ _ Sk Hp) as Hk'.
  pose proof (permute_seq_is_tensor p _ _ _ _ Sv Hp) as Hv'.
  do 2 eexists. split; [now apply (forward_eq self B L dv)|].
  rewrite (forward_eq self B L dv) by auto.
  unfold scores_of. rewrite Hflag.
  set (d := d_k self) in *.
  pose proof (raw_scores_is_tensor _ _ _ _ _ Sq Sk HL Hd) as Hs.
  pose proof (raw_scores_is_tensor _ _ _ _ _ Sq Hk' HL Hd) as Hs'.
  pose proof (softmax_is_tensor _ _ _ _ Hs) as Hw.
  pose proof (softmax_is_tensor _ _ _ _ Hs') as Hw'.
  assert (EW : softmax (raw_scores d q (permute_seq p k)) =
               permute_key_axis p (softmax (raw_scores d q k))).
  { apply (tensor_ext B L L); auto.
    - now apply permute_key_axis_is_tensor.
    - intros b i j Hb Hi Hj.
      pose proof (is_perm_nth _ _ _ Hp Hj) as Hpj.
      rewrite (get3_permute_key_axis p B L) by auto.
      rewrite !(get3_softmax B L L) by auto.
      unfold attention_weight.
      rewrite !(get3_raw_scores B L) by auto.
      rewrite (score_permute_keys p B L) by auto. f_equal.
      rewrite <- (bigsum_perm p L
                    (fun j' => exp (get3 (raw_scores d q k) b i j'))) by auto.
      apply bigsum_ext. intros j' Hj'.
      pose proof (is_perm_nth _ _ _ Hp Hj') as Hpj'.
      rewrite !(get3_raw_scores B L) by auto.
      now rewrite (score_permute_keys p B L). }
  rewrite EW. f_equal. f_equal.
  apply (tensor_ext B L dv).
  - apply (matmul_is_tensor B L L dv); auto. now apply permute_key_axis_is_tensor.
  - now apply (matmul_is_tensor B L L dv).
  - intros b i c Hb Hi Hc.
    rewrite !(get3_matmul B L L dv); auto.
    2: now apply permute_key_axis_is_tensor.
    rewrite <- (bigsum_perm p L
                  (fun j => get3 (softmax (raw_scores d q k)) b i j
                            * get3 v b j c)) by auto.
    apply bigsum_ext. intros j Hj.
    rewrite (get3_permute_key_axis p B L), (get3_permute_seq p B L dv); auto.
Qed.

Lemma attention_ignores_key_value_order_witness :
  is_perm swap 2 /\
  exists output weights,
    forward (mk 1 2 true []) (zeros3 1 2 1) (zeros3 1 2 1) one_hot_values
      = Ok (output, weights) /\
    forward (mk 1 2 true []) (zeros3 1 2 1) (permute_seq swap (zeros3 1 2 1))
            (permute_seq swap one_hot_values)
      = Ok (output, permute_key_axis swap weights).
Proof.
  split; [exact swap_is_perm|].
  apply (attention_ignores_key_value_order (mk 1 2 true []) 1 2 1);
    try reflexivity; try (simpl; lia).
  exact swap_is_perm.
Defined.

(** X9: when all key positions of a batch element carry the same vector, the
    unit without bias attends uniformly: every weight is 1/L and every output
    row is the mean of the value rows. *)
Theorem attention_uniform_on_equal_keys self B L dv q k v :
  other_positional_encodings_present self = true ->
  (0 < d_k self)%nat -> (0 < dv)%nat ->
  shape3 q = Some (B, L, d_k self) -> shape3 k = Some (B, L, d_k self) ->
  shape3 v = Some (B, L, dv) ->
  (forall b j c, (b < B)%nat -> (j < L)%nat -> (c < d_k self)%nat ->
     get3 k b j c = get3 k b 0 c) ->
  exists output weights,
    forward self q k v = Ok (output, weights) /\
    (forall b i j, (b < B)%nat -> (i < L)%nat -> (j < L)%nat ->
       get3 weights b i j = 1 / INR L) /\
    (forall b i c, (b < B)%nat -> (i < L)%nat -> (c < dv)%nat ->
       get3 output b i c = bigsum L (fun j => get3 v b j c) / INR L).
Proof.
  intros Hflag Hd Hdv Sq Sk Sv Hkeys.
  destruct (shape3_pos _ _ _ _ Sq Hd) as [HB HL].
  assert (Hrel : bias_ready self L) by (intros E; congruence).
  destruct (attention_contract_holds self B L dv q k v Hd Hdv Sq Sk Sv Hrel)
    as (output & weights & E & _ & _ & Hw & Ho).
  rewrite Hflag in Hw.
  assert (HLR : INR L <> 0) by (apply not_0_INR; lia).
  assert (Hsc : forall b i j, (b < B)%nat -> (j < L)%nat ->
            score (d_k self) q k b i j = score (d_k self) q k b i 0).
  { intros b i j Hb Hj. unfold score. f_equal.
    apply bigsum_ext. intros c Hc. now rewrite (Hkeys b j c). }
  assert (Hu : forall b i j, (b < B)%nat -> (i < L)%nat -> (j < L)%nat ->
            get3 weights b i j = 1 / INR L).
  { intros b i j Hb Hi Hj. rewrite Hw by auto. unfold attention_weight.
    rewrite (bigsum_ext _ _ (fun _ => exp (score (d_k self) q k b i 0)))
      by (intros j' Hj'; now rewrite (Hsc b i j')).
    rewrite bigsum_const, (Hsc b i j) by auto.
    pose proof (exp_pos (score (d_k self) q k b i 0)). field. split; lra. }
  exists output, weights. split; [exact E|]. split; [exact Hu|].
  intros b i c Hb Hi Hc. rewrite Ho by auto.
  rewrite (bigsum_ext _ _ (fun j => 1 / INR L * get3 v b j c))
    by (intros j Hj; now rewrite Hu).
  rewrite bigsum_scale. field. exact HLR.
Qed.

Lemma attention_uniform_on_equal_keys_witness :
  shape3 (zeros3 1 2 1) = Some (1, 2, 1)%nat /\
  exists output weights,
    forward (mk 1 2 true []) (zeros3 1 2 1) (zeros3 1 2 1) one_hot_values
      = Ok (output, weights) /\
    (forall b i j, (b < 1)%nat -> (i < 2)%nat -> (j < 2)%nat ->
       get3 weights b i j = 1 / INR 2) /\
    (forall b i c, (b < 1)%nat -> (i < 2)%nat -> (c < 1)%nat ->
       get3 output b i c = bigsum 2 (fun j => get3 one_hot_values b j c) / INR 2).
Proof.
  split; [reflexivity|].
  apply (attention_uniform_on_equal_keys (mk 1 2 true []) 1 2 1);
    try reflexivity; try (simpl; lia).
  intros b j c Hb Hj Hc.
  destruct b as [|b]; [|lia]. destruct j as [|[|j]]; try lia; reflexivity.
Defined.

(** ** The attention unit: a bias that cannot be seen *)



(** * Further properties of the absolute positional encoding *)

Lemma PositionalEncoding_init_inv d max_len self :
  PositionalEncoding.init d max_len = Ok self ->
  d <> 0%nat /\
  self = PositionalEncoding.mk
           (map (fun row => [row]) (PositionalEncoding.table d max_len)).
Proof.
  unfold PositionalEncoding.init. destruct (Nat.eqb_spec d 0); [discriminate|].
  match goal with |- (if ?c then _ else _) = _ -> _ => destruct c end;
    [|discriminate].
  intros E. inversion E. auto.
Qed.

Lemma get3_pe_table (T : mat) b c :
  (b < length T)%nat -> get3 (map (fun row => [row]) T) b 0 c = get2 T b c.
Proof.
  intros Hb. unfold get3, get2, get1.
  now rewrite (nth_map_in _ _ _ _ []) by auto.
Qed.

Lemma nth_table d max_len p :
  (p < max_len)%nat ->
  nth p (PositionalEncoding.table d max_len) [] = PositionalEncoding.table_row d p.
Proof.
  intros Hp. unfold PositionalEncoding.table.
  rewrite (nth_map_in _ _ _ _ 0%nat) by now rewrite length_seq.
  now rewrite seq_nth.
Qed.

Lemma PositionalEncoding_init_odd h max_len :
  PositionalEncoding.init (2 * h + 3) max_len = Raise RuntimeError.
Proof.
  unfold PositionalEncoding.init.
  replace (2 * h + 3 =? 0)%nat with false by (symmetry; apply Nat.eqb_neq; lia).
  unfold PositionalEncoding.slots_ok.
  rewrite !length_range, length_div_term.
  div_mod_2 (2 * h + 3 + 1)%nat. div_mod_2 (2 * h + 3 - 0 + 1)%nat.
  div_mod_2 (2 * h + 3 - 1 + 1)%nat.
  replace ((2 * h + 3 - 1 + 1) / 2 =? (2 * h + 3 + 1) / 2)%nat with false
    by (symmetry; apply Nat.eqb_neq; lia).
  replace ((2 * h + 3 + 1) / 2 =? 1)%nat with false
    by (symmetry; apply Nat.eqb_neq; lia).
  now rewrite andb_false_r.
Qed.

(** X11: the constructor of PositionalEncoding accepts every positive even
    d_model and builds a buffer of shape (max_len, 1, d_model); it raises
    ZeroDivisionError for d_model = 0 and RuntimeError for every odd
    d_model >= 3, where the cosine columns are one fewer than the values. *)
Theorem positional_encoding_constructor_cases (h max_len : nat) :
  PositionalEncoding.init 0 max_len = Raise ZeroDivisionError /\
  PositionalEncoding.init (2 * h + 3) max_len = Raise RuntimeError /\
  exists self,
    PositionalEncoding.init (2 * h + 2) max_len = Ok self /\
    is_tensor max_len 1 (2 * h + 2) (PositionalEncoding.pe self).
Proof.
  split; [reflexivity|]. split; [apply PositionalEncoding_init_odd|].
  replace (2 * h + 2)%nat with (2 * (S h))%nat by lia.
  eexists. split; [apply PositionalEncoding_init_even; lia|].
  cbn [PositionalEncoding.pe].
  destruct (table_is_mat (2 * S h) max_len) as [Hl Hr]. split.
  - now rewrite length_map.
  - apply Forall_map. revert Hr. apply Forall_impl.
    intros row Hrow. split; [reflexivity|]. constructor; auto.
Qed.

(** X12: the entries of the buffer: row p holds sin(p * w_i) in channel 2i
    and cos(p * w_i) in channel 2i+1, with w_i = exp(2i * (-ln 10000 /
    d_model)); every entry lies in [-1, 1]. *)
Theorem positional_encoding_table_entries h max_len p c :
  (0 < h)%nat -> (p < max_len)%nat -> (c < 2 * h)%nat ->
  exists self,
    PositionalEncoding.init (2 * h) max_len = Ok self /\
    get3 (PositionalEncoding.pe self) p 0 c
    = (if (c mod 2 =? 0)%nat
       then sin (INR p * frequency (2 * h) (c / 2))
       else cos (INR p * frequency (2 * h) (c / 2))) /\
    -1 <= get3 (PositionalEncoding.pe self) p 0 c <= 1.
Proof.
  intros Hh Hp Hc. eexists. split; [now apply PositionalEncoding_init_even|].
  cbn [PositionalEncoding.pe].
  rewrite get3_pe_table by (destruct (table_is_mat (2 * h) max_len); lia).
  unfold get2, get1. rewrite nth_table, nth_table_row by auto.
  split; [reflexivity|].
  destruct (c mod 2 =? 0)%nat; [apply SIN_bound|apply COS_bound].
Qed.

Lemma positional_encoding_table_entries_witness :
  exists self,
    PositionalEncoding.init (2 * 2) 8 = Ok self /\
    get3 (PositionalEncoding.pe self) 5 0 3
    = (if (3 mod 2 =? 0)%nat
       then sin (INR 5 * frequency (2 * 2) (3 / 2))
       else cos (INR 5 * frequency (2 * 2) (3 / 2))) /\
    -1 <= get3 (PositionalEncoding.pe self) 5 0 3 <= 1.
Proof. apply (positional_encoding_table_entries 2 8 5 3); lia. Defined.

(** X13: what [forward] adds to an input of shape (B, L, d_model), B <=
    max_len, is the table row of the batch index, whatever the position in
    the sequence: y[b][s][c] = x[b][s][c] + pe[b][0][c]. *)
Theorem positional_encoding_forward_adds_batch_row d_model max_len self B L x :
  PositionalEncoding.init d_model max_len = Ok self ->
  shape3 x = Some (B, L, d_model) -> (B <= max_len)%nat ->
  exists y,
    PositionalEncoding.forward self x = Ok y /\
    shape3 y = Some (B, L, d_model) /\
    forall b s c, (b < B)%nat -> (s < L)%nat -> (c < d_model)%nat ->
      get3 y b s c = get3 x b s c + get3 (PositionalEncoding.pe self) b 0 c.
Proof.
  intros Hinit Sx HB. destruct (PositionalEncoding_init_inv _ _ _ Hinit) as [Hd ->].
  destruct (shape3_pos _ _ _ _ Sx ltac:(lia)) as [HB0 HL].
  pose proof (table_is_mat d_model max_len) as HT.
  destruct (PositionalEncoding_forward_ok d_model max_len _ B L x HT
              (shape3_is_tensor _ _ _ _ Sx) HB HB0 HL) as (y & Ey & Ty & Hy).
  exists y. split; [exact Ey|]. split; [now apply is_tensor_shape3|].
  intros b s c Hb Hs Hc. rewrite Hy by auto. cbn [PositionalEncoding.pe].
  rewrite get3_pe_table by (destruct HT; lia). reflexivity.
Qed.

Lemma positional_encoding_forward_adds_batch_row_witness :
  exists y,
    PositionalEncoding.forward
      (PositionalEncoding.mk
         (map (fun row => [row]) (PositionalEncoding.table 2 4)))
      (zeros3 3 2 2) = Ok y /\
    shape3 y = Some (3, 2, 2)%nat /\
    forall b s c, (b < 3)%nat -> (s < 2)%nat -> (c < 2)%nat ->
      get3 y b s c
      = get3 (zeros3 3 2 2) b s c
        + get3 (map (fun row => [row]) (PositionalEncoding.table 2 4)) b 0 c.
Proof.
  apply (positional_encoding_forward_adds_batch_row 2 4
           (PositionalEncoding.mk
              (map (fun row => [row]) (PositionalEncoding.table 2 4))) 3 2);
    [reflexivity | reflexivity | lia].
Defined.

Lemma PositionalEncoding_forward_equivariant d_model max_len self B L x p :
  PositionalEncoding.init d_model max_len = Ok self ->
  is_tensor B L d_model x -> (0 < B)%nat -> (0 < L)%nat ->
  (B <= max_len)%nat -> is_perm p L ->
  exists y,
    PositionalEncoding.forward self x = Ok y /\ is_tensor B L d_model y /\
    PositionalEncoding.forward self (permute_seq p x) = Ok (permute_seq p y).
Proof.
  intros Hinit Sx HB0 HL HB Hp.
  destruct (PositionalEncoding_init_inv _ _ _ Hinit) as [Hd ->].
  pose proof (table_is_mat d_model max_len) as HT.
  pose proof (permute_seq_is_tensor p _ _ _ _ Sx Hp) as Sx'.
  destruct (PositionalEncoding_forward_ok d_model max_len _ B L x HT
              Sx HB HB0 HL) as (y & Ey & Ty & Hy).
  destruct (PositionalEncoding_forward_ok d_model max_len _ B L _ HT
              Sx' HB HB0 HL) as (y' & Ey' & Ty' & Hy').
  exists y. split; [exact Ey|]. split; [exact Ty|]. rewrite Ey'. f_equal.
  apply (tensor_ext B L d_model); auto.
  - now apply permute_seq_is_tensor.
  - intros b s c Hb Hs Hc. pose proof (is_perm_nth _ _ _ Hp Hs) as Hps.
    rewrite Hy' by auto.
    rewrite !(get3_permute_seq p B L d_model) by auto.
    now rewrite Hy by auto.
Qed.

(** X14: [forward] carries no information about the order within a sequence:
    it commutes with every reordering of the sequence axis. *)
Theorem positional_encoding_commutes_with_reordering
        d_model max_len self B L x p :
  PositionalEncoding.init d_model max_len = Ok self ->
  shape3 x = Some (B, L, d_model) -> (B <= max_len)%nat -> is_perm p L ->
  exists y,
    PositionalEncoding.forward self x = Ok y /\
    PositionalEncoding.forward self (permute_seq p x) = Ok (permute_seq p y).
Proof.
  intros Hinit Sx HB Hp.
  destruct (PositionalEncoding_init_inv _ _ _ Hinit) as [Hd _].
  destruct (shape3_pos _ _ _ _ Sx ltac:(lia)) as [HB0 HL].
  destruct (PositionalEncoding_forward_equivariant _ _ _ B L x p Hinit
              (shape3_is_tensor _ _ _ _ Sx) HB0 HL HB Hp) as (y & Ey & _ & Ey').
  exists y. auto.
Qed.

Lemma positional_encoding_commutes_with_reordering_witness :
  is_perm swap 2 /\
  exists y,
    PositionalEncoding.forward
      (PositionalEncoding.mk
         (map (fun row => [row]) (PositionalEncoding.table 2 4)))
      (zeros3 3 2 2) = Ok y /\
    PositionalEncoding.forward
      (PositionalEncoding.mk
         (map (fun row => [row]) (PositionalEncoding.table 2 4)))
      (permute_seq swap (zeros3 3 2 2)) = Ok (permute_seq swap y).
Proof.
  split; [exact swap_is_perm|].
  apply (positional_encoding_commutes_with_reordering 2 4
           (PositionalEncoding.mk
              (map (fun row => [row]) (PositionalEncoding.table 2 4))) 3 2);
    [reflexivity | reflexivity | lia | exact swap_is_perm].
Defined.

(** X15: a batch larger than the table is rejected: with max_len >= 2 and
    more than max_len batch elements the sliced table has max_len rows and
    the sum raises RuntimeError. *)
Theorem positional_encoding_rejects_long_batches d_model max_len self B L x :
  PositionalEncoding.init d_model max_len = Ok self ->
  shape3 x = Some (B, L, d_model) ->
  (2 <= max_len)%nat -> (max_len < B)%nat ->
  PositionalEncoding.forward self x = Raise RuntimeError.
Proof.
  intros Hinit Sx Hm HB.
  destruct (PositionalEncoding_init_inv _ _ _ Hinit) as [Hd ->].
  destruct (shape3_pos _ _ _ _ Sx ltac:(lia)) as [HB0 HL].
  pose proof (table_is_mat d_model max_len) as HT.
  pose proof (shape3_is_tensor _ _ _ _ Sx) as Hx.
  unfold PositionalEncoding.forward. cbn [PositionalEncoding.pe].
  assert (Hhd : length (hd [] x) = L).
  { destruct Hx as [Hl Hx]. destruct x; simpl in *; [lia|].
    inversion Hx as [|? ? [? ?] ?]; auto. }
  destruct Hx as [Hlx Hx'].
  rewrite Hhd, Hlx, firstn_map, map_map.
  rewrite (map_ext _ (fun row => repeat row L))
    by (intros; apply concat_repeat_single).
  rewrite firstn_all2 by (destruct HT; lia).
  assert (Hp : is_tensor max_len L d_model
                 (map (fun row => repeat row L)
                      (PositionalEncoding.table d_model max_len))).
  { destruct HT as [HTl HTr]. split; [now rewrite length_map|].
    apply Forall_map. revert HTr. apply Forall_impl. intros row Hrow.
    split; [apply repeat_length|]. apply Forall_forall.
    intros r Hr. apply repeat_spec in Hr. now subst r. }
  unfold add. rewrite Sx, (is_tensor_shape3 _ _ _ _ Hp) by lia.
  unfold broadcastable.
  replace (B =? max_len)%nat with false by (symmetry; apply Nat.eqb_neq; lia).
  replace (B =? 1)%nat with false by (symmetry; apply Nat.eqb_neq; lia).
  replace (max_len =? 1)%nat with false by (symmetry; apply Nat.eqb_neq; lia).
  reflexivity.
Qed.

Lemma positional_encoding_rejects_long_batches_witness :
  PositionalEncoding.forward
    (PositionalEncoding.mk
       (map (fun row => [row]) (PositionalEncoding.table 2 2)))
    (zeros3 3 2 2) = Raise RuntimeError.
Proof.
  apply (positional_encoding_rejects_long_batches 2 2
           (PositionalEncoding.mk
              (map (fun row => [row]) (PositionalEncoding.table 2 2))) 3 2);
    [reflexivity | reflexivity | lia | lia].
Defined.

(** * Further properties of the stacked model *)

(** ** Evaluation mode *)

Lemma draws_nothing_lift {A} (r : result A) : draws_nothing (lift r).
Proof. now exists r. Qed.

Lemma draws_nothing_ret {A} (a : A) : draws_nothing (ret a).
Proof. now exists (Ok a). Qed.

Lemma draws_nothing_bind {A B} (m : M A) (k : A -> M B) :
  draws_nothing m -> (forall a, draws_nothing (k a)) -> draws_nothing (bind m k).
Proof.
  intros [r Hr] Hk. destruct r as [a|e].
  - destruct (Hk a) as [r' Hr']. exists r'. intros g.
    unfold bind. rewrite Hr. simpl. apply Hr'.
  - exists (Raise e). intros g. unfold bind. now rewrite Hr.
Qed.

Lemma block_eval_draws_nothing b x :
  draws_nothing
    (TransformerEncoderBlock.forward (TransformerEncoderBlock_eval b) x).
Proof.
  unfold TransformerEncoderBlock.forward.
  apply draws_nothing_bind; [apply draws_nothing_lift|]. intros [ao aw].
  apply draws_nothing_bind; [apply draws_nothing_ret|]. intros d1.
  apply draws_nothing_bind; [apply draws_nothing_lift|]. intros r1.
  apply draws_nothing_bind; [apply draws_nothing_lift|]. intros x1.
  apply draws_nothing_bind; [apply draws_nothing_lift|]. intros f.
  apply draws_nothing_bind; [apply draws_nothing_ret|]. intros d2.
  apply draws_nothing_bind; [apply draws_nothing_lift|]. intros r2.
  apply draws_nothing_bind; [apply draws_nothing_lift|]. intros o.
  apply draws_nothing_ret.
Qed.

Lemma run_layers_eval_draws_nothing layers :
  forall x acc,
    draws_nothing
      (Transformer.run_layers (map TransformerEncoderBlock_eval layers) x acc).
Proof.
  induction layers as [|layer rest IH]; intros x acc; simpl.
  - apply draws_nothing_ret.
  - apply draws_nothing_bind; [apply block_eval_draws_nothing|].
    intros [x1 w]. apply IH.
Qed.

Lemma Transformer_eval_pure (m : Transformer.t) (x : tensor3) :
  draws_nothing (Transformer.forward (Transformer_eval m) x).
Proof.
  unfold Transformer.forward.
  apply draws_nothing_bind; [apply draws_nothing_lift|]. intros e.
  apply draws_nothing_bind.
  { cbn [Transformer.positional_encoding Transformer.pos_encoder Transformer_eval].
    destruct (Transformer.positional_encoding m);
      [destruct (Transformer.pos_encoder m)|];
      try apply draws_nothing_lift; apply draws_nothing_ret. }
  intros h.
  apply draws_nothing_bind; [apply run_layers_eval_draws_nothing|].
  intros [hN ws].
  apply draws_nothing_bind; [apply draws_nothing_lift|]. intros l.
  apply draws_nothing_bind; [apply draws_nothing_lift|]. intros o.
  apply draws_nothing_ret.
Qed.

(** X16: after [model.eval()] the forward pass of the stacked model draws
    nothing from the random generator: on every input it is one fixed result
    (a value or an exception), the same from every generator state, and the
    generator is left as it was. *)
Theorem transformer_eval_draws_nothing (m : Transformer.t) (x : tensor3) :
  draws_nothing (Transformer.forward (Transformer_eval m) x).
Proof. apply Transformer_eval_pure. Qed.

(** ** Errors of the constructor *)

Lemma bind_total_raise {A B} (m : M A) (k : A -> M B) e g :
  (exists a g', m g = Ok (a, g')) -> (forall a g', k a g' = Raise e) ->
  bind m k g = Raise e.
Proof. intros (a & g' & E) Hk. unfold bind. rewrite E. apply Hk. Qed.

Lemma bind_total_ok {A B} (m : M A) (k : A -> M B) g :
  (exists a g', m g = Ok (a, g')) ->
  (forall a g', exists b g'', k a g' = Ok (b, g'')) ->
  exists b g'', bind m k g = Ok (b, g'').
Proof. intros (a & g' & E) Hk. unfold bind. rewrite E. apply Hk. Qed.

Lemma randn1_total n g : exists v g', randn1 n g = Ok (v, g').
Proof. apply replicateM_total. intros g0. unfold randn. eauto. Qed.

Lemma randn2_total n m g : exists v g', randn2 n m g = Ok (v, g').
Proof. apply replicateM_total. intros g0. apply randn1_total. Qed.

Lemma randn3_total b n m g : exists v g', randn3 b n m g = Ok (v, g').
Proof. apply replicateM_total. intros g0. apply randn2_total. Qed.

Lemma Linear_init_total i o g : exists l g', Linear.init i o g = Ok (l, g').
Proof.
  unfold Linear.init.
  apply bind_total_ok; [apply randn2_total|]. intros w g1.
  apply bind_total_ok; [apply randn1_total|]. intros b g2.
  unfold ret. eauto.
Qed.

Lemma SDPA_init_total L d flag g :
  exists a g', ScaledDotProductAttention.init L d flag g = Ok (a, g').
Proof.
  unfold ScaledDotProductAttention.init.
  apply bind_total_ok; [apply randn3_total|]. intros r g1. unfold ret. eauto.
Qed.

Lemma AttentionHead_init_total d L flag g :
  exists h g', AttentionHead.init d L flag g = Ok (h, g').
Proof.
  unfold AttentionHead.init.
  apply bind_total_ok; [apply Linear_init_total|]. intros ql g1.
  apply bind_total_ok; [apply Linear_init_total|]. intros kl g2.
  apply bind_total_ok; [apply Linear_init_total|]. intros vl g3.
  apply bind_total_ok; [apply SDPA_init_total|]. intros a g4.
  apply bind_total_ok; [apply Linear_init_total|]. intros fo g5.
  unfold ret. eauto.
Qed.

Lemma Block_init_bad_probability d dff L flag p g :
  bad_probability p ->
  TransformerEncoderBlock.init d dff L flag p g = Raise ValueError.
Proof.
  intros Hp. unfold TransformerEncoderBlock.init.
  apply bind_total_raise; [apply AttentionHead_init_total|]. intros h g1.
  cbv zeta.
  apply bind_total_raise; [apply Linear_init_total|]. intros f0 g2.
  apply bind_total_raise; [apply Linear_init_total|]. intros f2 g3.
  unfold bind, lift, Dropout.init. unfold bad_probability in Hp. now rewrite Hp.
Qed.

(** X17: the dropout probability is checked only where a block is built:
    with a probability outside [0, 1] the constructor of the stacked model
    raises ValueError as soon as num_layers > 0, and succeeds with
    num_layers = 0. *)
Theorem transformer_constructor_checks_dropout_per_block
        input_size d_model dim_feedforward num_layers seq_len p max_len g :
  bad_probability p ->
  (exists m g',
     Transformer.init input_size d_model dim_feedforward 0 seq_len None p
       max_len g = Ok (m, g')) /\
  Transformer.init input_size d_model dim_feedforward (S num_layers) seq_len
    None p max_len g = Raise ValueError.
Proof.
  intros Hp. unfold Transformer.init. split.
  - apply bind_total_ok; [apply Linear_init_total|]. intros e g1.
    apply bind_total_ok; [unfold ret; eauto|]. intros pe g2.
    apply bind_total_ok; [simpl; unfold ret; eauto|]. intros ls g3.
    apply bind_total_ok; [apply Linear_init_total|]. intros fo g4.
    unfold ret. eauto.
  - apply bind_total_raise; [apply Linear_init_total|]. intros e g1.
    apply bind_total_raise; [unfold ret; eauto|]. intros pe g2.
    cbn [replicateM]. unfold bind at 1. unfold bind at 1.
    now rewrite Block_init_bad_probability.
Qed.

Lemma transformer_constructor_checks_dropout_per_block_witness :
  (exists m g',
     Transformer.init 1 4 8 0 5 None (3 # 2) 5000 example_rng = Ok (m, g')) /\
  Transformer.init 1 4 8 (S 2) 5 None (3 # 2) 5000 example_rng
    = Raise ValueError.
Proof.
  apply (transformer_constructor_checks_dropout_per_block 1 4 8 2 5 (3 # 2)
           5000 example_rng).
  reflexivity.
Defined.

(** X18: an error of the positional encoding's constructor is an error of
    the stacked model's constructor, before any block is built and whatever
    the dropout: with the sine/cosine encoding, ZeroDivisionError for
    d_model = 0 and RuntimeError for every odd d_model >= 3. *)
Theorem transformer_constructor_propagates_encoding_errors
        input_size h dim_feedforward num_layers seq_len p max_len g :
  Transformer.init input_size 0 dim_feedforward num_layers seq_len
    (Some PositionalEncoding.constructor) p max_len g
  = Raise ZeroDivisionError /\
  Transformer.init input_size (2 * h + 3) dim_feedforward num_layers seq_len
    (Some PositionalEncoding.constructor) p max_len g
  = Raise RuntimeError.
Proof.
  unfold Transformer.init. split.
  - apply bind_total_raise; [apply Linear_init_total|]. intros e g1.
    reflexivity.
  - apply bind_total_raise; [apply Linear_init_total|]. intros e g1.
    unfold bind at 1. unfold bind at 1.
    unfold PositionalEncoding.constructor, lift.
    now rewrite PositionalEncoding_init_odd.
Qed.

(** ** Errors of the forward pass *)

Lemma Linear_forward_rejects i o l B L w x :
  wf_linear i o l -> shape3 x = Some (B, L, w) -> (0 < w)%nat -> w <> i ->
  Linear.forward l x = Raise RuntimeError.
Proof.
  intros (Hi & _) Sx Hw Hne. destruct (shape3_pos _ _ _ _ Sx Hw) as [HB HL].
  apply shape3_is_tensor in Sx. destruct Sx as [Hlx Hx].
  destruct x as [|m ms]; [simpl in Hlx; lia|].
  apply Forall_inv in Hx. destruct Hx as [Hlm Hm].
  destruct m as [|r rs]; [simpl in Hlm; lia|].
  apply Forall_inv in Hm.
  unfold Linear.forward. cbn [forallb]. unfold Linear.accepts at 1.
  rewrite Hi, Hm.
  replace (w =? i)%nat with false by (symmetry; apply Nat.eqb_neq; auto).
  reflexivity.
Qed.

(** X19: the stacked model accepts only inputs whose last axis has the
    input_size it was built with: any other (positive) feature width is
    rejected by the embedding with the backend's shape error, in every
    generator state. *)
Theorem transformer_rejects_input_width
        input_size d_model dim_feedforward num_layers seq_len pe p max_len
        g0 m g1 B L w x g :
  Transformer.init input_size d_model dim_feedforward num_layers seq_len pe p
    max_len g0 = Ok (m, g1) ->
  shape3 x = Some (B, L, w) -> (0 < w)%nat -> w <> input_size ->
  Transformer.forward m x g = Raise RuntimeError.
Proof.
  intros Hinit Sx Hw Hne.
  destruct (Transformer_init_ok _ _ _ _ _ _ _ _ _ _ _ Hinit) as ((He & _) & _).
  unfold Transformer.forward. unfold bind at 1.
  now rewrite (Linear_forward_rejects _ _ _ B L w x He Sx Hw Hne).
Qed.

Lemma transformer_rejects_input_width_witness :
  exists m g',
    Transformer.init 1 2 3 2 2 None (1 # 10) 5000 example_rng = Ok (m, g') /\
    Transformer.forward m (zeros3 1 2 3) g' = Raise RuntimeError.
Proof.
  assert (Hinit : exists m g',
             Transformer.init 1 2 3 2 2 None (1 # 10) 5000 example_rng = Ok (m, g')).
  { eexists. eexists. run_init. }
  destruct Hinit as (m & g' & Hinit).
  exists m, g'. split; [exact Hinit|].
  apply (transformer_rejects_input_width 1 2 3 2 2 None (1 # 10) 5000
           example_rng m g' 1 2 3 (zeros3 1 2 3) g' Hinit);
    [reflexivity | lia | lia].
Defined.

Lemma AttentionHead_bias_length_mismatch d T h B L x :
  wf_head d T h ->
  other_positional_encodings_present (AttentionHead.scaled_dot_attention h)
    = false ->
  is_tensor B L d x -> (0 < B)%nat -> (0 < d)%nat ->
  (1 < L)%nat -> (1 < T)%nat -> L <> T ->
  AttentionHead.forward h x x x = Raise RuntimeError.
Proof.
  intros (Hq & Hk & Hv & (Hdk & _ & Hrel) & _) Hflag Hx HB Hd HL HT Hne.
  unfold AttentionHead.forward.
  destruct (Linear_forward_ok d d _ B L x Hq Hx) as [Eq Tq].
  destruct (Linear_forward_ok d d _ B L x Hk Hx) as [Ek Tk].
  destruct (Linear_forward_ok d d _ B L x Hv Hx) as [Ev Tv].
  rewrite Eq, Ek, Ev. cbn [rbind].
  rewrite (bias_length_mismatch _ B L T); auto.
  - apply is_tensor_shape3; auto. lia.
  - rewrite Hdk. apply is_tensor_shape3; auto. lia.
  - rewrite Hdk. apply is_tensor_shape3; auto. lia.
  - now rewrite Hdk.
Qed.

(** X20: a stacked model built without positional encoding, so with the
    relative bias active in its blocks, accepts only sequences of the seq_len
    it was built for: with at least one block, an input of another length
    (both lengths at least 2) is rejected with the backend's shape error in
    the first block's attention.  The head's projections, unwritten in the
    notebook, are hidden-width to hidden-width linear layers. *)
Theorem transformer_with_bias_rejects_other_lengths
        input_size d_model dim_feedforward num_layers seq_len p max_len
        g0 m g1 B L x g :
  Transformer.init input_size d_model dim_feedforward (S num_layers) seq_len
    None p max_len g0 = Ok (m, g1) ->
  shape3 x = Some (B, L, input_size) ->
  (0 < input_size)%nat -> (0 < d_model)%nat ->
  (1 < L)%nat -> (1 < seq_len)%nat -> L <> seq_len ->
  Transformer.forward m x g = Raise RuntimeError.
Proof.
  intros Hinit Sx Hin Hd HL HT Hne.
  destruct (Transformer_init_ok _ _ _ _ _ _ _ _ _ _ _ Hinit)
    as ((He & Hblocks & _ & _ & Hflags) & Hlen & Hpe).
  destruct (shape3_pos _ _ _ _ Sx Hin) as [HB _].
  apply shape3_is_tensor in Sx.
  destruct (Linear_forward_ok _ _ _ B L x He Sx) as [Ee Te].
  rewrite Hpe in Hflags.
  destruct (Transformer.encoder_layers m) as [|blk rest] eqn:El;
    [simpl in Hlen; lia|].
  inversion Hblocks as [|? ? (Hhead & _) _]; subst.
  inversion Hflags as [|? ? Hflag _]; subst.
  assert (Hblk : forall g', TransformerEncoderBlock.forward blk
                   (map (map (Linear.forward1 (Transformer.embedding m))) x) g'
                 = Raise RuntimeError).
  { intros g'. unfold TransformerEncoderBlock.forward. unfold bind at 1.
    now rewrite (AttentionHead_bias_length_mismatch d_model seq_len _ B L). }
  unfold Transformer.forward. rewrite Hpe, El. unfold bind at 1.
  rewrite Ee. cbn [lift]. unfold bind at 1. cbn [ret].
  cbn [Transformer.run_layers]. unfold bind at 1. unfold bind at 1.
  now rewrite Hblk.
Qed.

Lemma transformer_with_bias_rejects_other_lengths_witness :
  exists m g',
    Transformer.init 1 2 3 (S 1) 2 None (1 # 10) 5000 example_rng = Ok (m, g') /\
    Transformer.forward m (zeros3 1 3 1) g' = Raise RuntimeError.
Proof.
  assert (Hinit : exists m g',
             Transformer.init 1 2 3 (S 1) 2 None (1 # 10) 5000 example_rng
             = Ok (m, g')).
  { eexists. eexists. run_init. }
  destruct Hinit as (m & g' & Hinit).
  exists m, g'. split; [exact Hinit|].
  apply (transformer_with_bias_rejects_other_lengths 1 2 3 1 2 (1 # 10) 5000
           example_rng m g' 1 3 (zeros3 1 3 1) g' Hinit);
    [reflexivity | lia | lia | lia | lia | lia].
Defined.

(** * The plot of the attention weights *)

Lemma fold_Rmin_le d l x : In x l -> fold_right Rmin d l <= x.
Proof.
  induction l as [|y l IH]; simpl; [tauto|]. intros [->|H].
  - apply Rmin_l.
  - eapply Rle_trans; [apply Rmin_r|auto].
Qed.

Lemma fold_Rmax_ge d l x : In x l -> x <= fold_right Rmax d l.
Proof.
  induction l as [|y l IH]; simpl; [tauto|]. intros [->|H].
  - apply Rmax_l.
  - eapply Rle_trans; [|apply Rmax_r]. auto.
Qed.

Lemma fold_Rmin_in d l : In (fold_right Rmin d l) (d :: l).
Proof.
  induction l as [|y l IH]; [now left|].
  cbn [fold_right]. apply Rmin_case.
  - right; left; reflexivity.
  - destruct IH as [H|H]; [left; exact H | right; right; exact H].
Qed.

Lemma fold_Rmax_in d l : In (fold_right Rmax d l) (d :: l).
Proof.
  induction l as [|y l IH]; [now left|].
  cbn [fold_right]. apply Rmax_case.
  - right; left; reflexivity.
  - destruct IH as [H|H]; [left; exact H | right; right; exact H].
Qed.

Lemma hd_in (l : list R) : l <> [] -> In (hd 0 l) l.
Proof. destruct l; [congruence|simpl; auto]. Qed.

Lemma np_min_in a : concat a <> [] -> In (np_min a) (concat a).
Proof.
  intros H. unfold np_min.
  destruct (fold_Rmin_in (hd 0 (concat a)) (concat a)) as [E|E]; auto.
  rewrite <- E. now apply hd_in.
Qed.

Lemma np_max_in a : concat a <> [] -> In (np_max a) (concat a).
Proof.
  intros H. unfold np_max.
  destruct (fold_Rmax_in (hd 0 (concat a)) (concat a)) as [E|E]; auto.
  rewrite <- E. now apply hd_in.
Qed.

Lemma entry_in_concat n k (a : mat) i j :
  is_mat n k a -> (i < n)%nat -> (j < k)%nat -> In (get2 a i j) (concat a).
Proof.
  intros Ha Hi Hj. apply in_concat. exists (nth i a []). split.
  - apply nth_In. destruct Ha; lia.
  - apply nth_In. now rewrite (is_mat_nth n k).
Qed.

Lemma concat_entry n k (a : mat) x :
  is_mat n k a -> In x (concat a) ->
  exists i j, (i < n)%nat /\ (j < k)%nat /\ get2 a i j = x.
Proof.
  intros Ha Hx. apply in_concat in Hx as (r & Hr & Hx).
  apply (In_nth _ _ []) in Hr as (i & Hi & <-).
  apply (In_nth _ _ 0) in Hx as (j & Hj & <-).
  assert (Hi' : (i < n)%nat) by (destruct Ha; lia).
  rewrite (is_mat_nth n k) in Hj by auto.
  exists i, j. auto.
Qed.

Lemma get2_map2 (f : R -> R) n k (a : mat) i j :
  is_mat n k a -> (i < n)%nat -> (j < k)%nat ->
  get2 (map (map f) a) i j = f (get2 a i j).
Proof.
  intros Ha Hi Hj. unfold get2, get1.
  rewrite (nth_map_in _ _ _ _ []) by (destruct Ha; lia).
  now rewrite (nth_map_in _ _ _ _ 0) by (rewrite (is_mat_nth n k); auto).
Qed.

Lemma map2_is_mat (f : R -> R) n k (a : mat) :
  is_mat n k a -> is_mat n k (map (map f) a).
Proof.
  intros [Hl Hr]. split; [now rewrite length_map|].
  apply Forall_map. revert Hr. apply Forall_impl. intros r Hr.
  now rewrite length_map.
Qed.

Lemma nth_mean_axis0 n k (w : mat) j :
  is_mat n k w -> (0 < n)%nat -> (j < k)%nat ->
  nth j (mean_axis0 w) 0 = bigsum n (fun i => get2 w i j) / INR n.
Proof.
  intros Hw Hn Hj. unfold mean_axis0.
  assert (Hhd : length (hd [] w) = k).
  { destruct Hw as [Hl Hr]. destruct w; simpl in *; [lia|].
    now apply Forall_inv in Hr. }
  rewrite (nth_map_in _ _ _ _ 0%nat) by (rewrite length_seq; lia).
  rewrite seq_nth by lia. rewrite Nat.add_0_l.
  destruct Hw as [Hl Hr]. rewrite Hl. f_equal.
  unfold bigsum, col, get2, get1. rewrite <- Hl. f_equal.
  rewrite <- (map_nth_seq w []) at 1. now rewrite map_map.
Qed.

(** X21: the rescaling of the plotted weights, on an n x k array with
    n, k > 0.  When not all entries are equal, the result has the shape of
    the input, every entry lies in [0, 1], the values 0 and 1 are both
    attained, and so every plotted column mean lies in [0, 1].  When all
    entries are equal, the result is the array of NaN. *)
Theorem normalized_attention_weights_range n k (a : mat) :
  is_mat n k a -> (0 < n)%nat -> (0 < k)%nat ->
  match normalized_attention_weights a with
  | None =>
      forall i j, (i < n)%nat -> (j < k)%nat -> get2 a i j = get2 a 0 0
  | Some w =>
      is_mat n k w /\
      (forall i j, (i < n)%nat -> (j < k)%nat -> 0 <= get2 w i j <= 1) /\
      (exists i j, (i < n)%nat /\ (j < k)%nat /\ get2 w i j = 0) /\
      (exists i j, (i < n)%nat /\ (j < k)%nat /\ get2 w i j = 1) /\
      (forall j, (j < k)%nat -> 0 <= nth j (mean_axis0 w) 0 <= 1)
  end.
Proof.
  intros Ha Hn Hk.
  assert (Hne : concat a <> []).
  { intros E. pose proof (entry_in_concat n k a 0 0 Ha Hn Hk) as H.
    rewrite E in H. inversion H. }
  assert (Hlo : forall i j, (i < n)%nat -> (j < k)%nat -> np_min a <= get2 a i j).
  { intros i j Hi Hj. apply fold_Rmin_le. now apply (entry_in_concat n k). }
  assert (Hhi : forall i j, (i < n)%nat -> (j < k)%nat -> get2 a i j <= np_max a).
  { intros i j Hi Hj. apply fold_Rmax_ge. now apply (entry_in_concat n k). }
  unfold normalized_attention_weights.
  destruct (Req_dec_T (np_max a) (np_min a)) as [E|E].
  - intros i j Hi Hj.
    pose proof (Hlo i j Hi Hj). pose proof (Hhi i j Hi Hj).
    pose proof (Hlo 0%nat 0%nat Hn Hk). pose proof (Hhi 0%nat 0%nat Hn Hk). lra.
  - assert (Hgap : 0 < np_max a - np_min a).
    { pose proof (Hlo 0%nat 0%nat Hn Hk). pose proof (Hhi 0%nat 0%nat Hn Hk). lra. }
    set (f := fun x => (x - np_min a) / (np_max a - np_min a)).
    pose proof (map2_is_mat f n k a Ha) as Hw.
    assert (Hrange : forall i j, (i < n)%nat -> (j < k)%nat ->
              0 <= get2 (map (map f) a) i j <= 1).
    { intros i j Hi Hj. rewrite (get2_map2 f n k) by auto. unfold f.
      pose proof (Hlo i j Hi Hj). pose proof (Hhi i j Hi Hj). split.
      - apply Rmult_le_pos; [lra|]. left. now apply Rinv_0_lt_compat.
      - apply Rmult_le_reg_r with (np_max a - np_min a); auto.
        unfold Rdiv. rewrite Rmult_assoc, Rinv_l by lra. lra. }
    split; [exact Hw|]. split; [exact Hrange|]. split; [|split].
    + destruct (concat_entry n k a _ Ha (np_min_in a Hne)) as (i & j & Hi & Hj & Eij).
      exists i, j. split; auto. split; auto.
      rewrite (get2_map2 f n k) by auto. unfold f. rewrite Eij.
      unfold Rdiv. now rewrite Rminus_diag, Rmult_0_l.
    + destruct (concat_entry n k a _ Ha (np_max_in a Hne)) as (i & j & Hi & Hj & Eij).
      exists i, j. split; auto. split; auto.
      rewrite (get2_map2 f n k) by auto. unfold f. rewrite Eij.
      unfold Rdiv. rewrite Rinv_r; lra.
    + intros j Hj. rewrite (nth_mean_axis0 n k) by auto.
      assert (HnR : 0 < INR n) by (apply lt_0_INR; lia).
      assert (H0 : bigsum n (fun _ => 0) <= bigsum n (fun i => get2 (map (map f) a) i j)).
      { apply bigsum_le. intros i Hi. apply Hrange; auto. }
      assert (H1 : bigsum n (fun i => get2 (map (map f) a) i j) <= bigsum n (fun _ => 1)).
      { apply bigsum_le. intros i Hi. apply Hrange; auto. }
      rewrite bigsum_const in H0, H1. split.
      * apply Rmult_le_pos; [lra|]. left. now apply Rinv_0_lt_compat.
      * apply Rmult_le_reg_r with (INR n); auto.
        unfold Rdiv. rewrite Rmult_assoc, Rinv_l by lra. lra.
Qed.

Lemma normalized_attention_weights_range_witness :
  is_mat 2 2 [[1; 0]; [0; 1]] /\
  match normalized_attention_weights [[1; 0]; [0; 1]] with
  | None =>
      forall i j, (i < 2)%nat -> (j < 2)%nat ->
        get2 [[1; 0]; [0; 1]] i j = get2 [[1; 0]; [0; 1]] 0 0
  | Some w =>
      is_mat 2 2 w /\
      (forall i j, (i < 2)%nat -> (j < 2)%nat -> 0 <= get2 w i j <= 1) /\
      (exists i j, (i < 2)%nat /\ (j < 2)%nat /\ get2 w i j = 0) /\
      (exists i j, (i < 2)%nat /\ (j < 2)%nat /\ get2 w i j = 1) /\
      (forall j, (j < 2)%nat -> 0 <= nth j (mean_axis0 w) 0 <= 1)
  end.
Proof.
  assert (H : is_mat 2 2 [[1; 0]; [0; 1]])
    by (split; [reflexivity | repeat constructor]).
  split; [exact H|].
  apply (normalized_attention_weights_range 2 2 _ H); lia.
Defined.

Lemma wf_transformer_eval input d dff L m :
  wf_transformer input d dff L m ->
  wf_transformer input d dff L (Transformer_eval m).
Proof.
  intros (He & Hb & Hf & Hp & Hfl).
  split; [exact He|]. split; [|split; [exact Hf|split; [exact Hp|]]].
  - cbn [Transformer.encoder_layers Transformer_eval].
    apply Forall_map. revert Hb. apply Forall_impl. intros blk Hblk. exact Hblk.
  - cbn [Transformer.encoder_layers Transformer.positional_encoding
         Transformer_eval].
    apply Forall_map. revert Hfl. apply Forall_impl. intros blk Hblk. exact Hblk.
Qed.

(** X22: what the plot takes from the model.  After [model.eval()], a model
    built without positional encoding returns on an input of its own
    sequence length, leaving the generator as it was; from the returned list
    [attention_weights[-1][0]] is a seq_len x seq_len matrix whose rows sum
    to 1 when the model has at least one block, and raises IndexError when it
    has none. *)
Theorem visualize_attention_selects_last_layer
        input_size d_model dim_feedforward num_layers seq_len p max_len
        g0 m g1 B x g :
  Transformer.init input_size d_model dim_feedforward num_layers seq_len None
    p max_len g0 = Ok (m, g1) ->
  shape3 x = Some (B, seq_len, input_size) ->
  (0 < input_size)%nat -> (0 < d_model)%nat ->
  exists outputs attention_weights,
    Transformer.forward (Transformer_eval m) x g
      = Ok ((outputs, attention_weights), g) /\
    match num_layers with
    | O => last_layer_weights attention_weights = Raise IndexError
    | S _ =>
        exists a,
          last_layer_weights attention_weights = Ok a /\
          is_mat seq_len seq_len a /\ Forall (fun r => sum r = 1) a
    end.
Proof.
  intros Hinit Sx Hin Hd.
  destruct (Transformer_init_ok _ _ _ _ _ _ _ _ _ _ _ Hinit) as (Hwf & Hlen & Hpe).
  destruct (shape3_pos _ _ _ _ Sx Hin) as [HB HL].
  pose proof (wf_transformer_eval _ _ _ _ _ Hwf) as Hwf'.
  assert (Henc : encoder_ok (Transformer_eval m) B seq_len d_model).
  { intros enc Henc. cbn [Transformer.pos_encoder Transformer_eval] in Henc.
    destruct Hwf as (_ & _ & _ & Hiff & _).
    rewrite (proj1 Hiff Hpe) in Henc. discriminate Henc. }
  destruct (transformer_contract_holds _ _ _ _ _ B x g Hwf' Henc
              (shape3_is_tensor _ _ _ _ Sx) HB HL Hd) as [Hc Hrows].
  destruct Hc as (e & h0 & hN & ws & gN & out & _ & _ & _ & _ & Hl & Hsh & _ & _ & Ef).
  specialize (Hrows _ _ _ Ef).
  destruct (Transformer_eval_pure m x) as [r Hr].
  assert (HgN : gN = g).
  { rewrite Hr in Ef. destruct r; simpl in Ef; congruence. }
  subst gN. exists out, ws. split; [exact Ef|].
  cbn [Transformer.encoder_layers Transformer_eval] in Hl.
  rewrite length_map, Hlen in Hl.
  destruct num_layers as [|n].
  - destruct ws; [reflexivity|discriminate Hl].
  - unfold last_layer_weights. destruct (rev ws) as [|w rest] eqn:Er.
    + apply (f_equal (@length _)) in Er. rewrite length_rev, Hl in Er.
      discriminate Er.
    + assert (Hin' : In w ws) by (apply in_rev; rewrite Er; now left).
      rewrite Forall_forall in Hsh, Hrows.
      pose proof (Hsh w Hin') as Sw. pose proof (Hrows w Hin') as Rw.
      apply shape3_is_tensor in Sw. destruct Sw as [Hlw Hw].
      destruct w as [|a w']; [simpl in Hlw; lia|].
      exists a. split; [reflexivity|]. split.
      * now apply Forall_inv in Hw.
      * now apply Forall_inv in Rw.
Qed.

Lemma visualize_attention_selects_last_layer_witness :
  exists m g',
    Transformer.init 1 2 3 2 2 None (1 # 10) 5000 example_rng = Ok (m, g') /\
    exists outputs attention_weights,
      Transformer.forward (Transformer_eval m) (zeros3 1 2 1) g'
        = Ok ((outputs, attention_weights), g') /\
      exists a,
        last_layer_weights attention_weights = Ok a /\
        is_mat 2 2 a /\ Forall (fun r => sum r = 1) a.
Proof.
  assert (Hinit : exists m g',
             Transformer.init 1 2 3 2 2 None (1 # 10) 5000 example_rng = Ok (m, g')).
  { eexists. eexists. run_init. }
  destruct Hinit as (m & g' & Hinit).
  exists m, g'. split; [exact Hinit|].
  apply (visualize_attention_selects_last_layer 1 2 3 2 2 (1 # 10) 5000
           example_rng m g' 1 (zeros3 1 2 1) g' Hinit);
    [reflexivity | lia | lia].
Defined.

(** * The stacked model and the order of its input *)

Lemma permute_seq_map_rows (f : list R -> list R) q B L k (x : tensor3) :
  is_tensor B L k x -> is_perm q L ->
  map (map f) (permute_seq q x) = permute_seq q (map (map f) x).
Proof.
  intros [_ Hx] Hq. unfold permute_seq. rewrite !map_map.
  apply map_ext_in. intros m Hm. rewrite Forall_forall in Hx.
  destruct (Hx m Hm) as [Hl _]. unfold permute_rows. rewrite map_map.
  apply map_ext_in. intros i Hi.
  apply (Permutation_in _ Hq) in Hi. apply in_seq in Hi.
  symmetry. apply nth_map_in. lia.
Qed.

Lemma permute_seq_plus3 q B L d (a b : tensor3) :
  is_tensor B L d a -> is_tensor B L d b -> (0 < B)%nat -> (0 < L)%nat ->
  is_perm q L ->
  plus3 (permute_seq q a) (permute_seq q b) = permute_seq q (plus3 a b).
Proof.
  intros Ha Hb HB HL Hq.
  pose proof (permute_seq_is_tensor q _ _ _ _ Ha Hq) as Ha'.
  pose proof (permute_seq_is_tensor q _ _ _ _ Hb Hq) as Hb'.
  destruct (add_same_ok _ _ _ _ _ Ha Hb HB HL) as [_ Ts].
  destruct (add_same_ok _ _ _ _ _ Ha' Hb' HB HL) as [_ Ts'].
  apply (tensor_ext B L d); auto.
  - now apply permute_seq_is_tensor.
  - intros b0 i j Hb0 Hi Hj. pose proof (is_perm_nth _ _ _ Hq Hi) as Hqi.
    rewrite (get3_plus3 B L d) by auto.
    rewrite !(get3_permute_seq q B L d) by auto.
    now rewrite (get3_plus3 B L d) by auto.
Qed.

Lemma block_eval_forward d dff T blk B x g :
  wf_block d dff T blk -> is_tensor B T d x ->
  (0 < B)%nat -> (0 < T)%nat -> (0 < d)%nat ->
  TransformerEncoderBlock.forward (TransformerEncoderBlock_eval blk) x g
    = Ok (block_eval_value blk x, g) /\
  is_tensor B T d (fst (block_eval_value blk x)).
Proof.
  intros (Hh & Hn1 & Hn2 & Hf1 & Hf2) Hx HB HL Hd.
  pose proof Hh as (Hq & Hk & Hv & Ha & Hfc). pose proof Ha as (Hdk & _ & _).
  destruct (Linear_forward_ok _ _ _ _ _ _ Hq Hx) as [Eq Tq].
  destruct (Linear_forward_ok _ _ _ _ _ _ Hk Hx) as [Ek Tk].
  destruct (Linear_forward_ok _ _ _ _ _ _ Hv Hx) as [Ev Tv].
  pose proof (wf_attention_bias_ready _ _ _ Ha) as Hrel.
  pose proof (forward_eq (AttentionHead.scaled_dot_attention
                            (TransformerEncoderBlock.attention blk)) B T d
                (map (map (Linear.forward1 (AttentionHead.query_layer
                   (TransformerEncoderBlock.attention blk)))) x)
                (map (map (Linear.forward1 (AttentionHead.key_layer
                   (TransformerEncoderBlock.attention blk)))) x)
                (map (map (Linear.forward1 (AttentionHead.value_layer
                   (TransformerEncoderBlock.attention blk)))) x)) as Ea.
  rewrite Hdk in Ea. specialize (Ea Tq Tk Tv HB HL Hd Hrel).
  assert (TW : is_tensor B T T
                 (softmax (scores_of (AttentionHead.scaled_dot_attention
                                        (TransformerEncoderBlock.attention blk))
                    (map (map (Linear.forward1 (AttentionHead.query_layer
                       (TransformerEncoderBlock.attention blk)))) x)
                    (map (map (Linear.forward1 (AttentionHead.key_layer
                       (TransformerEncoderBlock.attention blk)))) x)))).
  { apply softmax_is_tensor, scores_of_is_tensor; rewrite ?Hdk; auto. }
  pose proof (matmul_is_tensor _ _ _ _ _ _ TW Tv HL) as To.
  destruct (Linear_forward_ok _ _ _ _ _ _ Hfc To) as [Eo Ta].
  destruct (add_same_ok _ _ _ _ _ Hx Ta HB HL) as [Es1 Ts1].
  destruct (LayerNorm_forward_ok _ _ _ _ _ Hn1 Ts1) as [Ex1 Tx1].
  destruct (Linear_forward_ok _ _ _ _ _ _ Hf1 Tx1) as [Eh Th].
  destruct (Linear_forward_ok _ _ _ _ _ _ Hf2 (relu_is_tensor _ _ _ _ Th))
    as [Ef Tf].
  destruct (add_same_ok _ _ _ _ _ Tx1 Tf HB HL) as [Es2 Ts2].
  destruct (LayerNorm_forward_ok _ _ _ _ _ Hn2 Ts2) as [Eo2 To2].
  split; [|exact To2].
  unfold TransformerEncoderBlock.forward, TransformerEncoderBlock.ffn_forward,
    AttentionHead.forward, Dropout.forward, bind, lift, ret.
  cbn [TransformerEncoderBlock.attention TransformerEncoderBlock.norm1
       TransformerEncoderBlock.norm2 TransformerEncoderBlock.ffn
       TransformerEncoderBlock.dropout TransformerEncoderBlock_eval
       Dropout_eval Dropout.training].
  rewrite Eq, Ek, Ev. cbn [rbind]. rewrite Ea. cbn [rbind]. rewrite Eo.
  cbn [rbind]. rewrite Es1, Ex1, Eh. cbn [rbind]. rewrite Ef, Es2, Eo2.
  reflexivity.
Qed.

Lemma block_eval_value_permute d dff T blk B x q :
  wf_block d dff T blk -> block_flag blk = true -> is_tensor B T d x ->
  (0 < B)%nat -> (0 < T)%nat -> (0 < d)%nat -> is_perm q T ->
  block_eval_value blk (permute_seq q x)
  = (permute_seq q (fst (block_eval_value blk x)),
     permute_weights q (snd (block_eval_value blk x))).
Proof.
  intros (Hh & Hn1 & Hn2 & Hf1 & Hf2) Hflag Hx HB HL Hd Hp.
  pose proof Hh as (Hq & Hk & Hv & Ha & Hfc). pose proof Ha as (Hdk & _ & _).
  unfold block_flag in Hflag.
  destruct (Linear_forward_ok _ _ _ _ _ _ Hq Hx) as [_ Tq].
  destruct (Linear_forward_ok _ _ _ _ _ _ Hk Hx) as [_ Tk].
  destruct (Linear_forward_ok _ _ _ _ _ _ Hv Hx) as [_ Tv].
  pose proof (wf_attention_bias_ready _ _ _ Ha) as Hrel.
  unfold block_eval_value. cbv zeta. cbn [fst snd].
  rewrite !(permute_seq_map_rows _ q B T d x Hx Hp).
  set (unit := AttentionHead.scaled_dot_attention
                 (TransformerEncoderBlock.attention blk)) in *.
  set (Q := map (map (Linear.forward1 (AttentionHead.query_layer
               (TransformerEncoderBlock.attention blk)))) x) in *.
  set (K := map (map (Linear.forward1 (AttentionHead.key_layer
               (TransformerEncoderBlock.attention blk)))) x) in *.
  set (V := map (map (Linear.forward1 (AttentionHead.value_layer
               (TransformerEncoderBlock.attention blk)))) x) in *.
  set (W := softmax (scores_of unit Q K)).
  assert (TW : is_tensor B T T W).
  { apply softmax_is_tensor, scores_of_is_tensor; rewrite ?Hdk; auto. }
  pose proof (matmul_is_tensor _ _ _ _ _ _ TW Tv HL) as To.
  assert (EW : softmax (scores_of unit (permute_seq q Q) (permute_seq q K))
               = permute_weights q W /\
               zip_with matmul2 (permute_weights q W) (permute_seq q V)
               = permute_seq q (zip_with matmul2 W V)).
  { pose proof (permute_seq_is_tensor q _ _ _ _ Tq Hp) as Tq'.
    pose proof (permute_seq_is_tensor q _ _ _ _ Tk Hp) as Tk'.
    pose proof (permute_seq_is_tensor q _ _ _ _ Tv Hp) as Tv'.
    assert (Hdk0 : (0 < d_k unit)%nat) by (rewrite Hdk; exact Hd).
    rewrite <- Hdk in Tq, Tk, Tq', Tk'.
    destruct (attention_equivariant unit B T d Q K V q Hflag Hdk0 Tq Tk Tv HB HL Hp)
      as (O & W0 & E1 & E2).
    rewrite (forward_eq unit B T d) in E1 by auto.
    rewrite (forward_eq unit B T d) in E2 by auto.
    injection E1 as EO EW0. injection E2 as EO' EW'.
    fold W in EO, EW0. subst O W0. split; [exact EW'|].
    rewrite <- EW'. exact EO'. }
  destruct EW as [EW EO]. rewrite EW, EO.
  destruct (Linear_forward_ok _ _ _ _ _ _ Hfc To) as [_ Ta].
  rewrite (permute_seq_map_rows _ q B T d _ To Hp).
  rewrite (permute_seq_plus3 q B T d _ _ Hx Ta HB HL Hp).
  destruct (add_same_ok _ _ _ _ _ Hx Ta HB HL) as [_ Ts1].
  rewrite (permute_seq_map_rows _ q B T d _ Ts1 Hp).
  destruct (LayerNorm_forward_ok _ _ _ _ _ Hn1 Ts1) as [_ Tx1].
  rewrite (permute_seq_map_rows _ q B T d _ Tx1 Hp).
  destruct (Linear_forward_ok _ _ _ _ _ _ Hf1 Tx1) as [_ Th].
  unfold relu.
  rewrite (permute_seq_map_rows (map (Rmax 0)) q B T dff _ Th Hp).
  fold (relu (map (map (Linear.forward1 (fst (TransformerEncoderBlock.ffn blk))))
                (map (map (LayerNorm.forward1 (TransformerEncoderBlock.norm1 blk)))
                   (plus3 x (map (map (Linear.forward1 (AttentionHead.fc_out
                      (TransformerEncoderBlock.attention blk))))
                      (zip_with matmul2 W V)))))).
  pose proof (relu_is_tensor _ _ _ _ Th) as Tr.
  rewrite (permute_seq_map_rows _ q B T dff _ Tr Hp).
  destruct (Linear_forward_ok _ _ _ _ _ _ Hf2 Tr) as [_ Tf].
  rewrite (permute_seq_plus3 q B T d _ _ Tx1 Tf HB HL Hp).
  destruct (add_same_ok _ _ _ _ _ Tx1 Tf HB HL) as [_ Ts2].
  rewrite (permute_seq_map_rows _ q B T d _ Ts2 Hp).
  reflexivity.
Qed.

Lemma run_layers_eval_equivariant d dff T B q layers :
  Forall (wf_block d dff T) layers ->
  Forall (fun b => block_flag b = true) layers ->
  (0 < B)%nat -> (0 < T)%nat -> (0 < d)%nat -> is_perm q T ->
  forall x acc g, is_tensor B T d x ->
  exists xN ws,
    Transformer.run_layers (map TransformerEncoderBlock_eval layers) x acc g
      = Ok ((xN, acc ++ ws), g) /\
    is_tensor B T d xN /\
    forall acc',
      Transformer.run_layers (map TransformerEncoderBlock_eval layers)
        (permute_seq q x) acc' g
      = Ok ((permute_seq q xN, acc' ++ map (permute_weights q) ws), g).
Proof.
  intros Hwf Hfl HB HT Hd Hq.
  induction layers as [|blk rest IH]; intros x acc g Hx.
  - exists x, []. cbn [map Transformer.run_layers]. unfold ret.
    rewrite app_nil_r. split; [reflexivity|]. split; [exact Hx|].
    intros acc'. now rewrite app_nil_r.
  - apply Forall_cons_iff in Hwf as [Hblk Hwf].
    apply Forall_cons_iff in Hfl as [Hflag Hfl].
    destruct (block_eval_forward d dff T blk B x g Hblk Hx HB HT Hd) as [E Ty].
    pose proof (permute_seq_is_tensor q _ _ _ _ Hx Hq) as Hx'.
    destruct (block_eval_forward d dff T blk B _ g Hblk Hx' HB HT Hd) as [E' _].
    rewrite (block_eval_value_permute d dff T blk B x q) in E' by auto.
    destruct (block_eval_value blk x) as [y w]. cbn [fst snd] in *.
    destruct (IH Hwf Hfl y (acc ++ [w]) g Ty) as (xN & ws & Er & TN & Er').
    exists xN, (w :: ws). split; [|split; [exact TN|]].
    + cbn [map Transformer.run_layers]. unfold bind at 1. rewrite E.
      rewrite Er. now rewrite <- app_assoc.
    + intros acc'. cbn [map Transformer.run_layers]. unfold bind at 1.
      rewrite E'. rewrite Er'. now rewrite <- app_assoc.
Qed.

Lemma last_nth_pred {A} (l : list A) d : last l d = nth (length l - 1) l d.
Proof.
  induction l as [|a l IH]; [reflexivity|].
  destruct l as [|b l]; [reflexivity|].
  change (last (a :: b :: l) d) with (last (b :: l) d). rewrite IH.
  cbn [length]. rewrite !Nat.sub_succ, !Nat.sub_0_r. reflexivity.
Qed.

Lemma last_rows_permute q B T d (x : tensor3) :
  is_tensor B T d x -> (0 < T)%nat -> is_perm q T ->
  nth (T - 1) q 0%nat = (T - 1)%nat ->
  map (fun s => last s []) (permute_seq q x) = map (fun s => last s []) x.
Proof.
  intros [_ Hx] HT Hq Hlast. unfold permute_seq. rewrite map_map.
  apply map_ext_in. intros m Hm. rewrite Forall_forall in Hx.
  destruct (Hx m Hm) as [Hl _]. unfold permute_rows.
  rewrite !last_nth_pred, length_map, (is_perm_length q T Hq), Hl.
  rewrite (nth_map_in _ _ _ _ 0%nat) by (rewrite (is_perm_length q T Hq); lia).
  now rewrite Hlast.
Qed.

Lemma Transformer_init_encoder input d dff N T p max_len g m g' :
  Transformer.init input d dff N T (Some PositionalEncoding.constructor) p
    max_len g = Ok (m, g') ->
  exists self,
    PositionalEncoding.init d max_len = Ok self /\
    Transformer.pos_encoder m = Some (PositionalEncoding.as_encoder self).
Proof.
  unfold Transformer.init. intros H.
  apply bind_ok in H as (emb & g1 & He & H).
  apply bind_ok in H as (enc & g2 & Hp & H).
  apply bind_ok in H as (layers & g3 & Hl & H).
  apply bind_ok in H as (fc & g4 & Hf & H).
  apply ret_ok in H as [-> _]. cbn [Transformer.pos_encoder].
  apply bind_ok in Hp as (pe & g5 & Hc & Hp).
  apply ret_ok in Hp as [-> _].
  unfold PositionalEncoding.constructor in Hc.
  apply lift_ok in Hc as [Hc _].
  apply rbind_ok in Hc as (self & Hi & Hc).
  exists self. split; [exact Hi|]. congruence.
Qed.

(** X23: with the sine/cosine encoding the stacked model cannot see the order
    of its input before the last position.  In evaluation mode, on an input
    of the model's own sequence length, reordering the sequence by any
    permutation that keeps the last position in place leaves the output
    unchanged, and reorders both axes of every weight matrix.  The encoding
    adds the same row to every position, the attention has no bias, and all
    other layers act on each position alone (the head's projections and the
    second half of the block, unwritten in the notebook, as the spec gives
    them). *)
Theorem transformer_blind_to_order_before_last
        input_size d_model dim_feedforward num_layers seq_len p max_len
        g0 m g1 B x q g :
  Transformer.init input_size d_model dim_feedforward num_layers seq_len
    (Some PositionalEncoding.constructor) p max_len g0 = Ok (m, g1) ->
  shape3 x = Some (B, seq_len, input_size) ->
  (0 < input_size)%nat -> (B <= max_len)%nat ->
  is_perm q seq_len -> nth (seq_len - 1) q 0%nat = (seq_len - 1)%nat ->
  exists outputs attention_weights,
    Transformer.forward (Transformer_eval m) x g
      = Ok ((outputs, attention_weights), g) /\
    Transformer.forward (Transformer_eval m) (permute_seq q x) g
      = Ok ((outputs, map (permute_weights q) attention_weights), g).
Proof.
  intros Hinit Sx Hin HBm Hq Hlast.
  destruct (Transformer_init_ok _ _ _ _ _ _ _ _ _ _ _ Hinit)
    as ((He & Hblocks & Hfc & _ & Hflags) & _ & Hpe).
  destruct (Transformer_init_encoder _ _ _ _ _ _ _ _ _ _ Hinit)
    as (self & Hself & Henc).
  destruct (PositionalEncoding_init_inv _ _ _ Hself) as [Hd0 _].
  assert (Hd : (0 < d_model)%nat) by lia.
  destruct (shape3_pos _ _ _ _ Sx Hin) as [HB HT].
  apply shape3_is_tensor in Sx.
  pose proof (permute_seq_is_tensor q _ _ _ _ Sx Hq) as Sx'.
  destruct (Linear_forward_ok _ _ _ B seq_len x He Sx) as [Ee Te].
  destruct (Linear_forward_ok _ _ _ B seq_len _ He Sx') as [Ee' _].
  rewrite (permute_seq_map_rows _ q B seq_len input_size x Sx Hq) in Ee'.
  destruct (PositionalEncoding_forward_equivariant _ _ _ B seq_len _ q Hself
              Te HB HT HBm Hq) as (h0 & Eh & Th & Eh').
  rewrite Hpe in Hflags.
  destruct (run_layers_eval_equivariant d_model dim_feedforward seq_len B q
              (Transformer.encoder_layers m) Hblocks Hflags HB HT Hd Hq
              h0 [] g Th) as (hN & ws & Er & TN & Er').
  specialize (Er' []). cbn [app] in Er, Er'.
  destruct (last_step_ok B seq_len d_model hN TN HT) as [El Tl].
  pose proof (permute_seq_is_tensor q _ _ _ _ TN Hq) as TN'.
  destruct (last_step_ok B seq_len d_model _ TN' HT) as [El' _].
  rewrite (last_rows_permute q B seq_len d_model hN TN HT Hq Hlast) in El'.
  destruct (Linear_forward2_ok _ _ _ _ _ Hfc Tl) as [Eo _].
  exists (map (Linear.forward1 (Transformer.fc_out m))
              (map (fun s => last s []) hN)), ws.
  unfold Transformer.forward, bind, lift, ret.
  cbn [Transformer.positional_encoding Transformer.pos_encoder
       Transformer.embedding Transformer.encoder_layers Transformer.fc_out
       Transformer_eval].
  rewrite Hpe, Henc. cbn [pe_forward PositionalEncoding.as_encoder].
  split.
  - rewrite Ee, Eh. fold (@bind (tensor3 * list tensor3)). rewrite Er, El, Eo.
    reflexivity.
  - rewrite Ee', Eh'. rewrite Er', El', Eo. reflexivity.
Qed.

Lemma transformer_blind_to_order_before_last_witness :
  is_perm [1; 0; 2]%nat 3 /\
  exists m g',
    Transformer.init 1 2 3 2 3 (Some PositionalEncoding.constructor) (1 # 10) 4
      example_rng = Ok (m, g') /\
    exists outputs attention_weights,
      Transformer.forward (Transformer_eval m) (zeros3 1 3 1) g'
        = Ok ((outputs, attention_weights), g') /\
      Transformer.forward (Transformer_eval m)
        (permute_seq [1; 0; 2]%nat (zeros3 1 3 1)) g'
        = Ok ((outputs, map (permute_weights [1; 0; 2]%nat) attention_weights),
              g').
Proof.
  assert (Hq : is_perm [1; 0; 2]%nat 3) by apply perm_swap.
  split; [exact Hq|].
  assert (Hinit : exists m g',
             Transformer.init 1 2 3 2 3 (Some PositionalEncoding.constructor)
               (1 # 10) 4 example_rng = Ok (m, g')).
  { eexists. eexists. run_init. }
  destruct Hinit as (m & g' & Hinit).
  exists m, g'. split; [exact Hinit|].
  apply (transformer_blind_to_order_before_last 1 2 3 2 3 (1 # 10) 4
           example_rng m g' 1 (zeros3 1 3 1) [1; 0; 2]%nat g' Hinit);
    [reflexivity | lia | lia | exact Hq | reflexivity].
Defined.

(** * Random draws of the constructors *)

Lemma skip_0 g : skip 0 g = g.
Proof. destruct g. unfold skip. simpl. f_equal. lia. Qed.

Lemma skip_skip a b g : skip a (skip b g) = skip (b + a) g.
Proof. unfold skip. simpl. f_equal. lia. Qed.

Lemma advance_skip g : advance g = skip 1 g.
Proof. unfold advance, skip. f_equal. lia. Qed.

Lemma replicateM_skip {A} (m : M A) k (f : rng -> A) :
  (forall g, m g = Ok (f g, skip k g)) ->
  forall n g,
    replicateM n m g
    = Ok (map (fun i => f (skip (i * k) g)) (seq 0 n), skip (n * k) g).
Proof.
  intros Hm. induction n as [|n IH]; intros g.
  - simpl. unfold ret. now rewrite skip_0.
  - cbn [replicateM]. unfold bind at 1. rewrite Hm.
    unfold bind at 1. rewrite IH. unfold ret.
    rewrite skip_skip. cbn [seq map]. rewrite skip_0. do 3 f_equal.
    rewrite <- seq_shift, map_map. apply map_ext. intros i.
    now rewrite skip_skip.
Qed.

Lemma randn_skip g : randn g = Ok (reals g (cursor g), skip 1 g).
Proof. unfold randn. now rewrite advance_skip. Qed.

Lemma randn3_draws b n m g :
  exists t,
    randn3 b n m g = Ok (t, skip (b * (n * m)) g) /\
    forall bi i j, (bi < b)%nat -> (i < n)%nat -> (j < m)%nat ->
      get3 t bi i j = reals g (cursor g + (bi * (n * m) + i * m + j)).
Proof.
  pose proof (replicateM_skip randn 1 _ randn_skip) as H1.
  pose proof (replicateM_skip (randn1 m) (m * 1) _ (H1 m)) as H2.
  pose proof (replicateM_skip (randn2 n m) (n * (m * 1)) _ (H2 n)) as H3.
  eexists. split.
  - unfold randn3. rewrite H3. do 3 f_equal. lia.
  - intros bi i j Hb Hi Hj. unfold get3, get2, get1.
    rewrite (nth_map_in _ _ _ _ 0%nat) by now rewrite length_seq.
    rewrite (nth_map_in _ _ _ _ 0%nat) by now rewrite length_seq.
    rewrite (nth_map_in _ _ _ _ 0%nat) by now rewrite length_seq.
    rewrite !seq_nth by auto. rewrite !skip_skip. cbn [reals cursor skip].
    f_equal. lia.
Qed.

(** X24: the constructor of the attention unit draws the whole
    seq_len x seq_len bias table from the generator, whether or not the bias
    will be used: for both values of the flag the same table of shape
    (1, seq_len, seq_len) is built and the generator has moved on by
    seq_len * seq_len draws. *)
Theorem attention_constructor_always_draws_bias (seq_len d_k : nat) (g : rng) :
  exists rel_layer,
    (forall flag,
       ScaledDotProductAttention.init seq_len d_k flag g
       = Ok (ScaledDotProductAttention.mk d_k seq_len flag rel_layer,
             skip (seq_len * seq_len) g)) /\
    is_tensor 1 seq_len seq_len rel_layer.
Proof.
  destruct (randn3_draws 1 seq_len seq_len g) as (t & Et & Ht).
  exists t. split.
  - intros flag. unfold ScaledDotProductAttention.init, bind, ret.
    rewrite Et. do 3 f_equal. lia.
  - now apply (randn3_ok _ _ _ _ _ _ Et).
Qed.

(** * The saved state of a model with positional encoding *)

Lemma Transformer_module_with_encoder m self :
  Transformer.pos_encoder m = Some (PositionalEncoding.as_encoder self) ->
  Transformer_module m =
  AModule [(Name "positional_encoding", APlain);
           (Name "embedding", Linear_module (Transformer.embedding m));
           (Name "pos_encoder",
            AModule [(Name "pe", ABuffer (T3 (PositionalEncoding.pe self)))]);
           (Name "encoder_layers",
            ModuleList (map TransformerEncoderBlock_module
                            (Transformer.encoder_layers m)));
           (Name "fc_out", Linear_module (Transformer.fc_out m))].
Proof. intros H. unfold Transformer_module. now rewrite H. Qed.

Lemma get_pe_path m self :
  Transformer.pos_encoder m = Some (PositionalEncoding.as_encoder self) ->
  get_path pe_path (Transformer_module m)
  = Some (ABuffer (T3 (PositionalEncoding.pe self))).
Proof.
  intros H. rewrite (Transformer_module_with_encoder m self H).
  assert (E1 : key_eqb (Name "pos_encoder") (Name "positional_encoding") = false)
    by reflexivity.
  assert (E2 : key_eqb (Name "pos_encoder") (Name "embedding") = false)
    by reflexivity.
  assert (E3 : key_eqb (Name "pos_encoder") (Name "pos_encoder") = true)
    by reflexivity.
  assert (E4 : key_eqb (Name "pe") (Name "pe") = true) by reflexivity.
  unfold pe_path. cbn [get_path get_attr]. rewrite E1, E2, E3.
  cbn [get_attr]. now rewrite E4.
Qed.

Lemma parameter_names_with_encoder m self path v :
  Transformer.pos_encoder m = Some (PositionalEncoding.as_encoder self) ->
  In (path, v) (named_parameters [] (Transformer_module m)) ->
  last path (Name "") = Name "weight" \/ last path (Name "") = Name "bias".
Proof.
  intros Henc. unfold Transformer_module. rewrite Henc.
  cbn [named_parameters]. rewrite !flat_map_app.
  intros H. apply in_app_or in H as [H|H]; [|apply in_app_or in H as [H|H]].
  - last_is_weight_or_bias H.
  - simpl in H. contradiction.
  - cbn [flat_map] in H. rewrite app_nil_r in H.
    apply in_app_or in H as [H|H].
    + unfold ModuleList in H. eapply ModuleList_parameter_names; eauto.
    + eapply Linear_parameter_names; eauto.
Qed.

(** X25: the sine/cosine table of a model built with PositionalEncoding is a
    registered buffer: it is the model's only buffer, it is saved under
    [pos_encoder.pe] in the state, it is not among the parameters, and a step
    that updates the parameters leaves it as it was built. *)
Theorem positional_table_is_a_saved_buffer
        input_size d_model dim_feedforward num_layers seq_len p max_len g m g' :
  Transformer.init input_size d_model dim_feedforward num_layers seq_len
    (Some PositionalEncoding.constructor) p max_len g = Ok (m, g') ->
  exists self,
    PositionalEncoding.init d_model max_len = Ok self /\
    named_buffers [] (Transformer_module m)
      = [(pe_path, T3 (PositionalEncoding.pe self))] /\
    In (pe_path, T3 (PositionalEncoding.pe self))
       (state_dict (Transformer_module m)) /\
    ~ In pe_path (map fst (named_parameters [] (Transformer_module m))) /\
    forall f,
      get_path pe_path (update_parameters f [] (Transformer_module m))
      = Some (ABuffer (T3 (PositionalEncoding.pe self))).
Proof.
  intros Hinit.
  destruct (Transformer_init_encoder _ _ _ _ _ _ _ _ _ _ Hinit)
    as (self & Hself & Henc).
  exists self. split; [exact Hself|].
  assert (Hb : named_buffers [] (Transformer_module m)
               = [(pe_path, T3 (PositionalEncoding.pe self))]).
  { rewrite (Transformer_module_with_encoder m self Henc).
    cbn [named_buffers flat_map app]. unfold ModuleList.
    now rewrite ModuleList_has_no_buffers. }
  split; [exact Hb|]. split; [|split].
  - unfold state_dict. apply in_or_app. right. rewrite Hb. now left.
  - intros H. apply in_map_iff in H as ([path v] & Hpath & H).
    simpl in Hpath. subst path.
    destruct (parameter_names_with_encoder m self _ _ Henc H) as [E|E];
      discriminate E.
  - intros f. rewrite get_path_update, (get_pe_path m self Henc). reflexivity.
Qed.

Lemma positional_table_is_a_saved_buffer_witness :
  exists m g' self,
    Transformer.init 1 2 3 2 2 (Some PositionalEncoding.constructor) (1 # 10) 4
      example_rng = Ok (m, g') /\
    PositionalEncoding.init 2 4 = Ok self /\
    named_buffers [] (Transformer_module m)
      = [(pe_path, T3 (PositionalEncoding.pe self))] /\
    In (pe_path, T3 (PositionalEncoding.pe self))
       (state_dict (Transformer_module m)) /\
    ~ In pe_path (map fst (named_parameters [] (Transformer_module m))) /\
    forall f,
      get_path pe_path (update_parameters f [] (Transformer_module m))
      = Some (ABuffer (T3 (PositionalEncoding.pe self))).
Proof.
  assert (Hinit : exists m g',
             Transformer.init 1 2 3 2 2 (Some PositionalEncoding.constructor)
               (1 # 10) 4 example_rng = Ok (m, g')).
  { eexists. eexists. run_init. }
  destruct Hinit as (m & g' & Hinit).
  destruct (positional_table_is_a_saved_buffer 1 2 3 2 2 (1 # 10) 4
              example_rng m g' Hinit) as (self & H).
  exists m, g', self. split; [exact Hinit|exact H].
Defined.

(** * The dataset on very short series *)

(** X26: the constructor of the dataset can fail only at the first jump.
    When the first jump index drawn for the first sample lies beyond the
    array of seq_len + 1 values, which needs seq_len < 2, the constructor
    raises IndexError for every positive num_samples.  (The first jump index,
    unwritten in the notebook, is the random offset in [0, val) that its
    comment and the spec give.) *)
Theorem dataset_constructor_raises_on_short_series seq_len num_samples g :
  (seq_len < nats g (cursor g) mod TimeSeriesDataset.val)%nat ->
  TimeSeriesDataset.init seq_len (S num_samples) g = Raise IndexError.
Proof.
  intros H. unfold TimeSeriesDataset.init. cbn [replicateM].
  unfold bind at 1. unfold bind at 1.
  now rewrite (sample_raises seq_len g H).
Qed.

Lemma dataset_constructor_raises_on_short_series_witness :
  TimeSeriesDataset.init 1 (S 3) (mk_rng INR (fun _ => 2%nat) Nat.even 0)
  = Raise IndexError.
Proof.
  apply (dataset_constructor_raises_on_short_series 1 3
           (mk_rng INR (fun _ => 2%nat) Nat.even 0)).
  simpl. lia.
Defined.
